(** * PhotoEditPython: the command dispatcher of [pictool1.py] and the
      pixel-buffer transforms of [plugins2.py], embedded in Rocq.

    The embedding follows the Python sources function by function.

    - Python [int] is [Z]. Python [float] is IEEE 754 binary64 with
      round-to-nearest-even, taken from the Standard Library's [SpecFloat]
      (the executable specification of the primitive floats), so that every
      floating-point expression of the sources evaluates inside Rocq.
    - A Python exception is a value [Raise e] of [result]; code that mutates
      the image runs in a state-and-exception monad [M] whose state survives
      a raised exception, as a Python object survives it.
    - The image buffer is a list of rows of [RGB] records. [read_image]
      builds every row and every pixel as a fresh object, so no two positions
      of a buffer alias each other; under that condition, mutating the pixel
      objects in place is the same as rewriting the list of rows, which is
      what the state of [M] holds. *)

From Stdlib Require Import ZArith Lia Bool List Ascii String.
From Stdlib Require Import Floats.SpecFloat.
From stdpp Require Import base tactics option numbers list.

Local Open Scope Z_scope.

(* ===================================================================== *)
(** * Python values used by the sources                                   *)
(* ===================================================================== *)

(** ** Exceptions and results *)

Inductive exn :=
  | IndexError | ZeroDivisionError | OverflowError | ValueError
  | TypeError | AttributeError | KeyError | AssertionError.

Inductive result (A : Type) :=
  | Ok (a : A)
  | Raise (e : exn).
Arguments Ok {A} a.
Arguments Raise {A} e.

Definition rbind {A B} (r : result A) (k : A -> result B) : result B :=
  match r with
  | Ok a => k a
  | Raise e => Raise e
  end.

(** State-and-exception monad: the state is returned in both outcomes. *)
Definition M (S A : Type) : Type := S -> result A * S.

Definition ret {S A} (a : A) : M S A := fun s => (Ok a, s).
Definition raise {S A} (e : exn) : M S A := fun s => (Raise e, s).
Definition lift {S A} (r : result A) : M S A := fun s => (r, s).
Definition bind {S A B} (m : M S A) (k : A -> M S B) : M S B :=
  fun s => match m s with
           | (Ok a, s') => k a s'
           | (Raise e, s') => (Raise e, s')
           end.
Definition get {S} : M S S := fun s => (Ok s, s).
Definition put {S} (s' : S) : M S unit := fun _ => (Ok tt, s').

Notation "'let!' x ':=' m 'in' k" := (bind m (fun x => k))
  (at level 10, x name, m at level 100, k at level 200).
Notation "'do!' m 'in' k" := (bind m (fun _ => k))
  (at level 10, m at level 100, k at level 200).
Notation "'let?' x ':=' r 'in' k" := (rbind r (fun x => k))
  (at level 10, x name, r at level 100, k at level 200).

(** [for x in l: body] where the body may raise. *)
Fixpoint for_each {S B} (l : list B) (body : B -> M S unit) : M S unit :=
  match l with
  | [] => ret tt
  | x :: xs => do! body x in for_each xs body
  end.

(** [for item in l: body] where [l] is a list of distinct mutable objects
    and the body mutates the object it is given: the loop walks the list
    from the left and stops at the first exception, leaving the remaining
    objects as they were. *)
Fixpoint for_items {S} (body : M S unit) (l : list S) : result unit * list S :=
  match l with
  | [] => (Ok tt, [])
  | x :: xs =>
      match body x with
      | (Ok _, x') =>
          let '(r, xs') := for_items body xs in (r, x' :: xs')
      | (Raise e, x') => (Raise e, x' :: xs)
      end
  end.

(** ** Floating point: binary64 *)

Module PyFloat.

Definition float := spec_float.
Definition prec : Z := 53.
Definition emax : Z := 1024.

Definition fadd : float -> float -> float := SFadd prec emax.
Definition fsub : float -> float -> float := SFsub prec emax.
Definition fmul : float -> float -> float := SFmul prec emax.
Definition fdiv : float -> float -> float := SFdiv prec emax.
Definition fsqrt : float -> float := SFsqrt prec emax.

Definition is_zero (x : float) : bool :=
  match x with S754_zero _ => true | _ => false end.
Definition is_inf (x : float) : bool :=
  match x with S754_infinity _ => true | _ => false end.
Definition is_nan (x : float) : bool :=
  match x with S754_nan => true | _ => false end.
Definition is_finite (x : float) : bool :=
  match x with S754_zero _ | S754_finite _ _ _ => true | _ => false end.

(** Correctly rounded quotient of two integers, [b <> 0]: the division
    core of [SFdiv] run on the integers themselves. *)
Definition round_quotient (a b : Z) : float :=
  match a with
  | Z0 => S754_zero (b <? 0)
  | _ =>
      let '(q, e, l) := SFdiv_core_binary prec emax (Z.abs a) 0 (Z.abs b) 0 in
      binary_round_aux prec emax (xorb (a <? 0) (b <? 0)) q e l
  end.

(** A decimal literal [n/d] of the source text denotes the binary64 value
    nearest to it. *)
Definition literal (n d : Z) : float := round_quotient n d.

(** [float(n)] for an int [n], as in a mixed int/float operation:
    correctly rounded, [OverflowError] when out of range. *)
Definition float_of_int (n : Z) : result float :=
  let x := binary_normalize prec emax n 0 false in
  if is_inf x then Raise OverflowError else Ok x.

(** [a / b] for ints: true division. *)
Definition int_truediv (a b : Z) : result float :=
  if b =? 0 then Raise ZeroDivisionError
  else let x := round_quotient a b in
       if is_inf x then Raise OverflowError else Ok x.

(** [x / y] for floats. *)
Definition float_truediv (x y : float) : result float :=
  if is_zero y then Raise ZeroDivisionError else Ok (fdiv x y).

(** [x ** 2] for a float [x]: the correctly rounded square;
    [OverflowError] when a finite [x] has an infinite square. *)
Definition float_square (x : float) : result float :=
  let y := fmul x x in
  if is_finite x && is_inf y then Raise OverflowError else Ok y.

(** [math.sqrt(n)] for an int [n]. *)
Definition math_sqrt (n : Z) : result float :=
  let? x := float_of_int n in
  if n <? 0 then Raise ValueError else Ok (fsqrt x).

(** The integer part and the discarded fraction of a finite magnitude
    [m * 2^e]: quotient, remainder and divisor of the division by
    [2^(-e)] ([e < 0]). *)
Definition magnitude_parts (m : positive) (e : Z) : Z * Z * Z :=
  match e with
  | Zneg p => let d := Z.pow 2 (Zpos p) in
              (Zpos m / d, Zpos m mod d, d)
  | _ => (Zpos m * Z.pow 2 e, 0, 1)
  end.

(** [int(x)]: truncation toward zero. *)
Definition int_of_float (x : float) : result Z :=
  match x with
  | S754_zero _ => Ok 0
  | S754_finite s m e =>
      let '(q, _, _) := magnitude_parts m e in
      Ok (if s then - q else q)
  | S754_infinity _ => Raise OverflowError
  | S754_nan => Raise ValueError
  end.

(** [round(x)] with one argument: nearest integer, ties to even. *)
Definition round (x : float) : result Z :=
  match x with
  | S754_zero _ => Ok 0
  | S754_finite s m e =>
      let '(q, r, d) := magnitude_parts m e in
      let n := match Z.compare (2 * r) d with
               | Lt => q
               | Gt => q + 1
               | Eq => if Z.even q then q else q + 1
               end in
      Ok (if s then - n else n)
  | S754_infinity _ => Raise OverflowError
  | S754_nan => Raise ValueError
  end.

(** [n * x] and [x * n] for an int [n] and a float [x]. *)
Definition mul_int (x : float) (n : Z) : result float :=
  let? y := float_of_int n in Ok (fmul x y).

End PyFloat.
Import PyFloat.

(** ** Lists and ranges *)

Definition len {A} (l : list A) : Z := Z.of_nat (length l).

(** The position an index [i] denotes in a list of length [n]: negative
    indices count from the end; [None] is [IndexError]. *)
Definition index_position (n i : Z) : option nat :=
  let k := if i <? 0 then i + n else i in
  if (k <? 0) || (n <=? k) then None else Some (Z.to_nat k).

(** [l[i]] *)
Definition getitem {A} (l : list A) (i : Z) : result A :=
  match index_position (len l) i with
  | Some k => match l !! k with Some x => Ok x | None => Raise IndexError end
  | None => Raise IndexError
  end.

(** [l[i] = x] *)
Definition setitem {A} (i : Z) (x : A) : M (list A) unit :=
  fun l => match index_position (len l) i with
           | Some k => (Ok tt, <[k := x]> l)
           | None => (Raise IndexError, l)
           end.

(** [l.reverse()] *)
Definition list_reverse {A} : M (list A) unit :=
  fun l => (Ok tt, reverse l).

(** [range(start, stop)] *)
Definition range (start stop : Z) : list Z := seqZ start (stop - start).

(** [range(start, stop, step)]; a zero step is a [ValueError]. *)
Definition range_step (start stop step : Z) : result (list Z) :=
  if step =? 0 then Raise ValueError
  else if 0 <? step then
    Ok ((fun k => start + k * step) <$> seqZ 0 ((stop - start + step - 1) / step))
  else
    Ok ((fun k => start + k * step) <$> seqZ 0 ((start - stop - step - 1) / (- step))).

(** [[f(x) for x in l]] where [f] may raise. *)
Fixpoint comprehension {A B} (f : A -> result B) (l : list A) : result (list B) :=
  match l with
  | [] => Ok []
  | x :: xs => let? y := f x in
               let? ys := comprehension f xs in
               Ok (y :: ys)
  end.

(* ===================================================================== *)
(** * rgb.py                                                              *)
(* ===================================================================== *)

(** [class RGB]: four int attributes; the constructor applies [int] to its
    arguments and checks no range. *)
Record RGB := mkRGB { red : Z; green : Z; blue : Z; alpha : Z }.

Definition set_red (v : Z) : M RGB unit :=
  fun p => (Ok tt, mkRGB v (green p) (blue p) (alpha p)).
Definition set_green (v : Z) : M RGB unit :=
  fun p => (Ok tt, mkRGB (red p) v (blue p) (alpha p)).
Definition set_blue (v : Z) : M RGB unit :=
  fun p => (Ok tt, mkRGB (red p) (green p) v (alpha p)).

(** The image buffer: a list of rows. *)
Abbreviation buffer := (list (list RGB)).

(** [for row in image: for pixel in row: body]. *)
Definition for_pixels (body : M RGB unit) : M buffer unit :=
  for_items (for_items body).

(* ===================================================================== *)
(** * plugins2.py                                                         *)
(* ===================================================================== *)

Definition dered : M buffer bool :=
  do! for_pixels (set_red 0) in
  ret true.

(** [0.3 * pixel.red + 0.6 * pixel.green + 0.1 * pixel.blue] *)
Definition brightness (p : RGB) : result float :=
  let? a := mul_int (literal 3 10) (red p) in
  let? b := mul_int (literal 6 10) (green p) in
  let? c := mul_int (literal 1 10) (blue p) in
  Ok (fadd (fadd a b) c).

Definition mono_pixel (sepia : bool) : M RGB unit :=
  let! p := get in
  let! brightness := lift (brightness p) in
  if sepia then
    let! r := lift (int_of_float brightness) in
    do! set_red r in
    let! g := lift (int_of_float (fmul (literal 6 10) brightness)) in
    do! set_green g in
    let! b := lift (int_of_float (fmul (literal 4 10) brightness)) in
    set_blue b
  else
    let! gray := lift (int_of_float brightness) in
    do! set_red gray in
    do! set_green gray in
    set_blue gray.

Definition mono (sepia : bool) : M buffer bool :=
  do! for_pixels (mono_pixel sepia) in
  ret true.

(** [image.reverse()] when [vertical], else [row.reverse()] for each row. *)
Definition flip (vertical : bool) : M buffer bool :=
  if vertical then
    do! list_reverse in
    ret true
  else
    do! for_items list_reverse in
    ret true.

(** [image[r][c]] as an expression. *)
Definition pixel_at (image : buffer) (r c : Z) : result RGB :=
  let? row := getitem image r in
  getitem row c.

Definition transpose : M buffer bool :=
  let! image := get in
  match image with
  | [] => ret true
  | [] :: _ => ret true
  | first :: _ =>
      let rows := len image in
      let cols := len first in
      let! transposed :=
        lift (comprehension
                (fun c => comprehension (fun r => pixel_at image r c) (range 0 rows))
                (range 0 cols)) in
      do! put transposed in
      ret true
  end.

Definition rotate (right : bool) : M buffer bool :=
  if right then
    do! flip true in
    do! transpose in
    ret true
  else
    do! transpose in
    do! flip true in
    ret true.

(** [pixel = image[r][c]] followed by statements on [pixel]: the statements
    run on the object stored at that position. *)
Definition with_pixel (r c : Z) (body : M RGB unit) : M buffer unit :=
  fun image =>
    match index_position (len image) r with
    | None => (Raise IndexError, image)
    | Some i =>
        match image !! i with
        | None => (Raise IndexError, image)
        | Some row =>
            match getitem row c, index_position (len row) c with
            | Ok pixel, Some j =>
                let '(res, pixel') := body pixel in
                (res, <[i := <[j := pixel']> row]> image)
            | Raise e, _ => (Raise e, image)
            | _, None => (Raise IndexError, image)
            end
        end
    end.

(** [image[r][c] = value] *)
Definition set_pixel (r c : Z) (value : RGB) : M buffer unit :=
  fun image =>
    match index_position (len image) r with
    | None => (Raise IndexError, image)
    | Some i =>
        match image !! i with
        | None => (Raise IndexError, image)
        | Some row =>
            match setitem c value row with
            | (Raise e, _) => (Raise e, image)
            | (Ok _, row') => (Ok tt, <[i := row']> image)
            end
        end
    end.

(** [height = len(image)] and [width = len(image[0])] *)
Definition dimensions : M buffer (Z * Z) :=
  let! image := get in
  let! first := lift (getitem image 0) in
  ret (len image, len first).

(** [round(channel * factor)] for an int channel and a float factor. *)
Definition scale_channel (channel : Z) (factor : float) : result Z :=
  let? x := float_of_int channel in
  round (fmul x factor).

Definition vignette_factor (center_row center_col : Z) (H : float) (r c : Z)
  : result float :=
  let? d := math_sqrt ((r - center_row) ^ 2 + (c - center_col) ^ 2) in
  let? q := float_truediv d H in
  let? q2 := float_square q in
  let? one := float_of_int 1 in
  Ok (fsub one q2).

Definition vignette_pixel (factor : float) : M RGB unit :=
  let! p := get in
  let! v := lift (scale_channel (red p) factor) in
  do! set_red v in
  let! v := lift (scale_channel (green p) factor) in
  do! set_green v in
  let! v := lift (scale_channel (blue p) factor) in
  set_blue v.

Definition vignette : M buffer bool :=
  let! dims := dimensions in
  let '(height, width) := dims in
  let center_row := height / 2 in
  let center_col := width / 2 in
  let! H := lift (math_sqrt (center_row ^ 2 + center_col ^ 2)) in
  do! for_each (range 0 height) (fun r =>
        for_each (range 0 width) (fun c =>
          let! factor := lift (vignette_factor center_row center_col H r c) in
          with_pixel r c (vignette_pixel factor))) in
  ret true.

(** The five accumulators of the averaging loops. *)
Record totals := mkTotals {
  total_red : Z; total_green : Z; total_blue : Z; total_alpha : Z; count : Z }.

Definition add_pixel (p : RGB) : M totals unit :=
  fun t => (Ok tt, mkTotals (total_red t + red p) (total_green t + green p)
                            (total_blue t + blue p) (total_alpha t + alpha p)
                            (count t + 1)).

(** [for i in rows: for j in cols: p = source[i][j]; total_... += ...] *)
Definition accumulate (source : buffer) (rows cols : list Z) : M totals unit :=
  for_each rows (fun i =>
    for_each cols (fun j =>
      let! p := lift (pixel_at source i j) in
      add_pixel p)).

(** [RGB(round(total_red / count), ..., round(total_alpha / count))] *)
Definition average (t : totals) : result RGB :=
  let? r := (let? x := int_truediv (total_red t) (count t) in round x) in
  let? g := (let? x := int_truediv (total_green t) (count t) in round x) in
  let? b := (let? x := int_truediv (total_blue t) (count t) in round x) in
  let? a := (let? x := int_truediv (total_alpha t) (count t) in round x) in
  Ok (mkRGB r g b a).

(** The accumulation loops followed by the construction of the average. *)
Definition block_average (source : buffer) (rows cols : list Z) : result RGB :=
  match accumulate source rows cols (mkTotals 0 0 0 0 0) with
  | (Ok _, t) => average t
  | (Raise e, _) => Raise e
  end.

(** [[[RGB(p.red, p.green, p.blue, p.alpha) for p in row] for row in image]] *)
Definition copy_image (image : buffer) : buffer :=
  map (map (fun p => mkRGB (red p) (green p) (blue p) (alpha p))) image.

Definition blur (radius : Z) : M buffer bool :=
  let! dims := dimensions in
  let '(height, width) := dims in
  let! image := get in
  let original := copy_image image in
  do! for_each (range 0 height) (fun r =>
        for_each (range 0 width) (fun c =>
          let row_min := Z.max 0 (r - radius) in
          let row_max := Z.min (height - 1) (r + radius) in
          let col_min := Z.max 0 (c - radius) in
          let col_max := Z.min (width - 1) (c + radius) in
          let! avg := lift (block_average original
                              (range row_min (row_max + 1))
                              (range col_min (col_max + 1))) in
          set_pixel r c avg)) in
  ret true.

Definition pixellate (step : Z) : M buffer bool :=
  let! dims := dimensions in
  let '(height, width) := dims in
  let! block_rows := lift (range_step 0 height step) in
  do! for_each block_rows (fun row =>
        let! block_cols := lift (range_step 0 width step) in
        for_each block_cols (fun col =>
          let row_max := Z.min (row + step) height in
          let col_max := Z.min (col + step) width in
          let! image := get in
          let! avg_pixel := lift (block_average image (range row row_max)
                                                (range col col_max)) in
          for_each (range row row_max) (fun r =>
            for_each (range col col_max) (fun c =>
              set_pixel r c avg_pixel)))) in
  ret true.

Definition brighten_pixel (factor : float) : M RGB unit :=
  let! p := get in
  let! v := lift (scale_channel (red p) factor) in
  do! set_red (Z.min v 255) in
  let! v := lift (scale_channel (green p) factor) in
  do! set_green (Z.min v 255) in
  let! v := lift (scale_channel (blue p) factor) in
  set_blue (Z.min v 255).

Definition brighten (factor : float) : M buffer bool :=
  do! for_pixels (brighten_pixel factor) in
  ret true.

(** [scramble] draws from the module [random]. The generator is a state
    [G] with one operation [draw] returning a natural number and the next
    state; [random.randint(a, b)] maps a draw into [a..b], so that every
    sequence of values in range arises from some generator. *)
Section Random.

Variable G : Type.
Variable draw : G -> N * G.

Definition randint (a b : Z) : M G Z :=
  fun g => if b <? a then (Raise ValueError, g)
           else let '(n, g') := draw g in
                (Ok (a + Z.of_N n mod (b - a + 1)), g').

(** Statements on the image, and draws, inside the combined state. *)
Definition on_image {A} (m : M buffer A) : M (buffer * G) A :=
  fun s => let '(res, image') := m (fst s) in (res, (image', snd s)).
Definition on_random {A} (m : M G A) : M (buffer * G) A :=
  fun s => let '(res, g') := m (snd s) in (res, (fst s, g')).

Definition scramble (amount : Z) : M (buffer * G) bool :=
  let! dims := on_image dimensions in
  let '(height, width) := dims in
  do! for_each (range 0 amount) (fun _ =>
        let! r := on_random (randint 0 (height - 1)) in
        let! c := on_random (randint 0 (width - 1)) in
        let! image := on_image get in
        let! pixel := lift (pixel_at image r c) in
        let! new_red := on_random (randint 0 255) in
        let! new_green := on_random (randint 0 255) in
        let! new_blue := on_random (randint 0 255) in
        on_image (set_pixel r c (mkRGB new_red new_green new_blue (alpha pixel)))) in
  ret true.

End Random.

(* ===================================================================== *)
(** * Strings and option values                                           *)
(* ===================================================================== *)

(** A Python [str] is modelled by a Rocq [string] of ASCII characters; the
    character classes below are those of Python on the ASCII range. *)

Definition chars (s : string) : list ascii := list_ascii_of_string s.
Definition text (l : list ascii) : string := string_of_list_ascii l.

Definition is_digit (c : ascii) : bool :=
  let n := nat_of_ascii c in (48 <=? n)%nat && (n <=? 57)%nat.

(** The characters [float] strips from both ends of its argument. *)
Definition is_space (c : ascii) : bool :=
  let n := nat_of_ascii c in
  ((9 <=? n)%nat && (n <=? 13)%nat) || ((28 <=? n)%nat && (n <=? 32)%nat).

Definition to_lower (c : ascii) : ascii :=
  let n := nat_of_ascii c in
  if (65 <=? n)%nat && (n <=? 90)%nat then ascii_of_nat (n + 32) else c.

(** [s.isdigit()]: at least one character, and only digits. *)
Definition isdigit (s : string) : bool :=
  match chars s with
  | [] => false
  | l => forallb is_digit l
  end.

Definition digit_value (c : ascii) : Z := Z.of_nat (nat_of_ascii c) - 48.

(** The number a sequence of decimal digits denotes. *)
Definition digits_value (l : list ascii) : Z :=
  fold_left (fun acc c => 10 * acc + digit_value c) l 0.

(** [int(s)] for a string that [isdigit] accepts. *)
Definition int_of_string (s : string) : Z := digits_value (chars s).

(** [c in s] for a character [c]. *)
Definition contains (c : ascii) (s : string) : bool :=
  existsb (Ascii.eqb c) (chars s).

(** [s.find(c)]: the first position of [c], or [-1]. *)
Fixpoint find_from (c : ascii) (l : list ascii) (i : Z) : Z :=
  match l with
  | [] => -1
  | x :: l' => if Ascii.eqb c x then i else find_from c l' (i + 1)
  end.
Definition find (c : ascii) (s : string) : Z := find_from c (chars s) 0.

(** [s[lo:hi]] and [s[lo:]] for [0 <= lo] and [0 <= hi]. *)
Definition slice (s : string) (lo hi : Z) : string :=
  text (take (Z.to_nat (hi - lo)) (drop (Z.to_nat lo) (chars s))).
Definition slice_from (s : string) (lo : Z) : string :=
  text (drop (Z.to_nat lo) (chars s)).

(** [s.startswith(p)] *)
Definition startswith (p s : string) : bool := String.prefix p s.

(** ** [float(s)] for a string *)

(** The longest prefix of digits, and what follows it. *)
Fixpoint span_digits (l : list ascii) : list ascii * list ascii :=
  match l with
  | c :: l' => if is_digit c
               then let '(ds, rest) := span_digits l' in (c :: ds, rest)
               else ([], l)
  | [] => ([], [])
  end.

Fixpoint strip_left (l : list ascii) : list ascii :=
  match l with
  | c :: l' => if is_space c then strip_left l' else l
  | [] => []
  end.
Definition strip (l : list ascii) : list ascii :=
  reverse (strip_left (reverse (strip_left l))).

(** An underscore is accepted between two digits and dropped; [prev] tells
    whether the previous character was a digit. *)
Fixpoint drop_underscores (prev : bool) (l : list ascii) : option (list ascii) :=
  match l with
  | [] => Some []
  | c :: l' =>
      if Ascii.eqb c "_"%char then
        match l' with
        | d :: _ => if prev && is_digit d then drop_underscores false l' else None
        | [] => None
        end
      else option_map (cons c) (drop_underscores (is_digit c) l')
  end.

(** The binary64 value nearest to [m * 10^k]; out of range is an infinity,
    as in [float('1e999')]. *)
Definition decimal_value (m k : Z) : float :=
  if 0 <=? k then round_quotient (m * 10 ^ k) 1
  else round_quotient m (10 ^ (- k)).

(** The exponent part: nothing, or [e] or [E], an optional sign and at
    least one digit. *)
Definition parse_exponent (l : list ascii) : option Z :=
  match l with
  | [] => Some 0
  | c :: l' =>
      if Ascii.eqb (to_lower c) "e"%char then
        let '(negative, l'') :=
          match l' with
          | "-"%char :: r => (true, r)
          | "+"%char :: r => (false, r)
          | _ => (false, l')
          end in
        match span_digits l'' with
        | ([], _) => None
        | (ds, []) =>
            Some (if negative : bool then - digits_value ds else digits_value ds)
        | _ => None
        end
      else None
  end.

(** Digits, an optional point and digits, an optional exponent; at least
    one digit before the exponent. *)
Definition parse_decimal (l : list ascii) : option float :=
  let '(ip, r1) := span_digits l in
  let '(fp, r2) := match r1 with
                   | "."%char :: r => span_digits r
                   | _ => ([], r1)
                   end in
  match ip ++ fp with
  | [] => None
  | ds => match parse_exponent r2 with
          | Some e => Some (decimal_value (digits_value ds) (e - len fp))
          | None => None
          end
  end.

Definition parse_unsigned (l : list ascii) : option float :=
  let word := text (map to_lower l) in
  if String.eqb word "inf" || String.eqb word "infinity" then
    Some (S754_infinity false)
  else if String.eqb word "nan" then Some S754_nan
  else parse_decimal l.

Definition parse_signed (l : list ascii) : option float :=
  match l with
  | "-"%char :: r => option_map (SFopp) (parse_unsigned r)
  | "+"%char :: r => parse_unsigned r
  | _ => parse_unsigned l
  end.

(** [float(s)]; [None] is [ValueError]. *)
Definition float_of_string (s : string) : option float :=
  match drop_underscores false (strip (chars s)) with
  | Some l => parse_signed l
  | None => None
  end.

(** ** Option values and the options dictionary *)

Inductive pyval :=
  | VBool (b : bool)
  | VInt (n : Z)
  | VFloat (x : float)
  | VStr (s : string).

(** A [dict] with string keys: the items in insertion order. *)
Definition dict := list (string * pyval).

(** [d[key] = value]: replaces the value of a present key where it is,
    appends a new key. *)
Fixpoint dict_set (d : dict) (key : string) (value : pyval) : dict :=
  match d with
  | [] => [(key, value)]
  | (k, v) :: d' => if String.eqb k key then (k, value) :: d'
                    else (k, v) :: dict_set d' key value
  end.


(** [for key in d] *)
Definition keys (d : dict) : list string := map fst d.

(* ===================================================================== *)
(** * pictool1.py                                                         *)
(* ===================================================================== *)

Local Open Scope string_scope.

(** ** The module [plugins2] as [hasattr] and [getattr] see it *)

(** A function object: what [lookup_command] reads of it. *)
Record function := mkFunction {
  fn_name : string;
  co_varnames : list string;     (* arguments first, then the other locals *)
  co_argcount : nat;
  fn_defaults : option (list pyval)   (* [__defaults__]: [None] or a tuple *)
}.

(** An attribute of the module: a function, or an object that has no
    [__code__] (the class [RGB], the modules [math] and [random], and what
    the interpreter itself provides, such as [__name__]). *)
Inductive attribute :=
  | Function (f : function)
  | Object.

Definition fn_display : function :=
  mkFunction "display"
    ["image"; "height"; "width"; "maxsize"; "r"; "row"; "c"; "pixel";
     "middle"; "padding"; "prefix"; "suffix"] 1 None.
Definition fn_dered : function :=
  mkFunction "dered" ["image"; "row"; "pixel"] 1 None.
Definition fn_mono : function :=
  mkFunction "mono" ["image"; "sepia"; "row"; "pixel"; "brightness"; "gray"]
    2 (Some [VBool false]).
Definition fn_flip : function :=
  mkFunction "flip" ["image"; "vertical"; "row"] 2 (Some [VBool false]).
Definition fn_transpose : function :=
  mkFunction "transpose" ["image"; "rows"; "cols"; "transposed"] 1 None.
Definition fn_rotate : function :=
  mkFunction "rotate" ["image"; "right"] 2 (Some [VBool false]).
Definition fn_vignette : function :=
  mkFunction "vignette"
    ["image"; "height"; "width"; "center_row"; "center_col"; "H"; "r"; "c";
     "d"; "factor"; "pixel"] 1 None.
Definition fn_blur : function :=
  mkFunction "blur"
    ["image"; "radius"; "height"; "width"; "original"; "r"; "c"; "row_min";
     "row_max"; "col_min"; "col_max"; "total_red"; "total_green";
     "total_blue"; "total_alpha"; "count"; "i"; "j"; "p"] 2 (Some [VInt 5]).
Definition fn_pixellate : function :=
  mkFunction "pixellate"
    ["image"; "step"; "height"; "width"; "row"; "col"; "row_max"; "col_max";
     "total_red"; "total_green"; "total_blue"; "total_alpha"; "count"; "r";
     "c"; "p"; "avg_pixel"] 2 (Some [VInt 10]).
Definition fn_scramble : function :=
  mkFunction "scramble"
    ["image"; "amount"; "height"; "width"; "_"; "r"; "c"; "pixel"]
    2 (Some [VInt 500]).
Definition fn_brighten : function :=
  mkFunction "brighten" ["image"; "factor"; "row"; "pixel"]
    2 (Some [VFloat (literal 125 100)]).

(** The functions the module defines, in the order of the source. *)
Definition plugins2_functions : list function :=
  [fn_display; fn_dered; fn_mono; fn_flip; fn_transpose; fn_rotate;
   fn_vignette; fn_blur; fn_pixellate; fn_scramble; fn_brighten].

(** The attributes of the module: the three imported names, the functions,
    and the names [implicit] that the interpreter gives every module
    ([__name__], [__doc__], [__dict__], ...), none of which is a function.
    A name the module defines shadows an implicit one. *)
Definition plugins2 (implicit : list string) : list (string * attribute) :=
  ([("RGB", Object); ("math", Object); ("random", Object)]
   ++ map (fun f => (fn_name f, Function f)) plugins2_functions
   ++ map (fun n => (n, Object)) implicit)%list.

(** [getattr(module, name)]; [None] when [hasattr] is false. *)
Fixpoint getattr (module : list (string * attribute)) (name : string)
  : option attribute :=
  match module with
  | [] => None
  | (n, a) :: module' => if String.eqb n name then Some a
                         else getattr module' name
  end.

(** ** [repr] of a string *)

Definition hex_digit (n : nat) : ascii :=
  ascii_of_nat (if (n <? 10)%nat then 48 + n else 87 + n).

Definition repr_char (quote c : ascii) : list ascii :=
  let n := nat_of_ascii c in
  if Ascii.eqb c quote then ["\"%char; c]
  else if Ascii.eqb c "\"%char then ["\"%char; "\"%char]
  else if (n =? 9)%nat then ["\"%char; "t"%char]
  else if (n =? 10)%nat then ["\"%char; "n"%char]
  else if (n =? 13)%nat then ["\"%char; "r"%char]
  else if (n <? 32)%nat || (n =? 127)%nat then
    ["\"%char; "x"%char; hex_digit (n / 16); hex_digit (n mod 16)]
  else [c].

Definition double_quote : ascii := ascii_of_nat 34.

(** Single quotes, unless the string has a single quote and no double
    quote. *)
Definition repr (s : string) : string :=
  let quote :=
    if contains "'"%char s && negb (contains double_quote s)
    then double_quote else "'"%char in
  text ([quote] ++ concat (map (repr_char quote) (chars s)) ++ [quote])%list.

(** [sep.join(l)] *)
Fixpoint join (sep : string) (l : list string) : string :=
  match l with
  | [] => EmptyString
  | [x] => x
  | x :: l' => x ++ sep ++ join sep l'
  end.

(** ** [extract_options] *)

(** The value of one [--key=value] token, as the [if]/[elif]/[else] chain
    of the loop computes it. *)
Definition coerce (value : string) : pyval :=
  if String.eqb value "True" then VBool true
  else if String.eqb value "False" then VBool false
  else if isdigit value then VInt (int_of_string value)
  else match float_of_string value with
       | Some x => VFloat x
       | None => VStr value
       end.

Definition is_option (item : string) : bool :=
  startswith "--" item && contains "="%char item.

(** The [while] loop. [kept] is [args[:pos]] and [rest] is [args[pos:]]:
    an option token is deleted from the front of [rest] ([del args[pos]]),
    any other token moves to the end of [kept] ([pos += 1]); the loop ends
    when [rest] is empty ([pos >= len(args)]). *)
Fixpoint extract_loop (kept rest : list string) (options : dict)
  : list string * dict :=
  match rest with
  | [] => (kept, options)
  | item :: rest' =>
      if is_option item then
        let split := find "="%char item in
        let value := coerce (slice_from item (split + 1)) in
        extract_loop kept rest' (dict_set options (slice item 2 split) value)
      else
        extract_loop (kept ++ [item])%list rest' options
  end.

(** [extract_options(args)] starts at [pos = 1]; it returns the options and
    leaves [args] without the option tokens. *)
Definition extract_options : M (list string) dict :=
  fun args =>
    let '(args', options) := extract_loop (take 1 args) (drop 1 args) [] in
    (Ok options, args').

(** ** [lookup_command] *)

Definition unrecognized_command (command : string) : string :=
  "error: unrecognized command " ++ repr command.

Definition malformed_plugin (command : string) : string :=
  "error: plugin " ++ repr command
  ++ " does not have default values after first parameter".

Definition unrecognized_options (command : string) (badargs : list string)
  : string :=
  "error: plugin " ++ repr command
  ++ " does not recognize the following options: "
  ++ join ", " (map (fun x => "--" ++ x) badargs).

Definition member (key : string) (l : list string) : bool :=
  existsb (String.eqb key) l.

(** The function, or the error message. Reading [__code__] of an attribute
    that is not a function raises [AttributeError]. *)
Definition lookup_command (module : list (string * attribute))
    (command : string) (options : dict) : result (function + string) :=
  match getattr module command with
  | None => Ok (inr (unrecognized_command command))
  | Some Object => Raise AttributeError
  | Some (Function function) =>
      let param := take (co_argcount function) (co_varnames function) in
      let dsize := match fn_defaults function with
                   | None => 0%nat
                   | Some d => length d
                   end in
      if negb (length param =? dsize + 1)%nat then
        Ok (inr (malformed_plugin command))
      else
        let badargs := filter (fun key => negb (member key param)) (keys options) in
        match badargs with
        | [] => Ok (inl function)
        | _ => Ok (inr (unrecognized_options command badargs))
        end
  end.

(** ** [parse_args] *)

(** The dictionary [result]: a key that is absent is [None]. *)
Record parsed := mkParsed {
  p_error : option string;
  p_command : option function;
  p_options : option dict;
  p_input : option string;
  p_output : option string
}.

Definition usage : string :=
  "usage: python3 pictool.py command [options] input [output]".

Definition parse_args (module : list (string * attribute))
  : M (list string) parsed :=
  let! options := extract_options in
  let! args := get in
  if negb ((length args =? 3)%nat || (length args =? 4)%nat) then
    ret (mkParsed (Some usage) None None None None)
  else
    let! name := lift (getitem args 1) in
    let! command := lift (lookup_command module name options) in
    let! input := lift (getitem args 2) in
    let output := if (length args =? 4)%nat then args !! 3%nat else None in
    match command with
    | inr message => ret (mkParsed (Some message) None None (Some input) output)
    | inl f => ret (mkParsed None (Some f) (Some options) (Some input) output)
    end.

Local Close Scope string_scope.

(** ** [verify_image] *)

(** The Python objects [verify_image] can meet. *)
#[warnings="-register-all"]
Inductive pyobj :=
  | PRGB (p : RGB)
  | PList (l : list pyobj)
  | PNone
  | PInt (n : Z).

(** [len(x)]; an object without a length is a [TypeError]. *)
Definition pylen (x : pyobj) : result Z :=
  match x with
  | PList l => Ok (len l)
  | _ => Raise TypeError
  end.

Definition is_rgb (x : pyobj) : bool :=
  match x with PRGB _ => true | _ => false end.

(** The loop over the rows: the first row of the wrong length, or the first
    item that is not an [RGB], returns [False]. *)
Fixpoint verify_rows (width : Z) (rows : list pyobj) : result bool :=
  match rows with
  | [] => Ok true
  | row :: rows' =>
      let? n := pylen row in
      if negb (n =? width) then Ok false
      else match row with
           | PList items =>
               if forallb is_rgb items then verify_rows width rows'
               else Ok false
           | _ => Raise TypeError
           end
  end.

Definition verify_image (buffer : pyobj) : result bool :=
  match buffer with
  | PList rows =>
      match rows with
      | [] => Ok false
      | first :: _ =>
          match first with
          | PList items =>
              if len items =? 0 then Ok false
              else verify_rows (len items) rows
          | _ => Ok false
          end
      end
  | _ => Ok false
  end.

(** A buffer of the transforms as a Python object. *)
Definition as_object (image : buffer) : pyobj :=
  PList (map (fun row => PList (map PRGB row)) image).

(** ** [main] *)

(** What [main] does to the outside: it prints a message, reads the input
    file, calls the transform, saves the output file. *)
Inductive event :=
  | Print (message : string)
  | ReadImage (file : string)
  | Call (f : function) (options : dict)
  | SaveImage (file : string).

Section Main.

(** The attributes of [plugins2]; the decoder behind [read_image] ([None]
    when the file cannot be loaded); the call of a function of the module
    on the buffer with the options as keyword arguments. *)
Variable module : list (string * attribute).
Variable read_image : string -> option buffer.
Variable call : function -> dict -> M buffer bool.

(** The events of one run, in order, and how the run ends; [save_image]
    first asserts [verify_image], a failure being raised as any other
    exception. *)
Definition main (argv : list string) : result unit * list event :=
  match parse_args module argv with
  | (Raise e, _) => (Raise e, [])
  | (Ok args, _) =>
      match p_error args, p_command args, p_options args, p_input args with
      | Some message, _, _, _ => (Ok tt, [Print message])
      | None, Some command, Some options, Some input =>
          match read_image input with
          | None => (Ok tt, [ReadImage input])
          | Some buffer =>
              match call command options buffer with
              | (Raise e, _) => (Raise e, [ReadImage input; Call command options])
              | (Ok process, buffer') =>
                  match p_output args with
                  | Some output =>
                      if process then
                        match verify_image (as_object buffer') with
                        | Ok true =>
                            (Ok tt, [ReadImage input; Call command options;
                                     SaveImage output])
                        | Ok false =>
                            (Raise AssertionError,
                             [ReadImage input; Call command options])
                        | Raise e =>
                            (Raise e, [ReadImage input; Call command options])
                        end
                      else (Ok tt, [ReadImage input; Call command options])
                  | None => (Ok tt, [ReadImage input; Call command options])
                  end
              end
          end
      | _, _, _, _ => (Raise KeyError, [])
      end
  end.

End Main.

(** ** [read_image] and [save_image] *)

(** What PIL holds of an image: its size and, in mode [RGBA], its pixel
    data as 4-tuples, row by row.  [read_image] gets one from
    [CoreImage.open(file).convert("RGBA")]; [save_image] hands one to
    [CoreImage.new], [putdata] and [save]. *)
Record picture := mkPicture {
  pic_width : Z;
  pic_height : Z;
  pic_data : list (Z * Z * Z * Z)
}.

Definition PROGRESS : Z := 10.

(** The pixel that [RGB] builds from a 4-tuple, and [pixel.rgba()]. *)
Definition rgb_of_tuple (t : Z * Z * Z * Z) : RGB :=
  let '(r, g, b, a) := t in mkRGB r g b a.
Definition rgba (p : RGB) : Z * Z * Z * Z := (red p, green p, blue p, alpha p).

(** The iterator over the pixel data, and the text printed so far (one
    element per call of [print]). *)
Record reader := mkReader {
  source : list (Z * Z * Z * Z);
  printed : list string
}.

(** The inner loop of [read_image]: [tups = next(source)], the pixel is
    appended to the row, and a dot is printed at every [block]-th pixel.
    [None] is the [StopIteration] of an exhausted iterator. *)
Fixpoint read_row (r width block : Z) (cols : list Z) (s : reader)
  : option (list RGB) * reader :=
  match cols with
  | [] => (Some [], s)
  | c :: cols' =>
      match source s with
      | [] => (None, s)
      | tups :: rest =>
          let s' := mkReader rest
                      (if (r * width + c) mod block =? 0
                       then printed s ++ ["."%string] else printed s) in
          match read_row r width block cols' s' with
          | (Some row, s'') => (Some (rgb_of_tuple tups :: row), s'')
          | (None, s'') => (None, s'')
          end
      end
  end.

(** The outer loop: one row per element of [range(height)]. *)
Fixpoint read_rows (width block : Z) (rows : list Z) (s : reader)
  : option buffer * reader :=
  match rows with
  | [] => (Some [], s)
  | r :: rows' =>
      match read_row r width block (range 0 width) s with
      | (None, s') => (None, s')
      | (Some row, s') =>
          match read_rows width block rows' s' with
          | (Some buffer, s'') => (Some (row :: buffer), s'')
          | (None, s'') => (None, s'')
          end
      end
  end.

(** [read_image(file)]: the buffer, or [None] when anything was raised
    (the [except] clause catches every exception), and the text printed to
    the standard output.  [open_image] is PIL: [None] when the file cannot
    be opened or converted. *)
Definition read_image (open_image : string -> option picture) (file : string)
  : option buffer * list string :=
  match open_image file with
  | None => (None, ["Could not load the file " ++ repr file])%string
  | Some image =>
      let width := pic_width image in
      let height := pic_height image in
      let size := width * height in
      let block := Z.max (size / PROGRESS) 1 in
      let s := mkReader (pic_data image) ["Loading " ++ repr file]%string in
      match read_rows width block (range 0 height) s with
      | (Some buffer, s') => (Some buffer, printed s' ++ ["done"%string])
      | (None, s') =>
          (None, printed s' ++ ["Could not load the file " ++ repr file]%string)
      end
  end.

(** The list [output] and the text printed so far. *)
Record writer := mkWriter {
  output : list (Z * Z * Z * Z);
  shown : list string
}.

(** The loops of [save_image]. *)
Definition save_loops (buffer : buffer) (height width block : Z)
  : M writer unit :=
  for_each (range 0 height) (fun r =>
    for_each (range 0 width) (fun c =>
      let! pixel := lift (pixel_at buffer r c) in
      fun s => (Ok tt,
                mkWriter (output s ++ [rgba pixel])
                         (if (r * width + c) mod block =? 0
                          then shown s ++ ["."%string] else shown s)))).

(** [save_image(buffer, file)]: the assertion is outside the [try]; inside
    it, an exception is caught and reported.  The result is the picture
    handed to PIL ([None] when an exception was caught) and the text
    printed. *)
Definition save_image (buffer : buffer) (file : string)
  : result (option picture) * list string :=
  match verify_image (as_object buffer) with
  | Raise e => (Raise e, [])
  | Ok false => (Raise AssertionError, [])
  | Ok true =>
      match dimensions buffer with
      | (Raise _, _) =>
          (Ok None, ["Could not save the file " ++ repr file]%string)
      | (Ok (height, width), _) =>
          let size := width * height in
          let block := Z.max (size / PROGRESS) 1 in
          match save_loops buffer height width block
                  (mkWriter [] ["Saving " ++ repr file]%string) with
          | (Ok _, s) =>
              (Ok (Some (mkPicture width height (output s))),
               shown s ++ ["done"%string])
          | (Raise _, s) =>
              (Ok None,
               shown s ++ ["Could not save the file " ++ repr file]%string)
          end
      end
  end.

(* ===================================================================== *)
(** * Vocabulary of the properties                                      *)
(* ===================================================================== *)

(** [h] rows of [w] pixels each. *)
Definition rectangular (h w : nat) (image : buffer) : Prop :=
  length image = h /\ Forall (fun row => length row = w) image.

(** The pixel at row [i], column [j], when there is one. *)
Definition pixel_lookup (image : buffer) (i j : nat) : option RGB :=
  image !! i ≫= (fun row => row !! j).

(** A float of binary size at most [K]: zero, or finite with
    [digits m + e <= K], that is, of magnitude below [2^K]. *)
Definition mag_le (K : Z) (x : float) : Prop :=
  match x with
  | S754_zero _ => True
  | S754_finite _ m e => Zpos (digits2_pos m) + e <= K
  | _ => False
  end.

(** The sign bit of a float that is not a NaN. *)
Definition has_sign (s : bool) (x : float) : Prop :=
  match x with
  | S754_zero s' | S754_finite s' _ _ | S754_infinity s' => s' = s
  | S754_nan => False
  end.

(** The three colour channels have at most [K] binary digits; [K = 8] is
    the range 0..255 of a decoded image (and its negatives). *)
Definition small_pixel (K : Z) (p : RGB) : Prop :=
  Zdigits2 (red p) <= K /\ Zdigits2 (green p) <= K /\ Zdigits2 (blue p) <= K.

(** Every channel, alpha included, is in 0..255. *)
Definition valid_pixel (p : RGB) : Prop :=
  0 <= red p <= 255 /\ 0 <= green p <= 255
  /\ 0 <= blue p <= 255 /\ 0 <= alpha p <= 255.

(** The value the source calls [gray]: [int(brightness)]. *)
Definition gray (p : RGB) : Z :=
  match (let? b := brightness p in int_of_float b) with
  | Ok g => g
  | Raise _ => 0
  end.

Definition gray_pixel (p : RGB) : RGB :=
  mkRGB (gray p) (gray p) (gray p) (alpha p).

(** The buffer with [f] applied to every pixel. *)
Definition map_pixels (f : RGB -> RGB) (image : buffer) : buffer :=
  fmap (M := list) (fmap (M := list) f) image.

(** A gray level that [mono] maps to itself. *)
Definition gray_stable (g : Z) : bool := gray (mkRGB g g g 255) =? g.

(** The gray levels of 0..255 that [mono] does not map to themselves. *)
Definition unstable_grays : list Z :=
  [1; 2; 4; 8; 11; 16; 22; 27; 32; 39; 44; 49; 54; 59; 64; 73; 78; 83; 88;
   93; 98; 103; 108; 113; 118; 123; 128; 146; 151; 156; 161; 166; 171; 176;
   181; 186; 191; 196; 201; 206; 211; 216; 221; 226; 231; 236; 241; 246; 251].

(** The keys that [lookup_command] rejects: those that are not among the
    parameters, the buffer parameter included. *)
Definition rejected_keys (f : function) (options : dict) : list string :=
  filter (fun key => negb (member key (take (co_argcount f) (co_varnames f))))
         (keys options).

(** [preserves I m]: if [I] holds of the state before [m], it holds of the
    state after [m], whether [m] returns or raises. *)
Definition preserves {S A} (I : S -> Prop) (m : M S A) : Prop :=
  forall s, I s -> I (snd (m s)).

(** What [save_image] asserts of a buffer of [h] rows and [w] columns. *)
Definition verified (h w : nat) (image : buffer) : Prop :=
  rectangular h w image /\ verify_image (as_object image) = Ok true.

(** The sum of [f] over a list. *)
Fixpoint Zsum {A} (f : A -> Z) (l : list A) : Z :=
  match l with
  | [] => 0
  | x :: l' => f x + Zsum f l'
  end.

(** The pixel at [(i, j)], black outside the buffer. *)
Definition pixel_or_black (image : buffer) (i j : Z) : RGB :=
  default (mkRGB 0 0 0 0) (pixel_lookup image (Z.to_nat i) (Z.to_nat j)).

(** The square of side [2 * radius + 1] centred at [(r, c)]. *)
Definition in_window (radius r c i j : Z) : bool :=
  (Z.abs (i - r) <=? radius) && (Z.abs (j - c) <=? radius).

(** The sum of a channel, and the number of pixels, over the positions of
    an [h] by [w] buffer that lie in the window. *)
Definition window_sum (ch : RGB -> Z) (h w : Z) (image : buffer)
    (radius r c : Z) : Z :=
  Zsum (fun i =>
    Zsum (fun j => if in_window radius r c i j
                   then ch (pixel_or_black image i j) else 0)
         (range 0 w))
    (range 0 h).

Definition window_count (h w radius r c : Z) : Z :=
  Zsum (fun i =>
    Zsum (fun j => if in_window radius r c i j then 1 else 0) (range 0 w))
    (range 0 h).

(** [round(total / count)] *)
Definition rounded_mean (total n : Z) : result Z :=
  let? x := int_truediv total n in round x.

(** The box average of the claim: every channel averaged over the window
    and rounded on its own. *)
Definition box_average (h w : Z) (image : buffer) (radius r c : Z)
  : result RGB :=
  let n := window_count h w radius r c in
  let? vr := rounded_mean (window_sum red h w image radius r c) n in
  let? vg := rounded_mean (window_sum green h w image radius r c) n in
  let? vb := rounded_mean (window_sum blue h w image radius r c) n in
  let? va := rounded_mean (window_sum alpha h w image radius r c) n in
  Ok (mkRGB vr vg vb va).

(** The box average as a pixel (black where it is undefined). *)
Definition box_pixel (h w : Z) (image : buffer) (radius r c : Z) : RGB :=
  match box_average h w image radius r c with
  | Ok p => p
  | Raise _ => mkRGB 0 0 0 0
  end.

(** The float [1.0]. *)
Definition one : float := S754_finite false 4503599627370496 (-52).

(** The float of mantissa [n] and exponent [e], for [2^52 <= n <= 2^53]:
    a mantissa of [2^53] is renormalised. *)
Definition canon (s : bool) (n e : Z) : float :=
  if n =? 2 ^ 53 then S754_finite s 4503599627370496 (e + 1)
  else S754_finite s (Z.to_pos n) e.

(** Below [2^K] in magnitude, with a mantissa of at most 53 bits. *)
Definition lt_pow2 (K : Z) (x : float) : Prop :=
  match x with
  | S754_zero _ => True
  | S754_finite _ m e => Zpos (digits2_pos m) + e <= K /\ e <= K - 53
  | _ => False
  end.

(** Between zero and one: a float of sign [+] below one, or one. *)
Definition unit_range (x : float) : Prop :=
  (lt_pow2 0 x /\ has_sign false x) \/ x = one.

(** The exponent and the mantissa of [math.sqrt(a)] for [1 <= a < 2^53]:
    the integer square root of [a] scaled to 53 bits, rounded to nearest. *)
Definition sqrt_exponent (a : Z) : Z := (Zdigits2 a + 1) / 2 - 53.

Definition sqrt_mantissa (a : Z) : Z :=
  let '(q, r) := Z.sqrtrem (a * 2 ^ (- 2 * sqrt_exponent a)) in
  if r <=? q then q else q + 1.

(** The vignette of a buffer of [h] rows and [w] columns: the distance [H]
    from the centre [(h / 2, w / 2)] to [(0, 0)], the factor
    [1 - (d / H) ** 2] at [(r, c)], and a pixel scaled by a factor. *)
Definition corner_distance (h w : Z) : result float :=
  math_sqrt ((h / 2) ^ 2 + (w / 2) ^ 2).

Definition factor_at (h w r c : Z) : result float :=
  let? H := corner_distance h w in
  vignette_factor (h / 2) (w / 2) H r c.

Definition darken (factor : float) (p : RGB) : result RGB :=
  let? r := scale_channel (red p) factor in
  let? g := scale_channel (green p) factor in
  let? b := scale_channel (blue p) factor in
  Ok (mkRGB r g b (alpha p)).

(** No colour channel is negative. *)
Definition nonneg_pixel (p : RGB) : Prop :=
  0 <= red p /\ 0 <= green p /\ 0 <= blue p.

(** [v] is an integer nearest to the exact quotient [total / n]: their
    distance is at most one half. *)
Definition nearest_integer (v total n : Z) : Prop :=
  Z.abs (2 * n * v - 2 * total) <= n.

(** A pixel with its red channel set to 0. *)
Definition without_red (p : RGB) : RGB := mkRGB 0 (green p) (blue p) (alpha p).

(** The buffer turned by 180 degrees: the rows in reverse order, each row
    reversed. *)
Definition half_turn (image : buffer) : buffer :=
  reverse (fmap (M := list) reverse image).

(** The key and the value of an option token [--key=value], and the
    arguments that are left when the option tokens are taken out of
    [argv[1:]]. *)
Definition option_key (item : string) : string :=
  slice item 2 (find "="%char item).
Definition option_value (item : string) : pyval :=
  coerce (slice_from item (find "="%char item + 1)).
Definition positional (argv : list string) : list string :=
  take 1 argv ++ filter (fun item => negb (is_option item)) (drop 1 argv).


(** The parameters of a function: the first [co_argcount] variable names. *)
Definition parameters (f : function) : list string :=
  take (co_argcount f) (co_varnames f).

(** What [brighten] makes of a pixel: every colour channel scaled and
    rounded, then limited to 255 from above. *)
Definition brightened (factor : float) (p : RGB) : result RGB :=
  let? r := scale_channel (red p) factor in
  let? g := scale_channel (green p) factor in
  let? b := scale_channel (blue p) factor in
  Ok (mkRGB (Z.min r 255) (Z.min g 255) (Z.min b 255) (alpha p)).

(** The three colour channels are at most 255; none is positive. *)
Definition capped_pixel (p : RGB) : Prop :=
  red p <= 255 /\ green p <= 255 /\ blue p <= 255.
Definition nonpos_pixel (p : RGB) : Prop :=
  red p <= 0 /\ green p <= 0 /\ blue p <= 0.

(** The pixels of a buffer as 4-tuples, row by row. *)
Definition pixel_data (image : buffer) : list (Z * Z * Z * Z) :=
  concat (fmap (M := list) (fmap (M := list) rgba) image).

(** The sum of a channel over the rows [r0..r1-1] and the columns
    [c0..c1-1] of a buffer, and the average of the four channels there,
    each rounded on its own. *)
Definition region_sum (ch : RGB -> Z) (image : buffer) (r0 r1 c0 c1 : Z) : Z :=
  Zsum (fun i => Zsum (fun j => ch (pixel_or_black image i j)) (range c0 c1))
       (range r0 r1).

Definition region_average (image : buffer) (r0 r1 c0 c1 : Z) : result RGB :=
  let n := (r1 - r0) * (c1 - c0) in
  let? vr := rounded_mean (region_sum red image r0 r1 c0 c1) n in
  let? vg := rounded_mean (region_sum green image r0 r1 c0 c1) n in
  let? vb := rounded_mean (region_sum blue image r0 r1 c0 c1) n in
  let? va := rounded_mean (region_sum alpha image r0 r1 c0 c1) n in
  Ok (mkRGB vr vg vb va).

(** The block of [pixellate] that holds the index [i], among the blocks
    of [step] indices that start at 0 and end at [limit]: its first index
    and the index after its last. *)
Definition block_start (step i : Z) : Z := i / step * step.
Definition block_end (step limit i : Z) : Z :=
  Z.min (block_start step i + step) limit.

(** What [pixellate] stores at [(i, j)] of a buffer of [h] rows and [w]
    columns: the average of the block of [(i, j)]. *)
Definition pixellated (step h w : Z) (image : buffer) (i j : Z) : result RGB :=
  region_average image (block_start step i) (block_end step h i)
                       (block_start step j) (block_end step w j).

Definition pixellated_pixel (step h w : Z) (image : buffer) (i j : Z) : RGB :=
  match pixellated step h w image i j with
  | Ok p => p
  | Raise _ => mkRGB 0 0 0 0
  end.

(** A float that is a zero, or positive with an exponent of
    [-1074 .. K - 53] and a value of at most [B * 2^-1074]. *)
Definition below (K B : Z) (x : float) : Prop :=
  match x with
  | S754_zero _ => True
  | S754_finite s m e =>
      s = false /\ -1074 <= e <= K - 53 /\ Zpos m * 2 ^ (e + 1074) <= B
  | _ => False
  end.

(** The green and the blue of the sepia of [mono]:
    [int((n/d) * brightness)]. *)
Definition sepia_channel (n d : Z) (p : RGB) : Z :=
  match (let? b := brightness p in int_of_float (fmul (literal n d) b)) with
  | Ok v => v
  | Raise _ => 0
  end.

(** The pixel that [mono(sepia=True)] makes of a pixel. *)
Definition sepia_pixel (p : RGB) : RGB :=
  mkRGB (gray p) (sepia_channel 6 10 p) (sepia_channel 4 10 p) (alpha p).

(* ===================================================================== *)
(** * Properties                                                          *)
(* ===================================================================== *)

Example literal_0_3 : literal 3 10 = S754_finite false 5404319552844595 (-54).
Proof. vm_compute. reflexivity. Qed.

Example mono_spec_scenario :
  mono false [[mkRGB 100 200 50 255]] = (Ok true, [[mkRGB 155 155 155 255]])
  /\ mono true [[mkRGB 100 200 50 255]] = (Ok true, [[mkRGB 155 93 62 255]]).
Proof. vm_compute. split; reflexivity. Qed.

(** C6 (counterexample). The pixel (0,2,0,255) becomes gray 1 under
    [mono(sepia=False)], and gray 1 becomes gray 0 under a second
    application: in binary64, 0.3*1 + 0.6*1 + 0.1*1 is the float just below
    1.0, which [int] truncates to 0. *)
Lemma mono_twice_differs :
  mono false [[mkRGB 0 2 0 255]] = (Ok true, [[mkRGB 1 1 1 255]])
  /\ mono false [[mkRGB 1 1 1 255]] = (Ok true, [[mkRGB 0 0 0 255]])
  /\ snd (mono false (snd (mono false [[mkRGB 0 2 0 255]])))
     <> snd (mono false [[mkRGB 0 2 0 255]]).
Proof. vm_compute. repeat split; discriminate. Qed.

(* ===================================================================== *)
(** * The monad and the loops                                             *)
(* ===================================================================== *)

Lemma for_items_length {S} (body : M S unit) (l : list S) :
  length (snd (for_items body l)) = length l.
Proof.
  induction l as [|x xs IH]; simpl; [done|].
  destruct (body x) as [[[]|e] x']; simpl; [|done].
  destruct (for_items body xs) as [r xs']; simpl in *. by rewrite IH.
Qed.

(** A body that never raises turns the loop into a map. *)
Lemma for_items_total {S} (body : M S unit) (f : S -> S) (l : list S) :
  Forall (fun x => body x = (Ok tt, f x)) l ->
  for_items body l = (Ok tt, f <$> l).
Proof.
  induction 1 as [|x xs Hx _ IH]; simpl; [done|].
  by rewrite Hx, IH.
Qed.

(** Whatever the body does to an object, a property of the objects that
    the body maintains is maintained by the loop, raised or not. *)
Lemma for_items_Forall {S} (P : S -> Prop) (body : M S unit) (l : list S) :
  (forall x, P x -> P (snd (body x))) ->
  Forall P l -> Forall P (snd (for_items body l)).
Proof.
  intros Hbody. induction 1 as [|x xs Hx Hxs IH]; simpl; [constructor|].
  specialize (Hbody x Hx).
  destruct (body x) as [[[]|e] x']; simpl in *.
  - destruct (for_items body xs) as [r xs']; simpl in *. by constructor.
  - by constructor.
Qed.

Lemma comprehension_inv {A B} (f : A -> result B) l ys :
  comprehension f l = Ok ys -> Forall2 (fun x y => f x = Ok y) l ys.
Proof.
  revert ys. induction l as [|x xs IH]; simpl; intros ys H.
  - injection H as <-. constructor.
  - destruct (f x) as [y|e] eqn:Hy; simpl in H; [|done].
    destruct (comprehension f xs) as [ys'|e] eqn:Hys; simpl in H; [|done].
    injection H as <-. constructor; auto.
Qed.

Lemma comprehension_total {A B} (f : A -> result B) l :
  Forall (fun x => exists y, f x = Ok y) l ->
  exists ys, comprehension f l = Ok ys.
Proof.
  induction 1 as [|x xs [y Hy] _ [ys IH]]; simpl; [by eexists|].
  rewrite Hy, IH. simpl. by eexists.
Qed.

(* ===================================================================== *)
(** * Shapes and positions                                                *)
(* ===================================================================== *)

Lemma rectangular_row h w image i row :
  rectangular h w image -> image !! i = Some row -> length row = w.
Proof.
  intros [_ Hw] Hi. eapply Forall_lookup_1 in Hw; eauto.
Qed.

Lemma rectangular_pixel h w image i j :
  rectangular h w image -> (i < h)%nat -> (j < w)%nat ->
  exists p, pixel_lookup image i j = Some p.
Proof.
  intros Hrect Hi Hj. pose proof Hrect as [Hh _].
  destruct (lookup_lt_is_Some_2 image i) as [row Hrow]; [lia|].
  pose proof (rectangular_row _ _ _ _ _ Hrect Hrow) as Hlen.
  destruct (lookup_lt_is_Some_2 row j) as [p Hp]; [lia|].
  exists p. unfold pixel_lookup. by rewrite Hrow.
Qed.

(** Two buffers of one shape with the same pixels are equal. *)
Lemma buffer_ext h w (b1 b2 : buffer) :
  rectangular h w b1 -> rectangular h w b2 ->
  (forall i j, (i < h)%nat -> (j < w)%nat ->
               pixel_lookup b1 i j = pixel_lookup b2 i j) ->
  b1 = b2.
Proof.
  intros H1 H2 Heq. pose proof H1 as [Hl1 _]. pose proof H2 as [Hl2 _].
  apply (list_eq_same_length _ _ h); [done..|].
  intros i row1 row2 Hi Hr1 Hr2.
  pose proof (rectangular_row _ _ _ _ _ H1 Hr1).
  pose proof (rectangular_row _ _ _ _ _ H2 Hr2).
  apply (list_eq_same_length _ _ w); [done..|].
  intros j p1 p2 Hj Hp1 Hp2.
  specialize (Heq i j Hi Hj). unfold pixel_lookup in Heq.
  rewrite Hr1, Hr2 in Heq. simpl in Heq. congruence.
Qed.

Lemma index_position_nat n (i : nat) :
  (i < n)%nat -> index_position (Z.of_nat n) (Z.of_nat i) = Some i.
Proof.
  intros Hi. unfold index_position.
  destruct (Z.ltb_spec (Z.of_nat i) 0); [lia|].
  destruct (Z.ltb_spec (Z.of_nat i) 0); [lia|].
  destruct (Z.leb_spec (Z.of_nat n) (Z.of_nat i)); [lia|].
  simpl. by rewrite Nat2Z.id.
Qed.

Lemma getitem_lookup {A} (l : list A) (i : nat) x :
  l !! i = Some x -> getitem l (Z.of_nat i) = Ok x.
Proof.
  intros Hx. unfold getitem, len.
  rewrite index_position_nat by (by eapply lookup_lt_Some).
  by rewrite Hx.
Qed.

Lemma pixel_at_lookup image (i j : nat) p :
  pixel_lookup image i j = Some p ->
  pixel_at image (Z.of_nat i) (Z.of_nat j) = Ok p.
Proof.
  unfold pixel_lookup, pixel_at. intros H.
  destruct (image !! i) as [row|] eqn:Hrow; simpl in H; [|done].
  rewrite (getitem_lookup _ _ _ Hrow). simpl. by apply getitem_lookup.
Qed.

Lemma range_lookup (n i : nat) :
  (i < n)%nat -> range 0 (Z.of_nat n) !! i = Some (Z.of_nat i).
Proof.
  intros Hi. unfold range. by rewrite lookup_seqZ_lt by lia.
Qed.

Lemma range_length (n : nat) : length (range 0 (Z.of_nat n)) = n.
Proof. unfold range. rewrite length_seqZ. lia. Qed.

Lemma range_elem (n : nat) x :
  x ∈ range 0 (Z.of_nat n) -> exists i, x = Z.of_nat i /\ (i < n)%nat.
Proof.
  unfold range. rewrite elem_of_seqZ. intros H.
  exists (Z.to_nat x). lia.
Qed.

(* ===================================================================== *)
(** * flip, transpose, rotate                                             *)
(* ===================================================================== *)

Lemma flip_horizontal image : flip false image = (Ok true, reverse <$> image).
Proof.
  unfold flip, bind, ret.
  rewrite (for_items_total list_reverse reverse); [done|].
  by apply Forall_forall.
Qed.

Lemma flip_vertical image : flip true image = (Ok true, reverse image).
Proof. reflexivity. Qed.

(** C8. [flip(vertical=False)] reverses every row, [flip(vertical=True)]
    reverses the order of the rows, and for either value of [vertical]
    applying [flip] to the result of [flip] gives the original buffer back.
    This holds for every buffer, rectangular or not. *)
Theorem flip_involution (vertical : bool) (image : buffer) :
  flip false image = (Ok true, reverse <$> image)
  /\ flip true image = (Ok true, reverse image)
  /\ exists image', flip vertical image = (Ok true, image')
                    /\ flip vertical image' = (Ok true, image).
Proof.
  split; [apply flip_horizontal|]. split; [apply flip_vertical|].
  destruct vertical.
  - exists (reverse image). rewrite !flip_vertical.
    by rewrite reverse_involutive.
  - exists (reverse <$> image). rewrite !flip_horizontal.
    split; [done|]. f_equal. rewrite <- list_fmap_compose.
    rewrite <- (list_fmap_id image) at 2. apply list_fmap_ext.
    intros i row _. simpl. apply reverse_involutive.
Qed.

Lemma rectangular_reverse h w image :
  rectangular h w image -> rectangular h w (reverse image).
Proof.
  intros [Hh Hw]. split; [by rewrite length_reverse|].
  apply Forall_forall. intros row Hrow.
  rewrite Forall_forall in Hw. apply Hw. by apply elem_of_reverse.
Qed.

Lemma pixel_lookup_reverse image i j :
  (i < length image)%nat ->
  pixel_lookup (reverse image) i j = pixel_lookup image (length image - S i) j.
Proof.
  intros Hi. unfold pixel_lookup. by rewrite reverse_lookup.
Qed.

(** On a rectangle with at least one row and one column, [transpose]
    returns, and the pixel at [(i, j)] of the result is the pixel at
    [(j, i)] of the argument. *)
Lemma transpose_spec h w image :
  (0 < h)%nat -> (0 < w)%nat -> rectangular h w image ->
  exists image', transpose image = (Ok true, image')
    /\ rectangular w h image'
    /\ forall i j, (i < w)%nat -> (j < h)%nat ->
                   pixel_lookup image' i j = pixel_lookup image j i.
Proof.
  intros Hh Hw Hrect. pose proof Hrect as [Hlen Hrows].
  destruct image as [|first rest]; [simpl in Hlen; lia|].
  assert (Hfirst : length first = w)
    by (eapply (rectangular_row _ _ _ 0%nat); eauto).
  destruct first as [|p0 first']; [simpl in Hfirst; lia|].
  set (image := (p0 :: first') :: rest) in *.
  set (column := fun c => comprehension (fun r => pixel_at image r c)
                                        (range 0 (len image))).
  assert (Hcol : forall j, (j < w)%nat -> exists col,
             column (Z.of_nat j) = Ok col).
  { intros j Hj. apply comprehension_total, Forall_forall.
    intros x Hx. unfold len in Hx. rewrite Hlen in Hx.
    apply range_elem in Hx as (i & -> & Hi).
    destruct (rectangular_pixel _ _ _ i j Hrect Hi Hj) as [p Hp].
    exists p. by apply pixel_at_lookup. }
  destruct (comprehension_total column (range 0 (len (p0 :: first'))))
    as [cols Hcols].
  { apply Forall_forall. intros x Hx. unfold len in Hx. rewrite Hfirst in Hx.
    apply range_elem in Hx as (j & -> & Hj). by apply Hcol. }
  assert (Hrun : transpose image
                 = match comprehension column (range 0 (len (p0 :: first'))) with
                   | Ok t => (Ok true, t)
                   | Raise e => (Raise e, image)
                   end) by reflexivity.
  rewrite Hrun, Hcols. exists cols. split; [done|].
  apply comprehension_inv in Hcols. unfold len in Hcols.
  rewrite Hfirst in Hcols.
  assert (Hcolumn : forall j col, cols !! j = Some col ->
            (j < w)%nat /\ column (Z.of_nat j) = Ok col).
  { intros j col Hj.
    destruct (Forall2_lookup_r _ _ _ _ _ Hcols Hj) as (x & Hx & Hfx).
    unfold range in Hx. apply lookup_seqZ in Hx as [-> Hx].
    split; [lia|]. by rewrite Z.add_0_l in Hfx. }
  assert (Hpix : forall j col, cols !! j = Some col ->
            length col = h /\ forall i, (i < h)%nat ->
              col !! i = pixel_lookup image i j).
  { intros j col Hj. destruct (Hcolumn j col Hj) as [Hjw Hc].
    unfold column in Hc. apply comprehension_inv in Hc.
    unfold len in Hc. rewrite Hlen in Hc. split.
    - apply Forall2_length in Hc. by rewrite range_length in Hc.
    - intros i Hi.
      destruct (Forall2_lookup_l _ _ _ i _ Hc (range_lookup h i Hi))
        as (p & Hp & Hfp).
      destruct (rectangular_pixel _ _ _ i j Hrect Hi Hjw) as [p' Hp'].
      rewrite (pixel_at_lookup _ _ _ _ Hp') in Hfp. congruence. }
  split.
  - split.
    + apply Forall2_length in Hcols. by rewrite range_length in Hcols.
    + apply Forall_lookup. intros j col Hj. by destruct (Hpix j col Hj).
  - intros j i Hj Hi. unfold pixel_lookup at 1.
    destruct (cols !! j) as [col|] eqn:Hcj; simpl.
    + destruct (Hpix j col Hcj) as [_ Hp]. by apply Hp.
    + apply lookup_ge_None in Hcj. apply Forall2_length in Hcols.
      rewrite range_length in Hcols. lia.
Qed.

(** One left rotation moves the pixel at [(j, w-1-i)] to [(i, j)]. *)
Lemma rotate_left_spec h w image :
  (0 < h)%nat -> (0 < w)%nat -> rectangular h w image ->
  exists image', rotate false image = (Ok true, image')
    /\ rectangular w h image'
    /\ forall i j, (i < w)%nat -> (j < h)%nat ->
                   pixel_lookup image' i j = pixel_lookup image j (w - S i).
Proof.
  intros Hh Hw Hrect.
  destruct (transpose_spec h w image Hh Hw Hrect) as (t & Ht & Hrt & Hpt).
  exists (reverse t). unfold rotate, bind. rewrite Ht, flip_vertical.
  split; [done|]. split; [by apply rectangular_reverse|].
  intros i j Hi Hj. destruct Hrt as [Hlt _].
  rewrite pixel_lookup_reverse by lia. rewrite Hlt. apply Hpt; lia.
Qed.

(** One right rotation moves the pixel at [(h-1-j, i)] to [(i, j)]. *)
Lemma rotate_right_spec h w image :
  (0 < h)%nat -> (0 < w)%nat -> rectangular h w image ->
  exists image', rotate true image = (Ok true, image')
    /\ rectangular w h image'
    /\ forall i j, (i < w)%nat -> (j < h)%nat ->
                   pixel_lookup image' i j = pixel_lookup image (h - S j) i.
Proof.
  intros Hh Hw Hrect.
  destruct (transpose_spec h w (reverse image) Hh Hw
              (rectangular_reverse _ _ _ Hrect)) as (t & Ht & Hrt & Hpt).
  exists t. unfold rotate, bind. rewrite flip_vertical, Ht.
  split; [done|]. split; [done|].
  intros i j Hi Hj. rewrite Hpt by done. destruct Hrect as [Hl _].
  rewrite pixel_lookup_reverse by lia. by rewrite Hl.
Qed.

Lemma transpose_returns_true image b image' :
  transpose image = (Ok b, image') -> b = true.
Proof.
  unfold transpose, bind, get, lift, put, ret.
  destruct image as [|[|p first] rest]; try congruence.
  destruct (comprehension _ _); congruence.
Qed.

Lemma rotate_right_unfold image :
  rotate true image = transpose (reverse image).
Proof.
  unfold rotate, bind. rewrite flip_vertical.
  destruct (transpose (reverse image)) as [[b|e] image'] eqn:Ht; [|done].
  apply transpose_returns_true in Ht. by subst b.
Qed.

(** Four quarter turns in one direction: the positions compose to the
    identity. *)
Lemma rotate_left_four h w image :
  (0 < h)%nat -> (0 < w)%nat -> rectangular h w image ->
  exists b1 b2 b3,
    rotate false image = (Ok true, b1) /\ rectangular w h b1
    /\ rotate false b1 = (Ok true, b2) /\ rectangular h w b2
    /\ rotate false b2 = (Ok true, b3) /\ rectangular w h b3
    /\ rotate false b3 = (Ok true, image).
Proof.
  intros Hh Hw Hrect.
  destruct (rotate_left_spec h w image Hh Hw Hrect) as (b1 & E1 & R1 & P1).
  destruct (rotate_left_spec w h b1 Hw Hh R1) as (b2 & E2 & R2 & P2).
  destruct (rotate_left_spec h w b2 Hh Hw R2) as (b3 & E3 & R3 & P3).
  destruct (rotate_left_spec w h b3 Hw Hh R3) as (b4 & E4 & R4 & P4).
  exists b1, b2, b3. repeat (split; [done|]).
  rewrite E4. f_equal. apply (buffer_ext h w); [done..|].
  intros i j Hi Hj.
  rewrite P4, P3, P2, P1 by lia. f_equal; lia.
Qed.

Lemma rotate_right_four h w image :
  (0 < h)%nat -> (0 < w)%nat -> rectangular h w image ->
  exists b1 b2 b3,
    rotate true image = (Ok true, b1) /\ rectangular w h b1
    /\ rotate true b1 = (Ok true, b2) /\ rectangular h w b2
    /\ rotate true b2 = (Ok true, b3) /\ rectangular w h b3
    /\ rotate true b3 = (Ok true, image).
Proof.
  intros Hh Hw Hrect.
  destruct (rotate_right_spec h w image Hh Hw Hrect) as (b1 & E1 & R1 & P1).
  destruct (rotate_right_spec w h b1 Hw Hh R1) as (b2 & E2 & R2 & P2).
  destruct (rotate_right_spec h w b2 Hh Hw R2) as (b3 & E3 & R3 & P3).
  destruct (rotate_right_spec w h b3 Hw Hh R3) as (b4 & E4 & R4 & P4).
  exists b1, b2, b3. repeat (split; [done|]).
  rewrite E4. f_equal. apply (buffer_ext h w); [done..|].
  intros i j Hi Hj.
  rewrite P4, P3, P2, P1 by lia. f_equal; lia.
Qed.

(** C7. On a buffer of [h] rows and [w] columns, [h, w > 0]: a left
    rotation is [transpose] followed by the vertical flip, a right rotation
    is the vertical flip followed by [transpose]; for either direction the
    rotation returns [True] four times in a row, swapping the dimensions at
    each turn, and the fourth result is the original buffer. *)
Theorem rotate_four_times (right : bool) (h w : nat) (image : buffer) :
  (0 < h)%nat -> (0 < w)%nat -> rectangular h w image ->
  (exists t, transpose image = (Ok true, t)
             /\ rotate false image = flip true t)
  /\ rotate true image = transpose (snd (flip true image))
  /\ exists b1 b2 b3,
       rotate right image = (Ok true, b1) /\ rectangular w h b1
       /\ rotate right b1 = (Ok true, b2) /\ rectangular h w b2
       /\ rotate right b2 = (Ok true, b3) /\ rectangular w h b3
       /\ rotate right b3 = (Ok true, image).
Proof.
  intros Hh Hw Hrect. split; [|split].
  - destruct (transpose_spec h w image Hh Hw Hrect) as (t & Ht & _).
    exists t. split; [done|]. unfold rotate, bind. by rewrite Ht.
  - apply rotate_right_unfold.
  - destruct right; [by apply rotate_right_four | by apply rotate_left_four].
Qed.

Lemma rotate_four_times_witness :
  let image := [[mkRGB 1 2 3 255; mkRGB 4 5 6 255; mkRGB 7 8 9 255];
                [mkRGB 10 11 12 255; mkRGB 13 14 15 255; mkRGB 16 17 18 255]] in
  rectangular 2 3 image
  /\ exists b1 b2 b3,
       rotate false image = (Ok true, b1) /\ rectangular 3 2 b1
       /\ rotate false b1 = (Ok true, b2) /\ rectangular 2 3 b2
       /\ rotate false b2 = (Ok true, b3) /\ rectangular 3 2 b3
       /\ rotate false b3 = (Ok true, image).
Proof.
  intros image.
  assert (Hrect : rectangular 2 3 image)
    by (split; [reflexivity | repeat constructor]).
  split; [exact Hrect|].
  apply (rotate_four_times false 2 3 image); [lia | lia | exact Hrect].
Defined.

(* ===================================================================== *)
(** * Binary64: sizes of the results                                      *)
(* ===================================================================== *)

(** The operations of [SpecFloat] round a mantissa and an exponent with
    [binary_round_aux]. The lemmas below bound the binary size
    [digits m + e] of what it returns, which is enough to show that the
    arithmetic of the transforms stays finite. *)

Lemma digits2_pos_bounds (p : positive) :
  2 ^ (Zpos (digits2_pos p) - 1) <= Zpos p < 2 ^ Zpos (digits2_pos p).
Proof.
  assert (Hstep : forall d, 0 < d ->
            2 ^ (Z.succ d - 1) = 2 * 2 ^ (d - 1) /\ 2 ^ Z.succ d = 2 * 2 ^ d).
  { intros d Hd. split.
    - replace (Z.succ d - 1) with (Z.succ (d - 1)) by lia.
      apply Z.pow_succ_r. lia.
    - apply Z.pow_succ_r. lia. }
  induction p as [p IH|p IH|]; cbn [digits2_pos].
  - rewrite Pos2Z.inj_succ, Pos2Z.inj_xI.
    pose proof (Hstep (Zpos (digits2_pos p)) ltac:(lia)) as [E1 E2]. lia.
  - rewrite Pos2Z.inj_succ. change (Zpos p~0) with (2 * Zpos p).
    pose proof (Hstep (Zpos (digits2_pos p)) ltac:(lia)) as [E1 E2]. lia.
  - simpl. lia.
Qed.

Lemma Zdigits2_nonneg m : 0 <= Zdigits2 m.
Proof. destruct m; simpl; lia. Qed.

Lemma Zdigits2_bounds m :
  0 < m -> 2 ^ (Zdigits2 m - 1) <= m < 2 ^ Zdigits2 m.
Proof. destruct m; try lia. intros _. apply digits2_pos_bounds. Qed.

Lemma Zdigits2_le m k : 0 <= k -> 0 <= m < 2 ^ k -> Zdigits2 m <= k.
Proof.
  intros Hk [H0 Hm]. destruct (Z.eq_dec m 0) as [->|Hne]; [simpl; lia|].
  destruct (Zdigits2_bounds m) as [Hlo _]; [lia|].
  destruct (Z.le_gt_cases (Zdigits2 m) k) as [|Hgt]; [done|].
  assert (2 ^ k <= 2 ^ (Zdigits2 m - 1)) by (apply Z.pow_le_mono_r; lia).
  lia.
Qed.

Lemma Zdigits2_ge m k : 0 < m -> 2 ^ (k - 1) <= m -> k <= Zdigits2 m.
Proof.
  intros H0 Hm. destruct (Zdigits2_bounds m H0) as [_ Hhi].
  destruct (Z.le_gt_cases k (Zdigits2 m)) as [|Hgt]; [done|].
  assert (2 ^ Zdigits2 m <= 2 ^ (k - 1))
    by (apply Z.pow_le_mono_r; pose proof (Zdigits2_nonneg m); lia).
  lia.
Qed.

Lemma Zdigits2_mono a b : 0 <= a <= b -> Zdigits2 a <= Zdigits2 b.
Proof.
  intros [Ha Hab]. destruct (Z.eq_dec b 0) as [->|Hb].
  - replace a with 0 by lia. lia.
  - apply Zdigits2_le; [apply Zdigits2_nonneg|].
    destruct (Zdigits2_bounds b); lia.
Qed.

Lemma Zdigits2_succ m : 0 <= m -> Zdigits2 (m + 1) <= Zdigits2 m + 1.
Proof.
  intros Hm. pose proof (Zdigits2_nonneg m).
  apply Zdigits2_le; [lia|]. split; [lia|].
  rewrite Z.pow_add_r by lia.
  destruct (Z.eq_dec m 0) as [->|Hne]; [simpl; lia|].
  destruct (Zdigits2_bounds m); lia.
Qed.

Lemma Zdigits2_add a b k :
  0 <= a -> 0 <= b -> 0 <= k -> Zdigits2 a <= k -> Zdigits2 b <= k ->
  Zdigits2 (a + b) <= k + 1.
Proof.
  intros Ha Hb Hk Hda Hdb. apply Zdigits2_le; [lia|]. split; [lia|].
  assert (Hlt : forall x, 0 <= x -> Zdigits2 x <= k -> x < 2 ^ k).
  { intros x Hx Hdx. destruct (Z.eq_dec x 0) as [->|Hne].
    - apply Z.pow_pos_nonneg; lia.
    - destruct (Zdigits2_bounds x) as [_ Hhi]; [lia|].
      assert (2 ^ Zdigits2 x <= 2 ^ k)
        by (apply Z.pow_le_mono_r; pose proof (Zdigits2_nonneg x); lia).
      lia. }
  pose proof (Hlt a Ha Hda). pose proof (Hlt b Hb Hdb).
  rewrite Z.pow_add_r by lia. lia.
Qed.

Lemma Zdigits2_mul a b :
  0 <= a -> 0 <= b -> Zdigits2 (a * b) <= Zdigits2 a + Zdigits2 b.
Proof.
  intros Ha Hb. pose proof (Zdigits2_nonneg a). pose proof (Zdigits2_nonneg b).
  apply Zdigits2_le; [lia|]. split; [lia|].
  destruct (Z.eq_dec a 0) as [->|Hna];
    [rewrite Z.mul_0_l; apply Z.pow_pos_nonneg; lia|].
  destruct (Z.eq_dec b 0) as [->|Hnb];
    [rewrite Z.mul_0_r; apply Z.pow_pos_nonneg; lia|].
  destruct (Zdigits2_bounds a) as [_ Hha]; [lia|].
  destruct (Zdigits2_bounds b) as [_ Hhb]; [lia|].
  rewrite Z.pow_add_r by lia. nia.
Qed.

Lemma Zdigits2_mul_pow2 m k :
  0 < m -> 0 <= k -> Zdigits2 (m * 2 ^ k) = Zdigits2 m + k.
Proof.
  intros Hm Hk. destruct (Zdigits2_bounds m Hm) as [Hlo Hhi].
  pose proof (Zdigits2_nonneg m).
  assert (0 < 2 ^ k) by (apply Z.pow_pos_nonneg; lia).
  assert (1 <= Zdigits2 m) by (destruct m; simpl in *; lia).
  apply Z.le_antisymm.
  - apply Zdigits2_le; [lia|]. split; [nia|].
    rewrite Z.pow_add_r by lia. nia.
  - apply Zdigits2_ge; [nia|].
    replace (Zdigits2 m + k - 1) with (Zdigits2 m - 1 + k) by lia.
    rewrite Z.pow_add_r by lia. nia.
Qed.

Lemma Zdigits2_div_pow2 m n :
  0 <= m -> 0 <= n -> Zdigits2 (m / 2 ^ n) <= Z.max 0 (Zdigits2 m - n).
Proof.
  intros Hm Hn. assert (0 < 2 ^ n) by (apply Z.pow_pos_nonneg; lia).
  assert (0 <= m / 2 ^ n) by (apply Z.div_pos; lia).
  destruct (Z.eq_dec m 0) as [->|Hne]; [rewrite Z.div_0_l by lia; simpl; lia|].
  destruct (Zdigits2_bounds m) as [_ Hhi]; [lia|].
  pose proof (Zdigits2_nonneg m).
  destruct (Z.le_gt_cases n (Zdigits2 m)) as [Hle|Hgt].
  - rewrite Z.max_r by lia. apply Zdigits2_le; [lia|]. split; [done|].
    apply Z.div_lt_upper_bound; [lia|].
    rewrite <- Z.pow_add_r by lia. by replace (n + (Zdigits2 m - n)) with (Zdigits2 m) by lia.
  - rewrite Z.div_small; [simpl; lia|]. split; [lia|].
    assert (2 ^ Zdigits2 m <= 2 ^ n) by (apply Z.pow_le_mono_r; lia). lia.
Qed.

Lemma shr_1_m mrs : 0 <= shr_m mrs -> shr_m (shr_1 mrs) = shr_m mrs / 2.
Proof.
  destruct mrs as [m r s]. cbn [shr_m]. intros Hm.
  destruct m as [|[p|p|]|p]; [reflexivity| | |reflexivity|lia];
    cbn [shr_1 shr_m].
  - apply (Z.div_unique _ _ _ 1); lia.
  - apply (Z.div_unique _ _ _ 0); lia.
Qed.

Lemma iter_shr_1_m p mrs :
  0 <= shr_m mrs -> shr_m (SpecFloat.iter_pos shr_1 p mrs) = shr_m mrs / 2 ^ Zpos p.
Proof.
  assert (Hpow : forall q, 0 < 2 ^ Zpos q) by (intros; by apply Z.pow_pos_nonneg).
  revert mrs. induction p as [p IH|p IH|]; intros mrs Hm; cbn [SpecFloat.iter_pos].
  - pose proof (shr_1_m mrs Hm) as H1.
    assert (0 <= shr_m (shr_1 mrs)) by (rewrite H1; apply Z.div_pos; lia).
    pose proof (IH (shr_1 mrs) ltac:(done)) as H2.
    assert (0 <= shr_m (SpecFloat.iter_pos shr_1 p (shr_1 mrs)))
      by (rewrite H2; apply Z.div_pos; [lia | apply Hpow]).
    rewrite IH, H2, H1 by done. pose proof (Hpow p).
    rewrite (Z.div_div _ 2 (2 ^ Zpos p)), (Z.div_div _ (2 * 2 ^ Zpos p)) by lia.
    f_equal. replace (Zpos p~1) with (1 + Zpos p + Zpos p) by lia.
    rewrite !Z.pow_add_r, Z.pow_1_r by lia. done.
  - pose proof (IH mrs Hm) as H2.
    assert (0 <= shr_m (SpecFloat.iter_pos shr_1 p mrs))
      by (rewrite H2; apply Z.div_pos; [lia | apply Hpow]).
    rewrite IH, H2 by done. pose proof (Hpow p).
    rewrite (Z.div_div _ (2 ^ Zpos p) (2 ^ Zpos p)) by lia. f_equal.
    replace (Zpos p~0) with (Zpos p + Zpos p) by lia.
    by rewrite Z.pow_add_r by lia.
  - by apply shr_1_m.
Qed.

Lemma shr_fexp_spec m e l mrs' e' :
  0 <= m -> shr_fexp prec emax m e l = (mrs', e') ->
  let n := Z.max 0 (Z.max (Zdigits2 m + e - 53) (-1074) - e) in
  shr_m mrs' = m / 2 ^ n /\ e' = e + n.
Proof.
  intros Hm. unfold shr_fexp, shr, fexp, emin, prec, emax.
  assert (Hrec : shr_m (shr_record_of_loc m l) = m)
    by (destruct l as [|[]]; reflexivity).
  change (3 - 1024 - 53) with (-1074).
  destruct (Z.max (Zdigits2 m + e - 53) (-1074) - e) as [|p|p] eqn:Hn;
    intros [= <- <-]; cbn zeta.
  - rewrite Hrec. change (Z.max 0 0) with 0. rewrite Z.div_1_r. lia.
  - rewrite iter_shr_1_m, Hrec by (rewrite Hrec; lia).
    rewrite Z.max_r by lia. done.
  - rewrite Hrec, Z.max_l by lia. rewrite Z.div_1_r. lia.
Qed.

Lemma round_nearest_even_bounds m l :
  m <= round_nearest_even m l <= m + 1.
Proof.
  unfold round_nearest_even. destruct l as [|[]]; try lia.
  destruct (Z.even m); lia.
Qed.

(** What [binary_round_aux] returns for a mantissa [mx >= 0] of binary size
    at most [K]: a zero or a finite number of the requested sign and of
    size at most [K + 1]; never an infinity, never a NaN. *)
Lemma binary_round_aux_bound sx mx ex lx K :
  0 <= mx -> Zdigits2 mx + ex <= K -> ex <= K -> -1074 <= K <= 971 ->
  mag_le (K + 1) (binary_round_aux prec emax sx mx ex lx)
  /\ has_sign sx (binary_round_aux prec emax sx mx ex lx).
Proof.
  intros Hm HD Hex HK. unfold binary_round_aux.
  destruct (shr_fexp prec emax mx ex lx) as [mrs1 e1] eqn:E1.
  apply shr_fexp_spec in E1 as [Hm1 He1]; [|done].
  set (n1 := Z.max 0 (Z.max (Zdigits2 mx + ex - 53) (-1074) - ex)) in *.
  set (m2 := round_nearest_even (shr_m mrs1) (loc_of_shr_record mrs1)).
  assert (0 < 2 ^ n1) by (apply Z.pow_pos_nonneg; lia).
  assert (Hm1' : 0 <= shr_m mrs1) by (rewrite Hm1; apply Z.div_pos; lia).
  pose proof (round_nearest_even_bounds (shr_m mrs1) (loc_of_shr_record mrs1))
    as Hrne. fold m2 in Hrne.
  assert (Hd1 : Zdigits2 (shr_m mrs1) <= Z.max 0 (Zdigits2 mx - n1))
    by (rewrite Hm1; apply Zdigits2_div_pow2; lia).
  assert (Hd2 : Zdigits2 m2 <= Zdigits2 (shr_m mrs1) + 1).
  { etrans; [apply (Zdigits2_mono m2 (shr_m mrs1 + 1)); lia|].
    by apply Zdigits2_succ. }
  destruct (shr_fexp prec emax m2 e1 loc_Exact) as [mrs2 e2] eqn:E2.
  apply shr_fexp_spec in E2 as [Hm3 He2]; [|lia].
  set (n2 := Z.max 0 (Z.max (Zdigits2 m2 + e1 - 53) (-1074) - e1)) in *.
  assert (0 < 2 ^ n2) by (apply Z.pow_pos_nonneg; lia).
  assert (Hm3' : 0 <= shr_m mrs2) by (rewrite Hm3; apply Z.div_pos; lia).
  assert (Hd3 : Zdigits2 (shr_m mrs2) <= Z.max 0 (Zdigits2 m2 - n2))
    by (rewrite Hm3; apply Zdigits2_div_pow2; lia).
  pose proof (Zdigits2_nonneg mx).
  destruct (shr_m mrs2) as [|m3|m3] eqn:Hm3''; [done| |lia].
  assert (He2' : e2 <= 971) by lia.
  unfold prec, emax. change (1024 - 53) with 971.
  destruct (Z.leb_spec e2 971) as [_|]; [|lia].
  split; [|done]. cbn [mag_le]. cbn [Zdigits2] in Hd3. lia.
Qed.

Lemma mag_le_mono K K' x : K <= K' -> mag_le K x -> mag_le K' x.
Proof. destruct x; simpl; intros; lia || done. Qed.

Lemma mag_le_finite K x : mag_le K x -> is_finite x = true.
Proof. by destruct x. Qed.

Lemma digits2_pos_iter_xO m d :
  Zpos (digits2_pos (Pos.iter xO m d)) = Zpos (digits2_pos m) + Zpos d.
Proof.
  induction d as [|d IH] using Pos.peano_ind.
  - simpl. lia.
  - rewrite Pos.iter_succ. cbn [digits2_pos]. lia.
Qed.

(** Aligning a mantissa to a smaller exponent keeps the binary size. *)
Lemma shl_align_size mx ex ex' :
  Zpos (digits2_pos (fst (shl_align mx ex ex'))) + snd (shl_align mx ex ex')
  = Zpos (digits2_pos mx) + ex
  /\ snd (shl_align mx ex ex') <= ex.
Proof.
  unfold shl_align. destruct (ex' - ex) as [|d|d] eqn:Hd; cbn [fst snd];
    [lia..|].
  rewrite digits2_pos_iter_xO. lia.
Qed.

Lemma shl_align_fst_size mx ex ez :
  ez <= ex ->
  Zpos (digits2_pos (fst (shl_align mx ex ez))) + ez = Zpos (digits2_pos mx) + ex.
Proof.
  intros Hle. unfold shl_align. destruct (ez - ex) as [|d|d] eqn:Hd; cbn [fst].
  - lia.
  - lia.
  - rewrite digits2_pos_iter_xO. lia.
Qed.

Lemma binary_round_bound sx mx ex K :
  Zpos (digits2_pos mx) + ex <= K -> -1074 <= K <= 971 ->
  mag_le (K + 1) (binary_round prec emax sx mx ex)
  /\ has_sign sx (binary_round prec emax sx mx ex).
Proof.
  intros HD HK. unfold binary_round.
  pose proof (shl_align_size mx ex
                (fexp prec emax (Zpos (digits2_pos mx) + ex))) as [Hs Hle].
  destruct (shl_align mx ex _) as [mz ez]. cbn [fst snd] in *.
  apply binary_round_aux_bound; cbn [Zdigits2]; lia.
Qed.

Lemma binary_normalize_bound m e K :
  Zdigits2 m + e <= K -> -1074 <= K <= 971 ->
  mag_le (K + 1) (binary_normalize prec emax m e false)
  /\ has_sign (m <? 0) (binary_normalize prec emax m e false).
Proof.
  intros HD HK. destruct m as [|p|p]; cbn [binary_normalize Zdigits2] in *.
  - done.
  - by apply binary_round_bound.
  - by apply binary_round_bound.
Qed.

(** [float(n)] returns for every int of at most 971 binary digits. *)
Lemma float_of_int_bound n K :
  Zdigits2 n <= K -> 0 <= K <= 971 ->
  exists x, float_of_int n = Ok x /\ mag_le (K + 1) x /\ has_sign (n <? 0) x.
Proof.
  intros Hn HK. unfold float_of_int.
  destruct (binary_normalize_bound n 0 K) as [Hm Hs]; [lia..|].
  destruct (binary_normalize prec emax n 0 false) as [s|s| |s m e] eqn:E;
    try done; eexists; by repeat split.
Qed.

Lemma fmul_bound x y Kx Ky :
  mag_le Kx x -> mag_le Ky y -> -1074 <= Kx + Ky <= 971 ->
  mag_le (Kx + Ky + 1) (fmul x y).
Proof.
  intros Hx Hy HK. destruct x as [sx|sx| |sx mx ex], y as [sy|sy| |sy my ey];
    try done. cbn [mag_le] in Hx, Hy. unfold fmul. cbn [SFmul].
  pose proof (Zdigits2_mul (Zpos mx) (Zpos my) ltac:(lia) ltac:(lia)) as Hd.
  rewrite <- Pos2Z.inj_mul in Hd. cbn [Zdigits2] in Hd.
  apply binary_round_aux_bound; cbn [Zdigits2]; lia.
Qed.

Lemma fmul_sign x y sx sy :
  is_finite x = true -> is_finite y = true ->
  has_sign sx x -> has_sign sy y ->
  mag_le 971 (fmul x y) -> has_sign (xorb sx sy) (fmul x y).
Proof.
  intros Hfx Hfy Hx Hy. destruct x as [ax|ax| |ax mx ex], y as [ay|ay| |ay my ey];
    try done; cbn [has_sign] in Hx, Hy; subst; try done.
  unfold fmul. cbn [SFmul]. unfold binary_round_aux.
  destruct (shr_fexp _ _ _ _ _) as [mrs1 e1].
  destruct (shr_fexp _ _ _ _ _) as [mrs2 e2].
  destruct (shr_m mrs2); try done. by destruct (_ <=? _).
Qed.

Lemma Zdigits2_abs m : Zdigits2 (Z.abs m) = Zdigits2 m.
Proof. by destruct m. Qed.

(** The sum or difference of two aligned mantissas. *)
Lemma aligned_sum_size sx mx ex sy my ey K (op : Z -> Z -> Z) :
  (forall a b, Z.abs (op a b) <= Z.abs a + Z.abs b) ->
  Zpos (digits2_pos mx) + ex <= K -> Zpos (digits2_pos my) + ey <= K ->
  let ez := Z.min ex ey in
  Zdigits2 (op (cond_Zopp sx (Zpos (fst (shl_align mx ex ez))))
               (cond_Zopp sy (Zpos (fst (shl_align my ey ez))))) + ez <= K + 1.
Proof.
  intros Hop Hx Hy ez.
  pose proof (shl_align_fst_size mx ex ez ltac:(lia)) as Hax.
  pose proof (shl_align_fst_size my ey ez ltac:(lia)) as Hay.
  set (a := fst (shl_align mx ex ez)) in *.
  set (b := fst (shl_align my ey ez)) in *.
  rewrite <- Zdigits2_abs.
  assert (Habs : forall s p, Z.abs (cond_Zopp s (Zpos p)) = Zpos p)
    by (intros [] p; reflexivity).
  pose proof (Hop (cond_Zopp sx (Zpos a)) (cond_Zopp sy (Zpos b))) as Hle.
  rewrite !Habs in Hle.
  etrans; [apply Z.add_le_mono_r, (Zdigits2_mono _ (Zpos a + Zpos b)); lia|].
  pose proof (Zdigits2_add (Zpos a) (Zpos b) (K - ez) ltac:(lia) ltac:(lia)) as Hadd.
  cbn [Zdigits2] in Hadd. lia.
Qed.

Lemma fadd_bound x y K :
  mag_le K x -> mag_le K y -> -1074 <= K <= 970 ->
  mag_le (K + 2) (fadd x y).
Proof.
  intros Hx Hy HK. destruct x as [sx|sx| |sx mx ex], y as [sy|sy| |sy my ey];
    try done.
  - by destruct sx, sy.
  - simpl in *. lia.
  - simpl in *. lia.
  - cbn [mag_le] in Hx, Hy. unfold fadd. cbn [SFadd].
    replace (K + 2) with (K + 1 + 1) by lia.
    eapply binary_normalize_bound; [|lia].
    apply (aligned_sum_size sx mx ex sy my ey K Z.add); [lia|done..].
Qed.

Lemma fsub_bound x y K :
  mag_le K x -> mag_le K y -> -1074 <= K <= 970 ->
  mag_le (K + 2) (fsub x y).
Proof.
  intros Hx Hy HK. destruct x as [sx|sx| |sx mx ex], y as [sy|sy| |sy my ey];
    try done.
  - by destruct sx, sy.
  - simpl in *. lia.
  - simpl in *. lia.
  - cbn [mag_le] in Hx, Hy. unfold fsub. cbn [SFsub].
    replace (K + 2) with (K + 1 + 1) by lia.
    eapply binary_normalize_bound; [|lia].
    apply (aligned_sum_size sx mx ex sy my ey K Z.sub); [lia|done..].
Qed.

(** [int(x)] and [round(x)] return for every finite [x]. *)
Lemma int_of_float_finite x :
  is_finite x = true -> exists n, int_of_float x = Ok n.
Proof.
  destruct x as [s|s| |s m e]; try done; intros _; cbn [int_of_float].
  - by eexists.
  - destruct (magnitude_parts m e) as [[q r] d]. by eexists.
Qed.

Lemma round_finite x :
  is_finite x = true -> exists n, round x = Ok n.
Proof.
  destruct x as [s|s| |s m e]; try done; intros _; cbn [round].
  - by eexists.
  - destruct (magnitude_parts m e) as [[q r] d]. by eexists.
Qed.

(* ===================================================================== *)
(** * mono                                                                *)
(* ===================================================================== *)

Lemma int_of_float_size x n K :
  0 <= K -> mag_le K x -> int_of_float x = Ok n -> Zdigits2 n <= K.
Proof.
  intros HK Hx. destruct x as [s|s| |s m e]; try done; cbn [int_of_float mag_le] in *.
  - intros [= <-]. simpl. lia.
  - unfold magnitude_parts. destruct e as [|e|e].
    + intros [= <-]. rewrite Z.mul_1_r.
      assert (Zdigits2 (Zpos m) <= K) by (simpl; lia).
      destruct s; [by rewrite <- Zdigits2_abs, Z.abs_opp|done].
    + intros [= <-].
      pose proof (Zdigits2_mul_pow2 (Zpos m) (Zpos e) ltac:(lia) ltac:(lia)) as Hd.
      change (Zdigits2 (Zpos m)) with (Zpos (digits2_pos m)) in Hd.
      destruct s; [rewrite <- Zdigits2_abs, Z.abs_opp, Zdigits2_abs|]; lia.
    + intros [= <-].
      pose proof (Zdigits2_div_pow2 (Zpos m) (Zpos e) ltac:(lia) ltac:(lia)) as Hd.
      change (Zdigits2 (Zpos m)) with (Zpos (digits2_pos m)) in Hd.
      destruct s; [rewrite <- Zdigits2_abs, Z.abs_opp, Zdigits2_abs|]; lia.
Qed.

Lemma literal_sizes :
  mag_le 0 (literal 3 10) /\ mag_le 0 (literal 6 10)
  /\ mag_le 0 (literal 1 10) /\ mag_le 0 (literal 4 10).
Proof. vm_compute. repeat split; discriminate. Qed.

Lemma mul_int_bound x n Kx K :
  mag_le Kx x -> Zdigits2 n <= K -> 0 <= K <= 970 -> -1074 <= Kx ->
  Kx + K <= 970 ->
  exists y, mul_int x n = Ok y /\ mag_le (Kx + K + 2) y.
Proof.
  intros Hx Hn HK HKx Hsum. unfold mul_int.
  destruct (float_of_int_bound n K) as (y & -> & Hy & _); [lia..|].
  cbn [rbind]. eexists. split; [done|].
  replace (Kx + K + 2) with (Kx + (K + 1) + 1) by lia.
  apply fmul_bound; [done..|lia].
Qed.

(** The brightness of a pixel of [K]-digit channels is a finite float. *)
Lemma brightness_total K p :
  0 <= K <= 900 -> small_pixel K p ->
  exists b, brightness p = Ok b /\ mag_le (K + 6) b.
Proof.
  intros HK (Hr & Hg & Hb). unfold brightness.
  destruct literal_sizes as (H3 & H6 & H1 & _).
  destruct (mul_int_bound _ (red p) 0 K H3) as (a & -> & Ha); [lia..|].
  destruct (mul_int_bound _ (green p) 0 K H6) as (b & -> & Hb'); [lia..|].
  destruct (mul_int_bound _ (blue p) 0 K H1) as (c & -> & Hc); [lia..|].
  cbn [rbind]. eexists. split; [done|].
  replace (K + 6) with (K + 4 + 2) by lia.
  apply fadd_bound; [|eapply mag_le_mono; [|exact Hc]; lia|lia].
  replace (K + 4) with (0 + K + 2 + 2) by lia.
  apply fadd_bound; [done..|lia].
Qed.

Lemma gray_total K p :
  0 <= K <= 900 -> small_pixel K p ->
  (let? b := brightness p in int_of_float b) = Ok (gray p)
  /\ Zdigits2 (gray p) <= K + 6.
Proof.
  intros HK Hp. unfold gray.
  destruct (brightness_total K p HK Hp) as (b & -> & Hb). cbn [rbind].
  destruct (int_of_float_finite b (mag_le_finite _ _ Hb)) as [n Hn].
  rewrite Hn. split; [done|].
  eapply int_of_float_size; [|exact Hb|exact Hn]. lia.
Qed.

Lemma mono_pixel_total K p :
  0 <= K <= 900 -> small_pixel K p ->
  mono_pixel false p = (Ok tt, gray_pixel p)
  /\ small_pixel (K + 6) (gray_pixel p).
Proof.
  intros HK Hp. destruct (gray_total K p HK Hp) as [Hg Hsize].
  split; [|by repeat split].
  unfold mono_pixel, bind, get, lift.
  destruct (brightness p) as [b|e]; [|done]. cbn [rbind] in Hg.
  by rewrite Hg.
Qed.

(** On channels of at most [K] digits, grayscale [mono] returns [True] and
    maps every pixel to its gray pixel. *)
Lemma mono_total K (image : buffer) :
  0 <= K <= 900 -> Forall (Forall (small_pixel K)) image ->
  mono false image = (Ok true, map_pixels gray_pixel image)
  /\ Forall (Forall (small_pixel (K + 6))) (map_pixels gray_pixel image).
Proof.
  intros HK Himg. unfold map_pixels. split.
  - unfold mono, for_pixels, bind, ret.
    rewrite (for_items_total _ (fmap (M := list) gray_pixel)); [done|].
    eapply Forall_impl; [exact Himg|]. intros row Hrow. cbn beta.
    apply for_items_total. eapply Forall_impl; [exact Hrow|].
    intros p Hp. by apply (mono_pixel_total K).
  - apply Forall_fmap. eapply Forall_impl; [exact Himg|].
    intros row Hrow. cbn. apply Forall_fmap.
    eapply Forall_impl; [exact Hrow|].
    intros p Hp. by apply (mono_pixel_total K).
Qed.

Lemma valid_pixel_small p : valid_pixel p -> small_pixel 8 p.
Proof.
  intros (Hr & Hg & Hb & _).
  repeat split; apply Zdigits2_le; try lia; change (2 ^ 8) with 256; lia.
Qed.

Lemma gray_pixel_fixed p :
  red p = green p -> red p = blue p ->
  gray_pixel p = p <-> gray_stable (red p) = true.
Proof.
  destruct p as [r g b a]. cbn [red green blue]. intros <- <-.
  unfold gray_stable, gray_pixel. cbn [alpha].
  change (gray (mkRGB r r r 255)) with (gray (mkRGB r r r a)).
  rewrite Z.eqb_eq. split; [by intros [= ->]|]. by intros ->.
Qed.

(** The unstable gray levels of 0..255 are exactly the 49 listed ones, and
    the second application lowers each of them by one. *)
Lemma unstable_grays_spec g :
  0 <= g <= 255 ->
  (gray_stable g = false <-> g ∈ unstable_grays)
  /\ (g ∈ unstable_grays -> gray (mkRGB g g g 255) = g - 1).
Proof.
  intros Hg.
  assert (Hall : forallb (fun g =>
            Bool.eqb (negb (gray_stable g)) (bool_decide (g ∈ unstable_grays))
            && (gray_stable g || (gray (mkRGB g g g 255) =? g - 1)))
            (seqZ 0 256) = true) by (vm_compute; reflexivity).
  rewrite forallb_forall in Hall. specialize (Hall g).
  rewrite <- list_elem_of_In, elem_of_seqZ in Hall.
  specialize (Hall ltac:(lia)). apply andb_prop in Hall as [H1 H2].
  apply Bool.eqb_prop in H1.
  assert (Hdec : gray_stable g = false <-> g ∈ unstable_grays).
  { rewrite <- (bool_decide_spec (g ∈ unstable_grays)), <- H1.
    destruct (gray_stable g); cbn; intuition congruence. }
  split; [done|]. intros Hin. apply Hdec in Hin. rewrite Hin in H2.
  cbn in H2. by apply Z.eqb_eq.
Qed.

Lemma list_fmap_fixed {A} (f : A -> A) (l : list A) :
  f <$> l = l <-> Forall (fun x => f x = x) l.
Proof.
  induction l as [|x xs IH]; cbn.
  - split; [constructor|done].
  - split.
    + intros [= Hx Hxs]. constructor; [done|by apply IH].
    + intros H. apply Forall_cons in H as [-> H]. f_equal. by apply IH.
Qed.

(** C6 (amended). On a buffer whose channels are in 0..255, grayscale
    [mono] returns [True] having replaced every pixel [p] by
    [(g, g, g, alpha p)] with [g = int(0.3*R + 0.6*G + 0.1*B)] in binary64;
    a second application returns [True] as well, and gives the same buffer
    exactly when every gray level [g] of the first result is stable, that
    is, [int(0.3*g + 0.6*g + 0.1*g) = g]. Among 0..255 the levels that are
    not stable are the 49 of [unstable_grays], and the second application
    lowers each of them by one. *)
Theorem mono_twice (image : buffer) :
  Forall (Forall valid_pixel) image ->
  let once := map_pixels gray_pixel image in
  mono false image = (Ok true, once)
  /\ (exists twice,
        mono false once = (Ok true, twice)
        /\ (twice = once <->
            Forall (Forall (fun p => gray_stable (red p) = true)) once))
  /\ (forall g, 0 <= g <= 255 ->
        (gray_stable g = false <-> g ∈ unstable_grays)
        /\ (g ∈ unstable_grays -> gray (mkRGB g g g 255) = g - 1)).
Proof.
  intros Hvalid once.
  assert (Hsmall : Forall (Forall (small_pixel 8)) image).
  { eapply Forall_impl; [exact Hvalid|]. intros row Hrow.
    eapply Forall_impl; [exact Hrow|]. apply valid_pixel_small. }
  destruct (mono_total 8 image ltac:(lia) Hsmall) as [Hone Hsmall1].
  fold once in Hone, Hsmall1.
  destruct (mono_total (8 + 6) once ltac:(lia) Hsmall1) as [Htwo _].
  split; [done|]. split; [|apply unstable_grays_spec].
  exists (map_pixels gray_pixel once). split; [done|].
  assert (Hgrays : Forall (Forall (fun p => red p = green p /\ red p = blue p)) once).
  { unfold once, map_pixels. apply Forall_fmap, Forall_true. intros row. cbn.
    apply Forall_fmap, Forall_true. by intros p. }
  unfold map_pixels at 1. rewrite list_fmap_fixed. split.
  - intros Hfix.
    eapply Forall_impl; [exact (proj2 (Forall_and _ _) (conj Hfix Hgrays))|].
    intros row [Hrow Hg]. cbn beta in Hrow. apply list_fmap_fixed in Hrow.
    eapply Forall_impl; [exact (proj2 (Forall_and _ _) (conj Hrow Hg))|].
    intros p [Hp [Hpg Hpb]]. by apply gray_pixel_fixed.
  - intros Hstable.
    eapply Forall_impl; [exact (proj2 (Forall_and _ _) (conj Hstable Hgrays))|].
    intros row [Hrow Hg]. cbn beta. apply list_fmap_fixed.
    eapply Forall_impl; [exact (proj2 (Forall_and _ _) (conj Hrow Hg))|].
    intros p [Hp [Hpg Hpb]]. by apply gray_pixel_fixed.
Qed.

Lemma mono_twice_witness :
  let image := [[mkRGB 0 2 0 255; mkRGB 100 200 50 255]] in
  Forall (Forall valid_pixel) image
  /\ mono false image = (Ok true, map_pixels gray_pixel image).
Proof.
  intros image.
  assert (Hvalid : Forall (Forall valid_pixel) image)
    by (repeat constructor; cbn; lia).
  split; [exact Hvalid|].
  exact (proj1 (mono_twice image Hvalid)).
Defined.

(* ===================================================================== *)
(** * The dispatcher                                                      *)
(* ===================================================================== *)

Local Open Scope string_scope.

Lemma getattr_Some_elem module name a :
  getattr module name = Some a -> (name, a) ∈ module.
Proof.
  induction module as [|[n b] module IH]; cbn; [done|].
  destruct (String.eqb_spec n name) as [->|_].
  - intros [= ->]. left.
  - intros H. right. by apply IH.
Qed.

Lemma getattr_None module name :
  getattr module name = None <-> name ∉ map fst module.
Proof.
  induction module as [|[n b] module IH]; cbn.
  - split; [intros _ H; inversion H|done].
  - rewrite not_elem_of_cons, <- IH.
    destruct (String.eqb_spec n name) as [->|Hne].
    + split; [done|]. by intros [? _].
    + split; [by intros ?; split; [congruence|]|by intros [_ ?]].
Qed.

(** In the module, whatever the interpreter adds to it, a function is
    found under its own name only. *)
Lemma getattr_plugins2_function implicit name f :
  getattr (plugins2 implicit) name = Some (Function f) ->
  f ∈ plugins2_functions /\ fn_name f = name.
Proof.
  intros H. apply getattr_Some_elem in H. unfold plugins2 in H.
  apply elem_of_app in H as [H|H].
  - repeat (apply elem_of_cons in H as [H|H]; [done|]). inversion H.
  - apply elem_of_app in H as [H|H].
    + apply list_elem_of_fmap in H as (f' & [= -> ->] & Hf'). done.
    + apply list_elem_of_fmap in H as (n & [= _] & _).
Qed.

Lemma plugins2_names implicit :
  map fst (plugins2 implicit)
  = (["RGB"; "math"; "random"] ++ map fn_name plugins2_functions
     ++ implicit)%list.
Proof.
  unfold plugins2. rewrite !map_app, !map_map. cbn [fst].
  by rewrite map_id.
Qed.

(** [parse_args] after the options are taken out: with three or four
    tokens left, the second one is looked up. *)
Lemma parse_args_lookup module argv options args command :
  extract_options argv = (Ok options, args) ->
  (length args = 3 \/ length args = 4)%nat ->
  args !! 1%nat = Some command ->
  parse_args module argv
  = match lookup_command module command options with
    | Raise e => (Raise e, args)
    | Ok (inr message) =>
        (Ok (mkParsed (Some message) None None (args !! 2%nat)
               (if (length args =? 4)%nat then args !! 3%nat else None)), args)
    | Ok (inl f) =>
        (Ok (mkParsed None (Some f) (Some options) (args !! 2%nat)
               (if (length args =? 4)%nat then args !! 3%nat else None)), args)
    end.
Proof.
  intros Hext Hlen Hcmd. unfold parse_args, bind, get, lift, ret.
  rewrite Hext.
  assert (Hn : ((length args =? 3)%nat || (length args =? 4)%nat) = true)
    by (destruct Hlen as [-> | ->]; reflexivity).
  rewrite Hn. cbn [negb].
  change 1%Z with (Z.of_nat 1). rewrite (getitem_lookup _ _ _ Hcmd).
  destruct (lookup_command module command options) as [[f|message]|e]; [| |done].
  - destruct (lookup_lt_is_Some_2 args 2) as [input Hin]; [lia|].
    change 2%Z with (Z.of_nat 2). by rewrite (getitem_lookup _ _ _ Hin), Hin.
  - destruct (lookup_lt_is_Some_2 args 2) as [input Hin]; [lia|].
    change 2%Z with (Z.of_nat 2). by rewrite (getitem_lookup _ _ _ Hin), Hin.
Qed.

(** A name that is no attribute of the module: the message, and nothing
    but the message is done. *)
Lemma unknown_command_aborts module read_image call argv options args command :
  extract_options argv = (Ok options, args) ->
  (length args = 3 \/ length args = 4)%nat ->
  args !! 1%nat = Some command ->
  getattr module command = None ->
  lookup_command module command options = Ok (inr (unrecognized_command command))
  /\ main module read_image call argv
     = (Ok tt, [Print (unrecognized_command command)]).
Proof.
  intros Hext Hlen Hcmd Hnone.
  assert (Hlook : lookup_command module command options
                  = Ok (inr (unrecognized_command command)))
    by (unfold lookup_command; by rewrite Hnone).
  split; [done|]. unfold main.
  by rewrite (parse_args_lookup _ _ _ _ _ Hext Hlen Hcmd), Hlook.
Qed.

(** Only the eleven functions of [plugins2] resolve, each under its exact
    name. *)
Lemma registry_exact implicit command options f :
  lookup_command (plugins2 implicit) command options = Ok (inl f) ->
  f ∈ plugins2_functions /\ fn_name f = command.
Proof.
  unfold lookup_command.
  destruct (getattr (plugins2 implicit) command) as [[g|]|] eqn:Hget; [|done..].
  apply getattr_plugins2_function in Hget.
  destruct (negb _); [done|]. destruct (filter _ _); [|done].
  by intros [= <-].
Qed.

Example lookup_is_case_sensitive :
  lookup_command (plugins2 []) "Blur" [] = Ok (inr "error: unrecognized command 'Blur'")
  /\ lookup_command (plugins2 []) "blu" [] = Ok (inr "error: unrecognized command 'blu'")
  /\ lookup_command (plugins2 []) "blur" [] = Ok (inl fn_blur).
Proof. vm_compute. done. Qed.

(** C2 (the code at the failing input). [math] is a name of the module
    [plugins2], bound by [import math], so [hasattr] accepts it; it is not
    a function, and reading its [__code__] raises [AttributeError]. The run
    [pictool.py math in.png out.png] ends with that exception: nothing is
    decoded, and no "unrecognized command" message is printed. The same
    holds for [random] and [RGB]. *)
Theorem imported_name_crashes (implicit : list string)
    (read_image : string -> option buffer)
    (call : function -> dict -> M buffer bool) (options : dict) :
  lookup_command (plugins2 implicit) "math" options = Raise AttributeError
  /\ lookup_command (plugins2 implicit) "random" options = Raise AttributeError
  /\ lookup_command (plugins2 implicit) "RGB" options = Raise AttributeError
  /\ main (plugins2 implicit) read_image call
       ["pictool.py"; "math"; "in.png"; "out.png"]
     = (Raise AttributeError, []).
Proof. repeat split; reflexivity. Qed.

(** For a function that passes the default-values check, the options are
    rejected together, in the order they were given. *)
Lemma unrecognized_options_listed module command f options :
  getattr module command = Some (Function f) ->
  length (take (co_argcount f) (co_varnames f))
  = S (match fn_defaults f with None => 0%nat | Some d => length d end) ->
  lookup_command module command options
  = match rejected_keys f options with
    | [] => Ok (inl f)
    | bad => Ok (inr (unrecognized_options command bad))
    end.
Proof.
  intros Hget Hlen. unfold lookup_command, rejected_keys. rewrite Hget, Hlen.
  rewrite Nat.add_1_r, Nat.eqb_refl. cbn [negb].
  by destruct (filter _ _).
Qed.

Example radius_rejected_by_mono :
  lookup_command (plugins2 []) "mono" [("radius", VInt 5)]
  = Ok (inr "error: plugin 'mono' does not recognize the following options: --radius")
  /\ lookup_command (plugins2 []) "mono"
       [("radius", VInt 5); ("sepia", VBool true); ("x", VInt 1)]
     = Ok (inr "error: plugin 'mono' does not recognize the following options: --radius, --x").
Proof. vm_compute. done. Qed.

(** C3 (the code at the failing input). The key [image] is the name of the
    buffer parameter of every transform; [lookup_command] compares the keys
    with all the parameters, the first one included, so [--image=5] is not
    rejected: the command resolves, the image is decoded and the function
    is called with [image] among the keyword arguments. *)
Theorem buffer_parameter_accepted (implicit : list string)
    (read_image : string -> option buffer)
    (call : function -> dict -> M buffer bool) (image : buffer) :
  read_image "in.png" = Some image ->
  lookup_command (plugins2 implicit) "dered" [("image", VInt 5)]
  = Ok (inl fn_dered)
  /\ exists events,
       snd (main (plugins2 implicit) read_image call
              ["pictool.py"; "dered"; "--image=5"; "in.png"; "out.png"])
       = ([ReadImage "in.png"; Call fn_dered [("image", VInt 5)]] ++ events)%list.
Proof.
  intros Hread. split; [reflexivity|].
  unfold main.
  rewrite (parse_args_lookup _ _ [("image", VInt 5)]
             ["pictool.py"; "dered"; "in.png"; "out.png"] "dered");
    [|reflexivity|by right|reflexivity].
  change (lookup_command (plugins2 implicit) "dered" [("image", VInt 5)])
    with (Ok (inl fn_dered) : result (function + string)).
  cbn -[verify_image]. rewrite Hread.
  destruct (call fn_dered [("image", VInt 5)] image) as [[[]|e] image'];
    [|by exists []|by exists []].
  destruct (verify_image (as_object image')) as [[]|e];
    [by exists [SaveImage "out.png"]|by exists []|by exists []].
Qed.

Lemma buffer_parameter_accepted_witness :
  lookup_command (plugins2 []) "dered" [("image", VInt 5)] = Ok (inl fn_dered).
Proof.
  exact (proj1 (buffer_parameter_accepted [] (fun _ => Some [[mkRGB 1 2 3 255]])
                  (fun _ _ => dered) [[mkRGB 1 2 3 255]] eq_refl)).
Defined.



(* ===================================================================== *)
(** * Option values                                                       *)
(* ===================================================================== *)









Lemma forallb_Forall {A} (f : A -> bool) l :
  forallb f l = true <-> Forall (fun x => f x = true) l.
Proof.
  induction l as [|x l IH]; cbn.
  - split; [constructor|done].
  - rewrite andb_true_iff, Forall_cons, IH. done.
Qed.





Example negative_three_is_float :
  coerce "-3" = VFloat (S754_finite true 6755399441055744 (-51))
  /\ extract_options ["pictool.py"; "blur"; "--radius=-3"; "in.png"]
     = (Ok [("radius", VFloat (S754_finite true 6755399441055744 (-51)))],
        ["pictool.py"; "blur"; "in.png"]).
Proof. vm_compute. done. Qed.

Local Close Scope string_scope.

(* ===================================================================== *)
(** * What a statement preserves                                          *)
(* ===================================================================== *)

Lemma preserves_ret {S A} (I : S -> Prop) (a : A) : preserves I (ret a).
Proof. by intros s Hs. Qed.

Lemma preserves_lift {S A} (I : S -> Prop) (r : result A) : preserves I (lift r).
Proof. by intros s Hs. Qed.

Lemma preserves_get {S} (I : S -> Prop) : preserves I get.
Proof. by intros s Hs. Qed.

Lemma preserves_bind {S A B} (I : S -> Prop) (m : M S A) (k : A -> M S B) :
  preserves I m -> (forall a, preserves I (k a)) -> preserves I (bind m k).
Proof.
  intros Hm Hk s Hs. unfold bind. specialize (Hm s Hs).
  destruct (m s) as [[a|e] s']; [by apply Hk|done].
Qed.

Lemma preserves_for_each {S B} (I : S -> Prop) (l : list B) (body : B -> M S unit) :
  (forall x, preserves I (body x)) -> preserves I (for_each l body).
Proof.
  intros Hbody. induction l as [|x l IH]; cbn [for_each].
  - apply preserves_ret.
  - apply preserves_bind; [apply Hbody|by intros _].
Qed.

Lemma preserves_pair {S A B} (I : S -> Prop) (p : A * B) (k : A -> B -> M S unit) :
  (forall a b, preserves I (k a b)) -> preserves I (let '(a, b) := p in k a b).
Proof. destruct p. auto. Qed.

(** The pixel loops keep the shape, whatever the body does to a pixel. *)
Lemma for_pixels_rectangular h w (body : M RGB unit) :
  preserves (rectangular h w) (for_pixels body).
Proof.
  intros image [Hh Hw]. unfold for_pixels. split.
  - by rewrite for_items_length.
  - apply for_items_Forall; [|done]. intros row Hrow.
    by rewrite for_items_length.
Qed.

Lemma rectangular_insert h w image i row :
  rectangular h w image -> length row = w ->
  rectangular h w (<[i := row]> image).
Proof.
  intros [Hh Hw] Hrow. split; [by rewrite length_insert|].
  by apply Forall_insert.
Qed.

Lemma set_pixel_rectangular h w r c p :
  preserves (rectangular h w) (set_pixel r c p).
Proof.
  intros image Hrect. unfold set_pixel.
  destruct (index_position (len image) r) as [i|]; [|done].
  destruct (image !! i) as [row|] eqn:Hrow; [|done].
  unfold setitem. destruct (index_position (len row) c) as [j|]; [|done].
  cbn [snd]. apply rectangular_insert; [done|].
  rewrite length_insert. by eapply rectangular_row.
Qed.

Lemma with_pixel_rectangular h w r c body :
  preserves (rectangular h w) (with_pixel r c body).
Proof.
  intros image Hrect. unfold with_pixel.
  destruct (index_position (len image) r) as [i|]; [|done].
  destruct (image !! i) as [row|] eqn:Hrow; [|done].
  destruct (getitem row c) as [pixel|e]; [|done].
  destruct (index_position (len row) c) as [j|]; [|done].
  destruct (body pixel) as [res pixel']. cbn [snd].
  apply rectangular_insert; [done|].
  rewrite length_insert. by eapply rectangular_row.
Qed.

Lemma dimensions_preserves (I : buffer -> Prop) : preserves I dimensions.
Proof.
  unfold dimensions. apply preserves_bind; [apply preserves_get|].
  intros image. apply preserves_bind; [apply preserves_lift|].
  intros first. apply preserves_ret.
Qed.

Ltac preserves_step :=
  first [ apply preserves_ret | apply preserves_lift | apply preserves_get
        | apply set_pixel_rectangular | apply with_pixel_rectangular
        | apply for_pixels_rectangular
        | apply dimensions_preserves
        | apply preserves_for_each; intros ?
        | apply preserves_bind; [|intros ?]
        | apply preserves_pair; intros ? ? ].

Lemma dered_rectangular h w : preserves (rectangular h w) dered.
Proof. unfold dered. repeat preserves_step. Qed.

Lemma mono_rectangular h w sepia : preserves (rectangular h w) (mono sepia).
Proof. unfold mono. repeat preserves_step. Qed.

Lemma brighten_rectangular h w factor :
  preserves (rectangular h w) (brighten factor).
Proof. unfold brighten. repeat preserves_step. Qed.

Lemma flip_rectangular h w vertical :
  preserves (rectangular h w) (flip vertical).
Proof.
  intros image Hrect. destruct vertical.
  - rewrite flip_vertical. by apply rectangular_reverse.
  - rewrite flip_horizontal. cbn [snd]. destruct Hrect as [Hh Hw]. split.
    + by rewrite length_fmap.
    + apply Forall_fmap. eapply Forall_impl; [exact Hw|].
      intros row Hrow. cbn. by rewrite length_reverse.
Qed.

Lemma vignette_rectangular h w : preserves (rectangular h w) vignette.
Proof.
  unfold vignette. preserves_step; [preserves_step|].
  destruct a as [height width]. repeat preserves_step.
Qed.

Lemma blur_rectangular h w radius : preserves (rectangular h w) (blur radius).
Proof.
  unfold blur. preserves_step; [preserves_step|].
  destruct a as [height width]. repeat preserves_step.
Qed.

Lemma pixellate_rectangular h w step :
  preserves (rectangular h w) (pixellate step).
Proof.
  unfold pixellate. preserves_step; [preserves_step|].
  destruct a as [height width]. repeat preserves_step.
Qed.

Lemma on_image_preserves {G A} (I : buffer -> Prop) (m : M buffer A) :
  preserves I m -> preserves (fun s : buffer * G => I (fst s)) (on_image G m).
Proof.
  intros Hm [image g] Hs. unfold on_image. cbn [fst snd] in *.
  specialize (Hm image Hs). by destruct (m image).
Qed.

Lemma on_random_preserves {G A} (I : buffer -> Prop) (m : M G A) :
  preserves (fun s : buffer * G => I (fst s)) (on_random G m).
Proof.
  intros [image g] Hs. unfold on_random. cbn [fst snd] in *.
  by destruct (m g).
Qed.

Lemma scramble_rectangular {G} (draw : G -> N * G) h w amount :
  preserves (fun s : buffer * G => rectangular h w (fst s))
            (scramble G draw amount).
Proof.
  unfold scramble.
  apply preserves_bind; [apply on_image_preserves, dimensions_preserves|].
  intros [height width].
  apply preserves_bind; [|intros; apply preserves_ret].
  apply preserves_for_each. intros _.
  repeat first [ apply on_random_preserves
               | apply on_image_preserves; first [apply preserves_get
                                                 | apply set_pixel_rectangular]
               | apply preserves_lift
               | apply preserves_bind; [|intros ?] ].
Qed.

Lemma verify_rows_rectangular w (image : buffer) :
  Forall (fun row => length row = w) image ->
  verify_rows (Z.of_nat w) (map (fun row => PList (map PRGB row)) image)
  = Ok true.
Proof.
  induction 1 as [|row image Hrow _ IH]; cbn [map verify_rows]; [done|].
  cbn [pylen rbind]. unfold len. rewrite length_map, Hrow, Z.eqb_refl.
  cbn [negb].
  assert (Hrgb : forallb is_rgb (map PRGB row) = true)
    by (clear; induction row; [done|by cbn]).
  by rewrite Hrgb.
Qed.

(** A rectangle with at least one row and one column passes [verify_image]. *)
Lemma rectangular_verified h w image :
  (0 < h)%nat -> (0 < w)%nat -> rectangular h w image -> verified h w image.
Proof.
  intros Hh Hw Hrect. split; [done|]. pose proof Hrect as [Hlen Hrows].
  destruct image as [|first rest]; [cbn in Hlen; lia|].
  assert (Hfirst : length first = w)
    by (by apply Forall_cons in Hrows as [? _]).
  unfold as_object, verify_image. cbn [map].
  unfold len at 1. rewrite length_map, Hfirst.
  destruct (Z.eqb_spec (Z.of_nat w) 0); [lia|].
  unfold len. rewrite length_map, Hfirst.
  by apply (verify_rows_rectangular w (first :: rest)).
Qed.

(** C10. Start from a buffer of [h > 0] rows and [w > 0] columns. After
    [dered], [mono], [flip], [vignette], [blur], [pixellate], [scramble] and
    [brighten], with any value of their parameter and whether the call
    returned or raised, the buffer still has [h] rows of [w] pixels and
    [verify_image] accepts it. [dered] and [flip] always return [True].
    [transpose] and [rotate] return [True] and leave [w] rows of [h] pixels,
    which [verify_image] accepts. *)
Theorem transforms_keep_shape {G : Type} (draw : G -> N * G) (g : G)
    (h w : nat) (image : buffer)
    (sepia vertical right : bool) (radius step amount : Z) (factor : float) :
  (0 < h)%nat -> (0 < w)%nat -> rectangular h w image ->
  (fst (dered image) = Ok true /\ verified h w (snd (dered image)))
  /\ verified h w (snd (mono sepia image))
  /\ (fst (flip vertical image) = Ok true
      /\ verified h w (snd (flip vertical image)))
  /\ verified h w (snd (vignette image))
  /\ verified h w (snd (blur radius image))
  /\ verified h w (snd (pixellate step image))
  /\ verified h w (fst (snd (scramble G draw amount (image, g))))
  /\ verified h w (snd (brighten factor image))
  /\ (exists t, transpose image = (Ok true, t) /\ verified w h t)
  /\ (exists t, rotate right image = (Ok true, t) /\ verified w h t).
Proof.
  intros Hh Hw Hrect.
  assert (Hv : forall b, rectangular h w b -> verified h w b)
    by (intros b; by apply rectangular_verified).
  assert (Hv' : forall b, rectangular w h b -> verified w h b)
    by (intros b; by apply rectangular_verified).
  assert (H1 : fst (dered image) = Ok true).
  { unfold dered, bind, for_pixels.
    rewrite (for_items_total _
               (fmap (M := list) (fun p => mkRGB 0 (green p) (blue p) (alpha p))));
      [done|].
    apply Forall_true. intros row. apply for_items_total. by apply Forall_true. }
  assert (H3 : fst (flip vertical image) = Ok true)
    by (by destruct vertical; [rewrite flip_vertical|rewrite flip_horizontal]).
  assert (H9 : exists t, transpose image = (Ok true, t) /\ verified w h t).
  { destruct (transpose_spec h w image Hh Hw Hrect) as (t & Ht & Hrt & _).
    exists t. split; [done|]. by apply Hv'. }
  assert (H10 : exists t, rotate right image = (Ok true, t) /\ verified w h t).
  { destruct right.
    - destruct (rotate_right_spec h w image Hh Hw Hrect) as (t & Ht & Hrt & _).
      exists t. split; [done|]. by apply Hv'.
    - destruct (rotate_left_spec h w image Hh Hw Hrect) as (t & Ht & Hrt & _).
      exists t. split; [done|]. by apply Hv'. }
  pose proof (Hv _ (dered_rectangular h w image Hrect)).
  pose proof (Hv _ (mono_rectangular h w sepia image Hrect)).
  pose proof (Hv _ (flip_rectangular h w vertical image Hrect)).
  pose proof (Hv _ (vignette_rectangular h w image Hrect)).
  pose proof (Hv _ (blur_rectangular h w radius image Hrect)).
  pose proof (Hv _ (pixellate_rectangular h w step image Hrect)).
  pose proof (Hv _ (scramble_rectangular draw h w amount (image, g) Hrect)).
  pose proof (Hv _ (brighten_rectangular h w factor image Hrect)).
  done.
Qed.

(* ===================================================================== *)
(** * Sums over ranges                                                    *)
(* ===================================================================== *)

Lemma Zsum_app {A} (f : A -> Z) l1 l2 :
  Zsum f (l1 ++ l2) = Zsum f l1 + Zsum f l2.
Proof. induction l1 as [|x l1 IH]; cbn; [done|]. rewrite IH. lia. Qed.

Lemma Zsum_ext {A} (f g : A -> Z) l :
  (forall x, x ∈ l -> f x = g x) -> Zsum f l = Zsum g l.
Proof.
  induction l as [|x l IH]; cbn; intros H; [done|].
  rewrite (H x), IH; [done| |left]. intros y Hy. apply H. by right.
Qed.

Lemma Zsum_zero {A} (f : A -> Z) l :
  (forall x, x ∈ l -> f x = 0) -> Zsum f l = 0.
Proof.
  intros H. rewrite (Zsum_ext f (fun _ => 0) l H).
  clear. induction l; cbn; lia.
Qed.

Lemma Zsum_bounds {A} (f g : A -> Z) (k : Z) l :
  (forall x, x ∈ l -> 0 <= f x <= k * g x) ->
  0 <= Zsum f l <= k * Zsum g l.
Proof.
  induction l as [|x l IH]; cbn; intros H; [lia|].
  pose proof (H x ltac:(left)).
  pose proof (IH (fun y Hy => H y ltac:(by right))). lia.
Qed.

Lemma Zsum_ge_term {A} (f : A -> Z) l x :
  (forall y, y ∈ l -> 0 <= f y) -> x ∈ l -> f x <= Zsum f l.
Proof.
  induction l as [|y l IH]; cbn; intros Hpos Hx; [inversion Hx|].
  assert (0 <= Zsum f l).
  { clear -Hpos. induction l as [|z l IH]; cbn; [lia|].
    pose proof (Hpos z ltac:(right; left)).
    assert (0 <= Zsum f l); [|lia].
    apply IH. intros u Hu. apply Hpos.
    apply elem_of_cons in Hu as [->|Hu]; [left|right; by right]. }
  pose proof (Hpos y ltac:(left)).
  apply elem_of_cons in Hx as [->|Hx]; [lia|].
  pose proof (IH (fun u Hu => Hpos u ltac:(by right)) Hx). lia.
Qed.

Lemma range_elem_iff a b x : x ∈ range a b <-> a <= x < b.
Proof. unfold range. rewrite elem_of_seqZ. lia. Qed.

Lemma range_split a m b :
  a <= m <= b -> range a b = range a m ++ range m b.
Proof.
  intros H. unfold range.
  replace (b - a) with ((m - a) + (b - m)) by lia.
  rewrite seqZ_app by lia. by replace (a + (m - a)) with m by lia.
Qed.

(** The sum over the part [lo .. hi] of [0 .. n-1] is the sum over
    [0 .. n-1] of the terms whose index is in [lo .. hi]. *)
Lemma Zsum_range_clip (g : Z -> Z) (n lo hi : Z) :
  0 <= lo -> hi < n ->
  Zsum g (range lo (hi + 1))
  = Zsum (fun i => if (lo <=? i) && (i <=? hi) then g i else 0) (range 0 n).
Proof.
  intros Hlo Hhi.
  set (f := fun i => if (lo <=? i) && (i <=? hi) then g i else 0).
  destruct (Z.le_gt_cases lo (hi + 1)) as [Hle|Hgt].
  - rewrite (range_split 0 lo n), (range_split lo (hi + 1) n) by lia.
    rewrite !Zsum_app.
    rewrite (Zsum_zero f (range 0 lo)), (Zsum_zero f (range (hi + 1) n)).
    + rewrite Z.add_0_l, Z.add_0_r. apply Zsum_ext.
      intros x Hx%range_elem_iff. unfold f.
      destruct (Z.leb_spec lo x), (Z.leb_spec x hi); cbn; lia || done.
    + intros x Hx%range_elem_iff. unfold f.
      destruct (Z.leb_spec lo x), (Z.leb_spec x hi); cbn; lia || done.
    + intros x Hx%range_elem_iff. unfold f.
      destruct (Z.leb_spec lo x), (Z.leb_spec x hi); cbn; lia || done.
  - unfold range at 1. rewrite seqZ_nil by lia. cbn. symmetry.
    apply Zsum_zero. intros x _. unfold f.
    destruct (Z.leb_spec lo x), (Z.leb_spec x hi); cbn; lia || done.
Qed.

(** The window of the claim, cut to the buffer, is the rectangle of rows
    and columns that [blur] walks. *)
Lemma in_window_clip h w radius r c i j :
  0 <= i < h -> 0 <= j < w ->
  in_window radius r c i j
  = ((Z.max 0 (r - radius) <=? i) && (i <=? Z.min (h - 1) (r + radius)))
    && ((Z.max 0 (c - radius) <=? j) && (j <=? Z.min (w - 1) (c + radius))).
Proof.
  intros Hi Hj. unfold in_window.
  destruct (Z.leb_spec (Z.abs (i - r)) radius),
           (Z.leb_spec (Z.abs (j - c)) radius),
           (Z.leb_spec (Z.max 0 (r - radius)) i),
           (Z.leb_spec i (Z.min (h - 1) (r + radius))),
           (Z.leb_spec (Z.max 0 (c - radius)) j),
           (Z.leb_spec j (Z.min (w - 1) (c + radius))); cbn; lia || done.
Qed.

Lemma window_sum_ranges (g : Z -> Z -> Z) h w radius r c :
  0 <= h -> 0 <= w ->
  Zsum (fun i =>
    Zsum (fun j => g i j)
      (range (Z.max 0 (c - radius)) (Z.min (w - 1) (c + radius) + 1)))
    (range (Z.max 0 (r - radius)) (Z.min (h - 1) (r + radius) + 1))
  = Zsum (fun i =>
      Zsum (fun j => if in_window radius r c i j then g i j else 0)
           (range 0 w))
      (range 0 h).
Proof.
  intros Hh Hw.
  rewrite (Zsum_range_clip _ h) by lia.
  apply Zsum_ext. intros i Hi%range_elem_iff.
  destruct ((Z.max 0 (r - radius) <=? i) && (i <=? Z.min (h - 1) (r + radius)))
    eqn:Hrow.
  - rewrite (Zsum_range_clip _ w) by lia.
    apply Zsum_ext. intros j Hj%range_elem_iff.
    by rewrite (in_window_clip h w), Hrow by lia.
  - symmetry. apply Zsum_zero. intros j Hj%range_elem_iff.
    by rewrite (in_window_clip h w), Hrow by lia.
Qed.

Lemma Zdigits2_div m b :
  0 <= m -> 0 < b ->
  Zdigits2 (m / b) <= Z.max 0 (Zdigits2 m - Zdigits2 b + 1).
Proof.
  intros Hm Hb. destruct (Zdigits2_bounds b Hb) as [Hlo _].
  assert (1 <= Zdigits2 b) by (destruct b; simpl in *; lia).
  assert (0 < 2 ^ (Zdigits2 b - 1)) by (apply Z.pow_pos_nonneg; lia).
  etrans.
  - apply (Zdigits2_mono _ (m / 2 ^ (Zdigits2 b - 1))). split.
    + apply Z.div_pos; lia.
    + apply Z.div_le_compat_l; lia.
  - etrans; [apply Zdigits2_div_pow2; lia|]. lia.
Qed.

(** The rounded quotient of two non-negative ints is finite when the
    dividend has at most [K] digits more than the divisor. *)
Lemma round_quotient_bound a b K :
  0 <= a -> 0 < b -> Zdigits2 a <= Zdigits2 b + K -> 0 <= K <= 960 ->
  mag_le (K + 2) (round_quotient a b).
Proof.
  intros Ha Hb Hd HK. unfold round_quotient.
  destruct a as [|a|a]; [done| |lia].
  unfold SFdiv_core_binary.
  rewrite (Z.abs_eq (Zpos a)), (Z.abs_eq b) by lia.
  set (d1 := Zdigits2 (Zpos a)) in *. set (d2 := Zdigits2 b) in *.
  set (e' := Z.min (fexp prec emax (d1 + 0 - (d2 + 0))) (0 - 0)).
  assert (He' : e' <= 0) by (unfold e'; lia).
  set (m' := match 0 - 0 - e' with
             | 0 => Zpos a
             | Zpos _ => Z.shiftl (Zpos a) (0 - 0 - e')
             | Zneg _ => 0
             end).
  assert (Hm' : m' = Zpos a * 2 ^ (- e')).
  { unfold m'. replace (0 - 0 - e') with (- e') by lia.
    destruct (- e') as [|p|p] eqn:Hs; [lia| |lia].
    by rewrite Z.shiftl_mul_pow2 by lia. }
  assert (Hq : Z.div_eucl m' b = (m' / b, m' mod b)).
  { unfold Z.div, Z.modulo. by destruct (Z.div_eucl m' b). }
  rewrite Hq. replace (K + 2) with (K + 1 + 1) by lia.
  assert (0 < 2 ^ (- e')) by (apply Z.pow_pos_nonneg; lia).
  assert (Hm0 : 0 <= m') by (rewrite Hm'; lia).
  pose proof (Zdigits2_div m' b Hm0 Hb) as Hdq. fold d2 in Hdq.
  assert (Hdm : Zdigits2 m' = d1 - e').
  { rewrite Hm', Zdigits2_mul_pow2 by lia. unfold d1. lia. }
  apply binary_round_aux_bound; [apply Z.div_pos; lia|lia..].
Qed.

Lemma int_truediv_total a b K :
  0 <= a -> 0 < b -> Zdigits2 a <= Zdigits2 b + K -> 0 <= K <= 960 ->
  exists x, int_truediv a b = Ok x /\ mag_le (K + 2) x.
Proof.
  intros Ha Hb Hd HK. unfold int_truediv.
  destruct (Z.eqb_spec b 0); [lia|].
  pose proof (round_quotient_bound a b K Ha Hb Hd HK) as Hm.
  destruct (round_quotient a b); try done; eexists; split; done.
Qed.

(** The mean of a channel of valid pixels is computed without error. *)
Lemma rounded_mean_total total n :
  0 < n -> 0 <= total <= 255 * n -> exists v, rounded_mean total n = Ok v.
Proof.
  intros Hn Ht. unfold rounded_mean.
  destruct (int_truediv_total total n 8) as (x & -> & Hx); [lia..| |lia|].
  - etrans; [apply (Zdigits2_mono _ (255 * n)); lia|].
    etrans; [apply Zdigits2_mul; lia|]. simpl (Zdigits2 255). lia.
  - cbn [rbind]. apply round_finite. by eapply mag_le_finite.
Qed.

(* ===================================================================== *)
(** * Loops that return                                                   *)
(* ===================================================================== *)

(** A loop whose body returns and carries [I i] to [I (i + 1)] at the
    [i]-th element returns and carries [I 0] to [I (length l)]. *)
Lemma for_each_total {S B} (I : nat -> S -> Prop) (l : list B)
    (body : B -> M S unit) :
  (forall i x s, l !! i = Some x -> I i s ->
     exists s', body x s = (Ok tt, s') /\ I (Datatypes.S i) s') ->
  forall s, I 0%nat s ->
    exists s', for_each l body s = (Ok tt, s') /\ I (length l) s'.
Proof.
  revert I. induction l as [|x l IH]; intros I Hbody s Hs.
  - by exists s.
  - destruct (Hbody 0%nat x s eq_refl Hs) as (s1 & Hx & Hs1).
    destruct (IH (fun i => I (Datatypes.S i))
                (fun i y s0 Hy => Hbody (Datatypes.S i) y s0 Hy) s1 Hs1)
      as (s2 & Hl & Hs2).
    exists s2. split; [|done]. cbn [for_each]. unfold bind. by rewrite Hx.
Qed.

Lemma pixel_at_in_bounds (h w : nat) image i j :
  rectangular h w image -> 0 <= i < Z.of_nat h -> 0 <= j < Z.of_nat w ->
  pixel_at image i j = Ok (pixel_or_black image i j).
Proof.
  intros Hrect Hi Hj.
  destruct (rectangular_pixel h w image (Z.to_nat i) (Z.to_nat j) Hrect)
    as [p Hp]; [lia..|].
  unfold pixel_or_black. rewrite Hp. cbn [default].
  apply pixel_at_lookup in Hp. by rewrite !Z2Nat.id in Hp by lia.
Qed.

(** [image[i][j] = p] inside a rectangle. *)
Lemma set_pixel_spec (h w : nat) image (i j : nat) p :
  rectangular h w image -> (i < h)%nat -> (j < w)%nat ->
  exists image', set_pixel (Z.of_nat i) (Z.of_nat j) p image = (Ok tt, image')
    /\ rectangular h w image'
    /\ forall i' j', pixel_lookup image' i' j'
         = if decide (i' = i /\ j' = j) then Some p
           else pixel_lookup image i' j'.
Proof.
  intros Hrect Hi Hj. pose proof Hrect as [Hh Hw].
  destruct (lookup_lt_is_Some_2 image i) as [row Hrow]; [lia|].
  pose proof (rectangular_row _ _ _ _ _ Hrect Hrow) as Hlen.
  unfold set_pixel, setitem, len.
  rewrite index_position_nat, Hrow, index_position_nat by lia.
  eexists. split; [done|]. split.
  - apply rectangular_insert; [done|]. by rewrite length_insert.
  - intros i' j'. unfold pixel_lookup.
    destruct (decide (i' = i)) as [->|Hne].
    + rewrite list_lookup_insert_eq by lia. cbn.
      destruct (decide (j' = j)) as [->|Hnj].
      * rewrite list_lookup_insert_eq by lia.
        by rewrite decide_True.
      * rewrite list_lookup_insert_ne by done.
        rewrite decide_False by tauto. by rewrite Hrow.
    + rewrite list_lookup_insert_ne by done.
      by rewrite decide_False by tauto.
Qed.

(* ===================================================================== *)
(** * blur                                                                *)
(* ===================================================================== *)

Lemma copy_image_id image : copy_image image = image.
Proof.
  unfold copy_image. rewrite <- (map_id image) at 2. apply map_ext.
  intros row. rewrite <- (map_id row) at 2. apply map_ext. by intros [].
Qed.

Lemma Zsum_const {A} (k : Z) (l : list A) : Zsum (fun _ => k) l = len l * k.
Proof.
  unfold len. induction l as [|x l IH]; cbn [Zsum length]; [lia|].
  rewrite IH. lia.
Qed.

(** The inner accumulation loop, on the columns of one row. *)
Lemma accumulate_row (h w : nat) source i cols t :
  rectangular h w source -> 0 <= i < Z.of_nat h ->
  Forall (fun j => 0 <= j < Z.of_nat w) cols ->
  for_each cols (fun j => let! p := lift (pixel_at source i j) in add_pixel p) t
  = (Ok tt,
     mkTotals
       (total_red t + Zsum (fun j => red (pixel_or_black source i j)) cols)
       (total_green t + Zsum (fun j => green (pixel_or_black source i j)) cols)
       (total_blue t + Zsum (fun j => blue (pixel_or_black source i j)) cols)
       (total_alpha t + Zsum (fun j => alpha (pixel_or_black source i j)) cols)
       (count t + Zsum (fun j => 1) cols)).
Proof.
  intros Hrect Hi Hcols. revert t.
  induction Hcols as [|j cols Hj _ IH]; intros t.
  - cbn. unfold ret. destruct t. cbn. do 2 f_equal; lia.
  - cbn [for_each]. unfold bind at 1. unfold bind at 1, lift.
    rewrite (pixel_at_in_bounds h w) by done. unfold add_pixel at 1.
    rewrite IH. cbn [total_red total_green total_blue total_alpha count Zsum].
    do 2 f_equal; lia.
Qed.

Lemma accumulate_spec (h w : nat) source rows cols t :
  rectangular h w source ->
  Forall (fun i => 0 <= i < Z.of_nat h) rows ->
  Forall (fun j => 0 <= j < Z.of_nat w) cols ->
  accumulate source rows cols t
  = (Ok tt,
     mkTotals
       (total_red t + Zsum (fun i => Zsum (fun j => red (pixel_or_black source i j)) cols) rows)
       (total_green t + Zsum (fun i => Zsum (fun j => green (pixel_or_black source i j)) cols) rows)
       (total_blue t + Zsum (fun i => Zsum (fun j => blue (pixel_or_black source i j)) cols) rows)
       (total_alpha t + Zsum (fun i => Zsum (fun j => alpha (pixel_or_black source i j)) cols) rows)
       (count t + Zsum (fun i => Zsum (fun j => 1) cols) rows)).
Proof.
  intros Hrect Hrows Hcols. unfold accumulate. revert t.
  induction Hrows as [|i rows Hi _ IH]; intros t.
  - cbn. unfold ret. destruct t. cbn. do 2 f_equal; lia.
  - cbn [for_each]. unfold bind at 1.
    rewrite (accumulate_row h w) by done. rewrite IH.
    cbn [total_red total_green total_blue total_alpha count Zsum].
    do 2 f_equal; lia.
Qed.

Lemma range_Forall a b lo hi :
  lo <= a -> b <= hi -> Forall (fun x => lo <= x < hi) (range a b).
Proof.
  intros Ha Hb. apply Forall_forall. intros x Hx%range_elem_iff. lia.
Qed.

(** The average that [blur] computes at [(r, c)] is the box average of the
    claim. *)
Lemma blur_block (h w : nat) image radius r c :
  rectangular h w image -> 0 <= r < Z.of_nat h -> 0 <= c < Z.of_nat w ->
  block_average image
    (range (Z.max 0 (r - radius)) (Z.min (Z.of_nat h - 1) (r + radius) + 1))
    (range (Z.max 0 (c - radius)) (Z.min (Z.of_nat w - 1) (c + radius) + 1))
  = box_average (Z.of_nat h) (Z.of_nat w) image radius r c.
Proof.
  intros Hrect Hr Hc. unfold block_average.
  rewrite (accumulate_spec h w) by (done || apply range_Forall; lia).
  cbn [total_red total_green total_blue total_alpha count].
  rewrite !Z.add_0_l.
  rewrite (window_sum_ranges (fun i j => red (pixel_or_black image i j))) by lia.
  rewrite (window_sum_ranges (fun i j => green (pixel_or_black image i j))) by lia.
  rewrite (window_sum_ranges (fun i j => blue (pixel_or_black image i j))) by lia.
  rewrite (window_sum_ranges (fun i j => alpha (pixel_or_black image i j))) by lia.
  rewrite (window_sum_ranges (fun i j => 1)) by lia.
  reflexivity.
Qed.

Lemma pixel_or_black_valid image i j :
  Forall (Forall valid_pixel) image -> valid_pixel (pixel_or_black image i j).
Proof.
  intros Hvalid. unfold pixel_or_black, pixel_lookup.
  destruct (image !! Z.to_nat i) as [row|] eqn:Hrow; cbn;
    [|unfold valid_pixel; cbn; lia].
  destruct (row !! Z.to_nat j) as [p|] eqn:Hp; cbn;
    [|unfold valid_pixel; cbn; lia].
  eapply Forall_lookup_1 in Hvalid; [|exact Hrow].
  eapply Forall_lookup_1 in Hvalid; [|exact Hp]. done.
Qed.

Lemma window_count_pos h w radius r c :
  0 <= radius -> 0 <= r < h -> 0 <= c < w -> 0 < window_count h w radius r c.
Proof.
  intros Hrad Hr Hc. unfold window_count.
  assert (Hin : in_window radius r c r c = true).
  { unfold in_window. rewrite !Z.sub_diag. change (Z.abs 0) with 0.
    apply andb_true_iff. split; apply Z.leb_le; lia. }
  assert (Hinner : forall i, 0 <= Zsum (fun j => if in_window radius r c i j
                                                 then 1 else 0) (range 0 w)).
  { intros i. apply (Zsum_bounds _ (fun _ => 1) 1).
    intros j _. destruct (in_window radius r c i j); lia. }
  pose proof (Zsum_ge_term
                (fun j => if in_window radius r c r j then 1 else 0)
                (range 0 w) c) as H1.
  cbn beta in H1. rewrite Hin in H1.
  pose proof (Zsum_ge_term
                (fun i => Zsum (fun j => if in_window radius r c i j
                                         then 1 else 0) (range 0 w))
                (range 0 h) r (fun i _ => Hinner i)) as H2.
  cbn beta in H2.
  assert (1 <= Zsum (fun j => if in_window radius r c r j then 1 else 0)
                    (range 0 w)).
  { apply H1; [|by apply range_elem_iff].
    intros j _. destruct (in_window radius r c r j); lia. }
  specialize (H2 ltac:(by apply range_elem_iff)). lia.
Qed.

Lemma window_sum_bounds (ch : RGB -> Z) h w image radius r c :
  (forall p, valid_pixel p -> 0 <= ch p <= 255) ->
  Forall (Forall valid_pixel) image ->
  0 <= window_sum ch h w image radius r c
    <= 255 * window_count h w radius r c.
Proof.
  intros Hch Hvalid. unfold window_sum, window_count.
  apply Zsum_bounds. intros i _. apply Zsum_bounds. intros j _.
  pose proof (Hch _ (pixel_or_black_valid image i j Hvalid)).
  destruct (in_window radius r c i j); lia.
Qed.

(** On valid pixels, with [radius >= 0], the box average exists. *)
Lemma box_average_total h w image radius r c :
  Forall (Forall valid_pixel) image ->
  0 <= radius -> 0 <= r < h -> 0 <= c < w ->
  exists p, box_average h w image radius r c = Ok p.
Proof.
  intros Hvalid Hrad Hr Hc. unfold box_average.
  pose proof (window_count_pos h w radius r c Hrad Hr Hc) as Hn.
  destruct (rounded_mean_total _ _ Hn
              (window_sum_bounds red h w image radius r c
                 ltac:(by intros p (? & ? & ? & ?)) Hvalid)) as [vr ->].
  destruct (rounded_mean_total _ _ Hn
              (window_sum_bounds green h w image radius r c
                 ltac:(by intros p (? & ? & ? & ?)) Hvalid)) as [vg ->].
  destruct (rounded_mean_total _ _ Hn
              (window_sum_bounds blue h w image radius r c
                 ltac:(by intros p (? & ? & ? & ?)) Hvalid)) as [vb ->].
  destruct (rounded_mean_total _ _ Hn
              (window_sum_bounds alpha h w image radius r c
                 ltac:(by intros p (? & ? & ? & ?)) Hvalid)) as [va ->].
  cbn [rbind]. by eexists.
Qed.

Lemma dimensions_rectangular (h w : nat) image :
  (0 < h)%nat -> rectangular h w image ->
  dimensions image = (Ok (Z.of_nat h, Z.of_nat w), image).
Proof.
  intros Hh Hrect. pose proof Hrect as [Hlen Hrows].
  destruct image as [|first rest]; [cbn in Hlen; lia|].
  assert (Hfirst : length first = w) by (by apply Forall_cons in Hrows as [? _]).
  unfold dimensions, bind, get, lift, ret.
  change 0 with (Z.of_nat 0). rewrite (getitem_lookup _ 0 first) by done.
  unfold len. by rewrite Hlen, Hfirst.
Qed.

Lemma range_lookup_inv (n : nat) i x :
  range 0 (Z.of_nat n) !! i = Some x -> x = Z.of_nat i /\ (i < n)%nat.
Proof. unfold range. rewrite lookup_seqZ. lia. Qed.

(** The two loops of [blur]: every position receives the box average of
    the original buffer. *)
Lemma blur_loops (h w : nat) image radius :
  rectangular h w image -> Forall (Forall valid_pixel) image -> 0 <= radius ->
  exists image',
    for_each (range 0 (Z.of_nat h)) (fun r =>
      for_each (range 0 (Z.of_nat w)) (fun c =>
        let row_min := Z.max 0 (r - radius) in
        let row_max := Z.min (Z.of_nat h - 1) (r + radius) in
        let col_min := Z.max 0 (c - radius) in
        let col_max := Z.min (Z.of_nat w - 1) (c + radius) in
        let! avg := lift (block_average (copy_image image)
                            (range row_min (row_max + 1))
                            (range col_min (col_max + 1))) in
        set_pixel r c avg)) image = (Ok tt, image')
    /\ rectangular h w image'
    /\ forall i j, (i < h)%nat -> (j < w)%nat ->
         pixel_lookup image' i j
         = Some (box_pixel (Z.of_nat h) (Z.of_nat w) image radius
                   (Z.of_nat i) (Z.of_nat j)).
Proof.
  intros Hrect Hvalid Hrad. rewrite copy_image_id.
  set (B := fun i j : nat => box_pixel (Z.of_nat h) (Z.of_nat w) image radius
                               (Z.of_nat i) (Z.of_nat j)).
  assert (HB : forall i j, (i < h)%nat -> (j < w)%nat ->
            block_average image
              (range (Z.max 0 (Z.of_nat i - radius))
                     (Z.min (Z.of_nat h - 1) (Z.of_nat i + radius) + 1))
              (range (Z.max 0 (Z.of_nat j - radius))
                     (Z.min (Z.of_nat w - 1) (Z.of_nat j + radius) + 1))
            = Ok (B i j)).
  { intros i j Hi Hj. rewrite (blur_block h w) by (done || lia).
    unfold B, box_pixel.
    destruct (box_average_total (Z.of_nat h) (Z.of_nat w) image radius
                (Z.of_nat i) (Z.of_nat j) Hvalid Hrad) as [p ->]; [lia..|done]. }
  set (I := fun (k : nat) (s : buffer) =>
              rectangular h w s
              /\ forall i j, pixel_lookup s i j
                   = if decide (i < k /\ j < w)%nat then Some (B i j)
                     else pixel_lookup image i j).
  destruct (for_each_total I (range 0 (Z.of_nat h))
              (fun r => for_each (range 0 (Z.of_nat w)) (fun c =>
                 let row_min := Z.max 0 (r - radius) in
                 let row_max := Z.min (Z.of_nat h - 1) (r + radius) in
                 let col_min := Z.max 0 (c - radius) in
                 let col_max := Z.min (Z.of_nat w - 1) (c + radius) in
                 let! avg := lift (block_average image
                                     (range row_min (row_max + 1))
                                     (range col_min (col_max + 1))) in
                 set_pixel r c avg))) with image as (s' & Hrun & Hs' & Hpix).
  - (* one row *)
    intros k x s Hx [Hs Hsp]. apply range_lookup_inv in Hx as [-> Hk].
    set (J := fun (l : nat) (s : buffer) =>
                rectangular h w s
                /\ forall i j, pixel_lookup s i j
                     = if decide ((i < k /\ j < w) \/ (i = k /\ j < l))%nat
                       then Some (B i j) else pixel_lookup image i j).
    destruct (for_each_total J (range 0 (Z.of_nat w))
                (fun c =>
                   let row_min := Z.max 0 (Z.of_nat k - radius) in
                   let row_max := Z.min (Z.of_nat h - 1) (Z.of_nat k + radius) in
                   let col_min := Z.max 0 (c - radius) in
                   let col_max := Z.min (Z.of_nat w - 1) (c + radius) in
                   let! avg := lift (block_average image
                                       (range row_min (row_max + 1))
                                       (range col_min (col_max + 1))) in
                   set_pixel (Z.of_nat k) c avg)) with s
      as (s1 & Hrow & Hs1 & Hp1).
    + (* one pixel *)
      intros l y s0 Hy [Hs0 Hp0]. apply range_lookup_inv in Hy as [-> Hl].
      cbn zeta. unfold bind, lift. rewrite (HB k l Hk Hl).
      destruct (set_pixel_spec h w s0 k l (B k l) Hs0 Hk Hl)
        as (s2 & -> & Hs2 & Hp2).
      exists s2. split; [done|]. split; [done|].
      intros i j. rewrite Hp2, Hp0.
      repeat case_decide; try done; lia || (destruct_and?; subst; done).
    + split; [done|]. intros i j. rewrite Hsp.
      repeat case_decide; try done; lia.
    + exists s1. split; [done|]. split; [done|].
      intros i j. rewrite Hp1, range_length.
      repeat case_decide; try done; lia.
  - split; [done|]. intros i j. by rewrite decide_False by lia.
  - exists s'. split; [done|]. split; [done|].
    intros i j Hi Hj. rewrite Hpix, range_length. by rewrite decide_True.
Qed.

Lemma transforms_keep_shape_witness :
  let image := [[mkRGB 0 0 0 255; mkRGB 10 20 30 255];
                [mkRGB 1 2 3 4; mkRGB 5 5 5 5];
                [mkRGB 7 8 9 255; mkRGB 200 100 50 255]] in
  verified 3 2 (snd (vignette image))
  /\ verified 3 2 (snd (pixellate 2 image))
  /\ verified 3 2 (fst (snd (scramble unit (fun g => (7%N, g)) 4 (image, tt))))
  /\ exists t, rotate false image = (Ok true, t) /\ verified 2 3 t.
Proof.
  intros image.
  pose proof (transforms_keep_shape (fun g : unit => (7%N, g)) tt 3 2 image
                false false false 1 2 4 (literal 125 100)
                ltac:(lia) ltac:(lia)
                ltac:(split; [reflexivity | repeat constructor])) as H.
  tauto.
Defined.

(* ===================================================================== *)
(** * Binary64: exact forms                                               *)
(* ===================================================================== *)

Lemma shr_record_of_loc_m m l : shr_m (shr_record_of_loc m l) = m.
Proof. by destruct l as [|[]]. Qed.

Lemma loc_of_shr_record_of_loc m l :
  loc_of_shr_record (shr_record_of_loc m l) = l.
Proof. by destruct l as [|[]]. Qed.

(** No bit is shifted out of a mantissa of 53 bits. *)
Lemma shr_fexp_53 m e l :
  Zdigits2 m = 53 -> -1074 <= e ->
  shr_fexp prec emax m e l = (shr_record_of_loc m l, e).
Proof.
  intros Hd He. unfold shr_fexp, fexp, emin, prec, emax. rewrite Hd.
  change (3 - 1024 - 53) with (-1074).
  replace (Z.max (53 + e - 53) (-1074) - e) with 0 by lia. reflexivity.
Qed.

(** Rounding a mantissa of 53 bits: the location decides between [m] and
    [m + 1], and a carry into the 54th bit is renormalised. *)
Lemma binary_round_aux_53 sx m e l :
  0 < m -> Zdigits2 m = 53 -> -1074 <= e <= 970 ->
  binary_round_aux prec emax sx m e l = canon sx (round_nearest_even m l) e.
Proof.
  intros Hpos Hd He. unfold binary_round_aux.
  rewrite (shr_fexp_53 m e l Hd) by lia.
  rewrite shr_record_of_loc_m, loc_of_shr_record_of_loc.
  assert (Hm : 2 ^ 52 <= m < 2 ^ 53).
  { pose proof (Zdigits2_bounds m Hpos) as Hb. rewrite Hd in Hb. exact Hb. }
  pose proof (round_nearest_even_bounds m l) as Hr.
  set (m2 := round_nearest_even m l) in *. unfold canon.
  destruct (Z.eqb_spec m2 (2 ^ 53)) as [->|Hne].
  - unfold shr_fexp, fexp, emin, prec, emax.
    change (Zdigits2 (2 ^ 53)) with 54.
    replace (Z.max (54 + e - 53) (3 - 1024 - 53) - e) with 1 by lia.
    unfold shr.
    change (SpecFloat.iter_pos shr_1 1 (shr_record_of_loc (2 ^ 53) loc_Exact))
      with (Build_shr_record 4503599627370496 false false).
    cbn [shr_m]. change (1024 - 53) with 971.
    destruct (Z.leb_spec (e + 1) 971); [done|lia].
  - assert (Hd2 : Zdigits2 m2 = 53).
    { apply Z.le_antisymm; [apply Zdigits2_le; lia|apply Zdigits2_ge; lia]. }
    rewrite (shr_fexp_53 m2 e loc_Exact Hd2) by lia.
    cbn [shr_record_of_loc shr_m].
    destruct m2 as [|p|p]; [lia| |lia].
    unfold prec, emax. change (1024 - 53) with 971.
    destruct (Z.leb_spec e 971); [done|lia].
Qed.

Lemma Zpos_iter_xO m d : Zpos (Pos.iter xO m d) = Zpos m * 2 ^ Zpos d.
Proof.
  induction d as [|d IH] using Pos.peano_ind.
  - cbn. lia.
  - rewrite Pos.iter_succ, Pos2Z.inj_xO, IH, Pos2Z.inj_succ, Z.pow_succ_r by lia.
    lia.
Qed.

(** [float(a)] is exact below [2^53]: the mantissa is [a] shifted to 53
    bits. *)
Lemma float_of_int_exact a :
  0 < a < 2 ^ 53 ->
  float_of_int a
  = Ok (S754_finite false (Z.to_pos (a * 2 ^ (53 - Zdigits2 a)))
          (Zdigits2 a - 53)).
Proof.
  intros Ha. destruct a as [|p|p]; [lia| |lia].
  assert (Hd : 1 <= Zdigits2 (Zpos p) <= 53).
  { split; [cbn; lia|]. apply Zdigits2_le; lia. }
  unfold float_of_int. cbn [binary_normalize]. unfold binary_round.
  change (fexp prec emax (Zpos (digits2_pos p) + 0))
    with (Z.max (Zdigits2 (Zpos p) + 0 - 53) (-1074)).
  replace (Z.max (Zdigits2 (Zpos p) + 0 - 53) (-1074))
    with (Zdigits2 (Zpos p) - 53) by lia.
  set (d := Zdigits2 (Zpos p)) in *.
  assert (Halign : exists mz, shl_align p 0 (d - 53) = (mz, d - 53)
                              /\ Zpos mz = Zpos p * 2 ^ (53 - d)).
  { unfold shl_align. destruct (d - 53 - 0) as [|q|q] eqn:Hq; [|lia|].
    - exists p. replace (d - 53) with 0 by lia.
      replace (53 - d) with 0 by lia. split; [done|lia].
    - exists (Pos.iter xO p q). split; [done|].
      rewrite Zpos_iter_xO. by replace (53 - d) with (Zpos q) by lia. }
  destruct Halign as (mz & -> & Hmz).
  assert (Hdz : Zdigits2 (Zpos mz) = 53).
  { rewrite Hmz, Zdigits2_mul_pow2 by lia. fold d. lia. }
  rewrite (binary_round_aux_53 false (Zpos mz) (d - 53) loc_Exact
             ltac:(lia) Hdz) by lia.
  cbn [round_nearest_even]. unfold canon.
  assert (Hlt : Zpos mz < 2 ^ 53).
  { pose proof (Zdigits2_bounds (Zpos mz) ltac:(lia)) as Hb.
    rewrite Hdz in Hb. lia. }
  destruct (Z.eqb_spec (Zpos mz) (2 ^ 53)); [lia|].
  cbn [is_inf]. rewrite <- Hmz. reflexivity.
Qed.

Lemma sqrtrem_bounds n :
  0 <= n ->
  let '(q, r) := Z.sqrtrem n in
  q = Z.sqrt n /\ n = q * q + r /\ 0 <= r <= 2 * q /\ 0 <= q.
Proof.
  intros Hn. pose proof (Z.sqrtrem_spec n Hn) as Hs.
  pose proof (Z.sqrtrem_sqrt n) as Hq. pose proof (Z.sqrt_nonneg n).
  destruct (Z.sqrtrem n) as [q r]. cbn [fst] in Hq. subst q.
  destruct Hs as [? ?]. repeat split; lia.
Qed.

(** The scaled square root has exactly 53 bits. *)
Lemma sqrt_scaled_bounds a :
  1 <= a < 2 ^ 53 ->
  -52 <= sqrt_exponent a <= -26
  /\ 2 ^ 104 <= a * 2 ^ (- 2 * sqrt_exponent a) < 2 ^ 106.
Proof.
  intros Ha. unfold sqrt_exponent.
  assert (Hd : 1 <= Zdigits2 a <= 53).
  { split; [apply Zdigits2_ge; lia|apply Zdigits2_le; lia]. }
  pose proof (Zdigits2_bounds a ltac:(lia)) as [Hlo Hhi].
  set (d := Zdigits2 a) in *.
  assert (Hk : 2 * ((d + 1) / 2) = d \/ 2 * ((d + 1) / 2) = d + 1)
    by (Z.to_euclidean_division_equations; lia).
  split; [lia|].
  replace (- 2 * ((d + 1) / 2 - 53)) with (106 - 2 * ((d + 1) / 2)) by lia.
  destruct Hk as [Hk|Hk]; rewrite Hk.
  - split.
    + replace 104 with ((d - 1) + (105 - d)) by lia.
      rewrite Z.pow_add_r by lia.
      assert (2 ^ (105 - d) <= 2 ^ (106 - d)) by (apply Z.pow_le_mono_r; lia).
      assert (0 < 2 ^ (105 - d)) by (apply Z.pow_pos_nonneg; lia).
      nia.
    + replace 106 with (d + (106 - d)) at 2 by lia.
      rewrite Z.pow_add_r by lia.
      assert (0 < 2 ^ (106 - d)) by (apply Z.pow_pos_nonneg; lia). nia.
  - split.
    + replace 104 with ((d - 1) + (106 - (d + 1))) by lia.
      rewrite Z.pow_add_r by lia.
      assert (0 < 2 ^ (106 - (d + 1))) by (apply Z.pow_pos_nonneg; lia). nia.
    + replace 106 with (d + (106 - d)) at 2 by lia.
      rewrite Z.pow_add_r by lia.
      assert (2 ^ (106 - (d + 1)) <= 2 ^ (106 - d))
        by (apply Z.pow_le_mono_r; lia).
      assert (0 < 2 ^ (106 - (d + 1))) by (apply Z.pow_pos_nonneg; lia). nia.
Qed.

Lemma sqrt_mantissa_bounds a :
  1 <= a < 2 ^ 53 -> 2 ^ 52 <= sqrt_mantissa a <= 2 ^ 53.
Proof.
  intros Ha. destruct (sqrt_scaled_bounds a Ha) as [_ Hm].
  unfold sqrt_mantissa. set (m' := a * 2 ^ (- 2 * sqrt_exponent a)) in *.
  pose proof (sqrtrem_bounds m' ltac:(lia)) as Hs.
  destruct (Z.sqrtrem m') as [q r]. destruct Hs as (_ & Hm' & Hr & Hq).
  change (2 ^ 104) with (2 ^ 52 * 2 ^ 52) in Hm.
  change (2 ^ 106) with (2 ^ 53 * 2 ^ 53) in Hm.
  assert (2 ^ 52 <= q) by nia. assert (q < 2 ^ 53) by nia.
  destruct (r <=? q); lia.
Qed.

(** [math.sqrt(a)] for [1 <= a < 2^53], in closed form. *)
Lemma math_sqrt_exact a :
  1 <= a < 2 ^ 53 ->
  math_sqrt a = Ok (canon false (sqrt_mantissa a) (sqrt_exponent a)).
Proof.
  intros Ha. destruct (sqrt_scaled_bounds a Ha) as [He Hm'].
  assert (Hd : 1 <= Zdigits2 a <= 53).
  { split; [apply Zdigits2_ge; lia|apply Zdigits2_le; lia]. }
  unfold math_sqrt. rewrite float_of_int_exact by lia. cbn [rbind].
  destruct (Z.ltb_spec a 0); [lia|]. f_equal.
  unfold fsqrt. cbn [SFsqrt]. unfold SFsqrt_core_binary.
  set (d := Zdigits2 a) in *.
  assert (0 < 2 ^ (53 - d)) by (apply Z.pow_pos_nonneg; lia).
  rewrite Z2Pos.id by nia.
  assert (Hdm : Zdigits2 (a * 2 ^ (53 - d)) = 53).
  { rewrite Zdigits2_mul_pow2 by lia. fold d. lia. }
  rewrite Hdm, !Z.div2_div.
  assert (Hexp : Z.min (fexp prec emax ((53 + (d - 53) + 1) / 2)) ((d - 53) / 2)
                 = sqrt_exponent a).
  { unfold sqrt_exponent, fexp, emin, prec, emax. fold d.
    Z.to_euclidean_division_equations. lia. }
  rewrite Hexp.
  assert (Hs : 0 < d - 53 - 2 * sqrt_exponent a).
  { unfold sqrt_exponent. fold d. Z.to_euclidean_division_equations. lia. }
  destruct (d - 53 - 2 * sqrt_exponent a) as [|s|s] eqn:Es; [lia| |lia].
  rewrite Z.shiftl_mul_pow2 by lia.
  assert (Hscaled : a * 2 ^ (53 - d) * 2 ^ Zpos s
                    = a * 2 ^ (- 2 * sqrt_exponent a)).
  { rewrite <- Z.mul_assoc, <- Z.pow_add_r by lia. do 2 f_equal. lia. }
  rewrite Hscaled. unfold sqrt_mantissa.
  set (m' := a * 2 ^ (- 2 * sqrt_exponent a)) in *.
  pose proof (sqrtrem_bounds m' ltac:(lia)) as Hsq.
  destruct (Z.sqrtrem m') as [q r]. destruct Hsq as (_ & Hm & Hr & Hq).
  change (2 ^ 104) with (2 ^ 52 * 2 ^ 52) in Hm'.
  change (2 ^ 106) with (2 ^ 53 * 2 ^ 53) in Hm'.
  assert (2 ^ 52 <= q) by nia. assert (q < 2 ^ 53) by nia.
  assert (Hdq : Zdigits2 q = 53).
  { apply Z.le_antisymm; [apply Zdigits2_le; lia|apply Zdigits2_ge; lia]. }
  rewrite binary_round_aux_53 by lia. f_equal.
  destruct (Z.eqb_spec r 0) as [->|Hr0].
  - cbn [round_nearest_even]. destruct (Z.leb_spec 0 q); [done|lia].
  - by destruct (Z.leb_spec r q).
Qed.

Lemma math_sqrt_zero : math_sqrt 0 = Ok (S754_zero false).
Proof. reflexivity. Qed.

(** The closed form is monotone: a larger argument has a larger mantissa
    at the same exponent, or a larger exponent. *)
Lemma sqrt_monotone a b :
  1 <= a <= b -> b < 2 ^ 53 ->
  sqrt_exponent a < sqrt_exponent b
  \/ (sqrt_exponent a = sqrt_exponent b /\ sqrt_mantissa a <= sqrt_mantissa b).
Proof.
  intros Hab Hb.
  assert (Hd : Zdigits2 a <= Zdigits2 b) by (apply Zdigits2_mono; lia).
  assert (He : sqrt_exponent a <= sqrt_exponent b).
  { unfold sqrt_exponent. Z.to_euclidean_division_equations. lia. }
  destruct (Z.eq_dec (sqrt_exponent a) (sqrt_exponent b)) as [Heq|Hne];
    [right|left; lia].
  split; [done|]. unfold sqrt_mantissa. rewrite Heq.
  destruct (sqrt_scaled_bounds b ltac:(lia)) as [Heb _].
  set (k := 2 ^ (- 2 * sqrt_exponent b)).
  assert (0 < k) by (apply Z.pow_pos_nonneg; lia).
  assert (Hle : a * k <= b * k) by nia.
  pose proof (sqrtrem_bounds (a * k) ltac:(nia)) as Ha.
  pose proof (sqrtrem_bounds (b * k) ltac:(nia)) as Hb'.
  pose proof (Z.sqrt_le_mono (a * k) (b * k) Hle) as Hmono.
  destruct (Z.sqrtrem (a * k)) as [qa ra], (Z.sqrtrem (b * k)) as [qb rb].
  destruct Ha as (-> & Ha1 & Ha2 & Ha3), Hb' as (-> & Hb1 & Hb2 & Hb3).
  destruct (Z.leb_spec ra (Z.sqrt (a * k))), (Z.leb_spec rb (Z.sqrt (b * k)));
    try lia.
  destruct (Z.eq_dec (Z.sqrt (a * k)) (Z.sqrt (b * k))) as [E|E]; [|lia].
  rewrite E in *. lia.
Qed.

Lemma Zdigits2_lt_pow m k : 0 <= m -> 0 <= k -> Zdigits2 m <= k -> m < 2 ^ k.
Proof.
  intros Hm Hk Hd. destruct (Z.eq_dec m 0) as [->|Hne];
    [by apply Z.pow_pos_nonneg|].
  destruct (Zdigits2_bounds m ltac:(lia)) as [_ Hhi].
  assert (2 ^ Zdigits2 m <= 2 ^ k)
    by (apply Z.pow_le_mono_r; pose proof (Zdigits2_nonneg m); lia).
  lia.
Qed.

(** Rounding a value below [2^K] whose exponent leaves room for 53 bits:
    the result is below [2^K] with at most 53 bits, or it is [2^K]. *)
Lemma binary_round_aux_below sx mx ex lx K :
  0 <= mx -> Zdigits2 mx + ex <= K -> ex <= K - 53 -> -1021 <= K <= 971 ->
  (lt_pow2 K (binary_round_aux prec emax sx mx ex lx)
   \/ binary_round_aux prec emax sx mx ex lx
      = S754_finite sx 4503599627370496 (K - 52))
  /\ has_sign sx (binary_round_aux prec emax sx mx ex lx).
Proof.
  intros Hm HD Hex HK. unfold binary_round_aux.
  destruct (shr_fexp prec emax mx ex lx) as [mrs1 e1] eqn:E1.
  apply shr_fexp_spec in E1 as [Hm1 He1]; [|done].
  set (n1 := Z.max 0 (Z.max (Zdigits2 mx + ex - 53) (-1074) - ex)) in *.
  set (m2 := round_nearest_even (shr_m mrs1) (loc_of_shr_record mrs1)).
  assert (0 < 2 ^ n1) by (apply Z.pow_pos_nonneg; lia).
  assert (Hm1' : 0 <= shr_m mrs1) by (rewrite Hm1; apply Z.div_pos; lia).
  pose proof (round_nearest_even_bounds (shr_m mrs1) (loc_of_shr_record mrs1))
    as Hrne. fold m2 in Hrne.
  pose proof (Zdigits2_nonneg mx).
  assert (Hd1 : Zdigits2 (shr_m mrs1) <= 53).
  { etrans; [rewrite Hm1; apply Zdigits2_div_pow2; lia|]. lia. }
  assert (Hlt1 : shr_m mrs1 < 2 ^ 53) by (apply Zdigits2_lt_pow; lia).
  assert (He1lo : -1074 <= e1 <= K - 53) by lia.
  destruct (shr_fexp prec emax m2 e1 loc_Exact) as [mrs2 e2] eqn:E2.
  apply shr_fexp_spec in E2 as [Hm3 He2]; [|lia].
  destruct (Z.eq_dec m2 (2 ^ 53)) as [E|Hne].
  - rewrite E in Hm3, He2. change (Zdigits2 (2 ^ 53)) with 54 in Hm3, He2.
    replace (Z.max 0 (Z.max (54 + e1 - 53) (-1074) - e1)) with 1 in Hm3, He2
      by lia.
    change (2 ^ 53 / 2 ^ 1) with 4503599627370496 in Hm3. rewrite Hm3.
    unfold prec, emax. change (1024 - 53) with 971.
    destruct (Z.leb_spec e2 971); [|lia]. split; [|done].
    destruct (Z.eq_dec e1 (K - 53)) as [Ee|Ee].
    + right. f_equal. lia.
    + left. cbn. lia.
  - assert (Hd2 : Zdigits2 m2 <= 53) by (apply Zdigits2_le; lia).
    replace (Z.max 0 (Z.max (Zdigits2 m2 + e1 - 53) (-1074) - e1)) with 0
      in Hm3, He2 by lia.
    rewrite Z.div_1_r in Hm3. rewrite Hm3.
    destruct m2 as [|p|p]; [by split; [left|]| |lia].
    unfold prec, emax. change (1024 - 53) with 971.
    destruct (Z.leb_spec e2 971); [|lia]. split; [|done].
    left. cbn [lt_pow2]. cbn [Zdigits2] in Hd2. lia.
Qed.

(** [x / x] is one. *)
Lemma fdiv_same m e : fdiv (S754_finite false m e) (S754_finite false m e) = one.
Proof.
  unfold fdiv. cbn [SFdiv]. unfold SFdiv_core_binary.
  replace (Zdigits2 (Zpos m) + e - (Zdigits2 (Zpos m) + e)) with 0 by lia.
  rewrite Z.sub_diag.
  change (Z.min (fexp prec emax 0) 0) with (-53). change (0 - -53) with 53.
  cbn match. rewrite Z.shiftl_mul_pow2 by lia.
  assert (Hq : Z.div_eucl (Zpos m * 2 ^ 53) (Zpos m) = (2 ^ 53, 0)).
  { pose proof (Z.div_eucl_eq (Zpos m * 2 ^ 53) (Zpos m) ltac:(lia)) as Heq.
    pose proof (Z.mod_pos_bound (Zpos m * 2 ^ 53) (Zpos m) ltac:(lia)) as Hmod.
    unfold Z.modulo in Hmod.
    destruct (Z.div_eucl (Zpos m * 2 ^ 53) (Zpos m)) as [q r].
    assert (r = 0).
    { assert (Zpos m * (2 ^ 53 - q) = r) by lia.
      destruct (Z.eq_dec (2 ^ 53 - q) 0); [lia|]. nia. }
    subst r. f_equal. nia. }
  rewrite Hq.
  assert (Hloc : new_location (Zpos m) 0 = loc_Exact).
  { unfold new_location, new_location_even, new_location_odd.
    by destruct (Z.even (Zpos m)). }
  rewrite Hloc. reflexivity.
Qed.

Lemma fdiv_below_one mx ex my ey :
  Zdigits2 (Zpos mx) = 53 -> Zdigits2 (Zpos my) = 53 ->
  ex <= ey -> Zpos mx < Zpos my * 2 ^ (ey - ex) ->
  unit_range (fdiv (S754_finite false mx ex) (S754_finite false my ey)).
Proof.
  intros Hdx Hdy Hle Hlt.
  unfold fdiv. cbn [SFdiv]. unfold SFdiv_core_binary. rewrite Hdx, Hdy.
  set (e' := Z.min (fexp prec emax (53 + ex - (53 + ey))) (ex - ey)).
  assert (He' : e' <= -53 /\ e' <= ex - ey)
    by (unfold e', fexp, emin, prec, emax; lia).
  set (m' := match ex - ey - e' with
             | 0 => Zpos mx
             | Zpos _ => Z.shiftl (Zpos mx) (ex - ey - e')
             | Zneg _ => 0
             end).
  assert (Hm' : m' = Zpos mx * 2 ^ (ex - ey - e')).
  { unfold m'. destruct (ex - ey - e') as [|p|p] eqn:Hs;
      [lia|by rewrite Z.shiftl_mul_pow2 by lia|lia]. }
  assert (Hq : Z.div_eucl m' (Zpos my) = (m' / Zpos my, m' mod Zpos my))
    by (unfold Z.div, Z.modulo; by destruct (Z.div_eucl m' (Zpos my))).
  rewrite Hq.
  assert (0 < 2 ^ (ex - ey - e')) by (apply Z.pow_pos_nonneg; lia).
  assert (Hq0 : 0 <= m' / Zpos my) by (apply Z.div_pos; nia).
  assert (Hqlt : m' / Zpos my < 2 ^ (- e')).
  { apply Z.div_lt_upper_bound; [lia|]. rewrite Hm'.
    replace (- e') with ((ey - ex) + (ex - ey - e')) by lia.
    rewrite Z.pow_add_r by lia. nia. }
  assert (Hdq : Zdigits2 (m' / Zpos my) + e' <= 0).
  { pose proof (Zdigits2_le (m' / Zpos my) (- e') ltac:(lia) ltac:(lia)). lia. }
  destruct (binary_round_aux_below (xorb false false) (m' / Zpos my) e'
              (new_location (Zpos my) (m' mod Zpos my)) 0 Hq0 Hdq
              ltac:(lia) ltac:(lia)) as [[Hb|Hb] Hs];
    [by left|right; exact Hb].
Qed.

(** The quotient of two floats of 53-bit mantissas, the smaller one by the
    larger one, is in the unit range. *)
Lemma fdiv_unit_range mx ex my ey :
  Zdigits2 (Zpos mx) = 53 -> Zdigits2 (Zpos my) = 53 ->
  ex < ey \/ (ex = ey /\ Zpos mx <= Zpos my) ->
  unit_range (fdiv (S754_finite false mx ex) (S754_finite false my ey)).
Proof.
  intros Hdx Hdy [Hlt|[-> Hle]].
  - apply fdiv_below_one; [done..|lia|].
    pose proof (Zdigits2_bounds (Zpos mx) ltac:(lia)) as Hbx.
    pose proof (Zdigits2_bounds (Zpos my) ltac:(lia)) as Hby.
    rewrite Hdx in Hbx. rewrite Hdy in Hby.
    assert (2 ^ 1 <= 2 ^ (ey - ex)) by (apply Z.pow_le_mono_r; lia).
    change (2 ^ 53) with (2 * 2 ^ (53 - 1)) in Hbx.
    change (2 ^ 1) with 2 in *. nia.
  - destruct (Pos.eq_dec mx my) as [<-|Hne]; [right; apply fdiv_same|].
    apply fdiv_below_one; [done..|lia|].
    rewrite Z.sub_diag, Z.mul_1_r. assert (Zpos mx <> Zpos my) by congruence.
    lia.
Qed.

Lemma unit_range_zero : unit_range (S754_zero false).
Proof. by left. Qed.

(** The square of a float of the unit range is in the unit range. *)
Lemma fmul_unit_range x : unit_range x -> unit_range (fmul x x).
Proof.
  intros [[Hb Hs]| ->]; [|by right].
  destruct x as [s|s| |s m e]; try done.
  - left. by destruct s.
  - cbn in Hs. subst s. cbn [lt_pow2] in Hb. unfold fmul. cbn [SFmul].
    pose proof (Zdigits2_mul (Zpos m) (Zpos m) ltac:(lia) ltac:(lia)) as Hd.
    rewrite <- Pos2Z.inj_mul in Hd. cbn [Zdigits2] in Hd.
    destruct (binary_round_aux_below (xorb false false) (Zpos (m * m)) (e + e)
                loc_Exact 0 ltac:(lia) ltac:(cbn [Zdigits2]; lia)
                ltac:(lia) ltac:(lia)) as [[H1|H1] H2];
      [by left|right; exact H1].
Qed.

(** [1 - y] for [y] of the unit range: finite, of sign [+]. *)
Lemma one_minus_unit_range y :
  unit_range y ->
  mag_le 3 (fsub one y) /\ has_sign false (fsub one y).
Proof.
  intros [[Hb Hs]| ->]; [|by vm_compute].
  destruct y as [s|s| |s m e]; try done.
  - cbn in Hs. subst s. cbn [lt_pow2] in Hb.
    assert (Hmag : mag_le 3 (fsub one (S754_finite false m e))).
    { replace 3 with (1 + 2) by lia. apply fsub_bound; [by cbn|cbn; lia|lia]. }
    split; [done|].
    unfold fsub, one in *. cbn [SFsub] in *.
    set (ez := Z.min (-52) e) in *.
    pose proof (Zdigits2_lt_pow (Zpos m) (- e) ltac:(lia) ltac:(lia)
                  ltac:(cbn [Zdigits2]; lia)) as Hm.
    assert (Ha : Zpos (fst (shl_align 4503599627370496 (-52) ez))
                 = 2 ^ 52 * 2 ^ (-52 - ez)).
    { unfold shl_align. destruct (ez - -52) as [|p|p] eqn:Hp; cbn [fst].
      - replace (-52 - ez) with 0 by lia. reflexivity.
      - lia.
      - rewrite Zpos_iter_xO. by replace (-52 - ez) with (Zpos p) by lia. }
    assert (Hb' : Zpos (fst (shl_align m e ez)) = Zpos m * 2 ^ (e - ez)).
    { unfold shl_align. destruct (ez - e) as [|p|p] eqn:Hp; cbn [fst].
      - replace (e - ez) with 0 by lia. lia.
      - lia.
      - rewrite Zpos_iter_xO. by replace (e - ez) with (Zpos p) by lia. }
    cbn [cond_Zopp] in *. rewrite Ha, Hb' in *.
    assert (Hpos : 0 < 2 ^ 52 * 2 ^ (-52 - ez) - Zpos m * 2 ^ (e - ez)).
    { rewrite <- Z.pow_add_r by lia. replace (52 + (-52 - ez)) with (- ez) by lia.
      replace (- ez) with (- e + (e - ez)) by lia. rewrite Z.pow_add_r by lia.
      assert (0 < 2 ^ (e - ez)) by (apply Z.pow_pos_nonneg; lia). nia. }
    destruct (2 ^ 52 * 2 ^ (-52 - ez) - Zpos m * 2 ^ (e - ez)) as [|p|p];
      [lia| |lia].
    cbn [binary_normalize] in *. unfold binary_round in *.
    destruct (shl_align p ez _) as [mz ez'].
    unfold binary_round_aux in *.
    destruct (shr_fexp _ _ _ _ _) as [mrs1 e1].
    destruct (shr_fexp _ _ _ _ _) as [mrs2 e2].
    destruct (shr_m mrs2); try done. by destruct (_ <=? _).
Qed.

(* ===================================================================== *)
(** * vignette                                                            *)
(* ===================================================================== *)

(** Rounding a float of sign [+] gives no negative integer. *)
Lemma round_nonneg x n : has_sign false x -> round x = Ok n -> 0 <= n.
Proof.
  destruct x as [s|s| |s m e]; cbn [has_sign round]; try done.
  - intros _ [= <-]. lia.
  - intros ->. destruct (magnitude_parts m e) as [[q r] d] eqn:E.
    intros [= <-].
    assert (0 <= q).
    { unfold magnitude_parts in E. destruct e as [|p|p]; injection E as <- <- <-.
      - lia.
      - assert (0 < 2 ^ Zpos p) by (apply Z.pow_pos_nonneg; lia). nia.
      - apply Z.div_pos; [lia|]. apply Z.pow_pos_nonneg; lia. }
    destruct (2 * r ?= d); [destruct (Z.even q)| |]; lia.
Qed.

(** A channel of 0..255 scaled by a small factor of sign [+]: [round]
    returns, and no negative value. *)
Lemma scale_channel_nonneg old factor :
  0 <= old <= 255 -> mag_le 3 factor -> has_sign false factor ->
  exists v, scale_channel old factor = Ok v /\ 0 <= v.
Proof.
  intros Hold Hmag Hsign. unfold scale_channel.
  destruct (float_of_int_bound old 8) as (x & -> & Hx & Hsx);
    [apply Zdigits2_le; lia|lia|].
  cbn [rbind]. replace (old <? 0) with false in Hsx by lia.
  pose proof (fmul_bound x factor 9 3 Hx Hmag ltac:(lia)) as Hprod.
  pose proof (fmul_sign x factor false false (mag_le_finite _ _ Hx)
                (mag_le_finite _ _ Hmag) Hsx Hsign
                (mag_le_mono (9 + 3 + 1) 971 _ ltac:(lia) Hprod)) as Hs.
  destruct (round_finite _ (mag_le_finite _ _ Hprod)) as [v Hv].
  exists v. split; [done|]. by eapply round_nonneg.
Qed.

Lemma darken_nonneg factor p :
  valid_pixel p -> mag_le 3 factor -> has_sign false factor ->
  exists p', darken factor p = Ok p' /\ nonneg_pixel p' /\ alpha p' = alpha p.
Proof.
  intros (Hr & Hg & Hb & _) Hmag Hsign. unfold darken.
  destruct (scale_channel_nonneg (red p) factor Hr Hmag Hsign) as (r & -> & ?).
  destruct (scale_channel_nonneg (green p) factor Hg Hmag Hsign) as (g & -> & ?).
  destruct (scale_channel_nonneg (blue p) factor Hb Hmag Hsign) as (b & -> & ?).
  cbn [rbind]. eexists. split; [done|]. by repeat split.
Qed.

(** The statements on one pixel store the scaled pixel. *)
Lemma vignette_pixel_darken factor p p' :
  darken factor p = Ok p' -> vignette_pixel factor p = (Ok tt, p').
Proof.
  unfold darken, vignette_pixel, bind, get, lift.
  destruct (scale_channel (red p) factor) as [r|]; [|done].
  destruct (scale_channel (green p) factor) as [g|]; [|done].
  destruct (scale_channel (blue p) factor) as [b|]; [|done].
  cbn. by intros [= <-].
Qed.

(** [canon] is a float of a 53-bit mantissa. *)
Lemma canon_finite s n e :
  2 ^ 52 <= n <= 2 ^ 53 ->
  exists m e', canon s n e = S754_finite s m e' /\ Zdigits2 (Zpos m) = 53
    /\ ((n < 2 ^ 53 /\ Zpos m = n /\ e' = e)
        \/ (n = 2 ^ 53 /\ Zpos m = 2 ^ 52 /\ e' = e + 1)).
Proof.
  intros Hn. unfold canon. destruct (Z.eqb_spec n (2 ^ 53)) as [->|Hne].
  - eexists _, _. split; [done|]. split; [done|]. right. by repeat split.
  - exists (Z.to_pos n), e. split; [done|].
    assert (Hp : Zpos (Z.to_pos n) = n) by (apply Z2Pos.id; lia).
    rewrite Hp. split; [|left; lia].
    pose proof (Zdigits2_le n 53 ltac:(lia) ltac:(lia)).
    destruct (Z_le_gt_dec (Zdigits2 n) 52) as [Hle|Hgt]; [|lia].
    pose proof (Zdigits2_lt_pow n 52 ltac:(lia) ltac:(lia) Hle). lia.
Qed.

Lemma unit_range_not_inf x : unit_range x -> is_inf x = false.
Proof. intros [[Hb _]| ->]; [by destruct x|done]. Qed.

(** From a quotient of the unit range to the factor. *)
Lemma factor_of_quotient q :
  unit_range q ->
  exists factor,
    (let? q2 := float_square q in
     let? one := float_of_int 1 in Ok (fsub one q2)) = Ok factor
    /\ mag_le 3 factor /\ has_sign false factor.
Proof.
  intros Hq. pose proof (fmul_unit_range q Hq) as Hq2.
  unfold float_square. cbn zeta.
  rewrite (unit_range_not_inf _ Hq2), andb_false_r. cbn [rbind].
  change (float_of_int 1) with (Ok one). cbn [rbind].
  eexists. split; [done|]. by apply one_minus_unit_range.
Qed.

(** The factor of a position no farther from the centre than the corner:
    every step returns, and the factor is a small float of sign [+]. *)
Lemma vignette_factor_total cr cc r c A :
  1 <= A < 2 ^ 53 -> (r - cr) ^ 2 + (c - cc) ^ 2 <= A ->
  exists H factor,
    math_sqrt A = Ok H /\ is_zero H = false
    /\ vignette_factor cr cc H r c = Ok factor
    /\ mag_le 3 factor /\ has_sign false factor.
Proof.
  intros HA Ha. unfold vignette_factor.
  set (a := (r - cr) ^ 2 + (c - cc) ^ 2) in *.
  assert (0 <= a) by (unfold a; rewrite !Z.pow_2_r; nia).
  rewrite (math_sqrt_exact A HA).
  destruct (canon_finite false _ (sqrt_exponent A) (sqrt_mantissa_bounds A HA))
    as (mH & eH & -> & HdH & HcH).
  exists (S754_finite false mH eH).
  destruct (Z.eq_dec a 0) as [E0|Hne].
  - rewrite E0, math_sqrt_zero.
    destruct (factor_of_quotient _ unit_range_zero) as (f & Hf & Hm & Hs).
    exists f. split; [done|]. split; [done|]. split; [exact Hf|done].
  - assert (Ha1 : 1 <= a < 2 ^ 53) by lia.
    rewrite (math_sqrt_exact a Ha1).
    destruct (canon_finite false _ (sqrt_exponent a) (sqrt_mantissa_bounds a Ha1))
      as (ma & ea & -> & Hda & Hca).
    pose proof (sqrt_monotone a A ltac:(lia) ltac:(lia)) as Hmono.
    pose proof (sqrt_mantissa_bounds a Ha1).
    pose proof (sqrt_mantissa_bounds A HA).
    assert (Hq : unit_range (fdiv (S754_finite false ma ea)
                                  (S754_finite false mH eH)))
      by (apply fdiv_unit_range; [done..|lia]).
    destruct (factor_of_quotient _ Hq) as (f & Hf & Hm & Hs).
    exists f. split; [done|]. split; [done|]. split; [exact Hf|done].
Qed.

(** Statements run on the pixel of a position store their result there. *)
Lemma with_pixel_spec (h w : nat) image (i j : nat) body p p' :
  rectangular h w image -> (i < h)%nat -> (j < w)%nat ->
  pixel_lookup image i j = Some p -> body p = (Ok tt, p') ->
  exists image',
    with_pixel (Z.of_nat i) (Z.of_nat j) body image = (Ok tt, image')
    /\ rectangular h w image'
    /\ forall i' j', pixel_lookup image' i' j'
         = if decide (i' = i /\ j' = j) then Some p'
           else pixel_lookup image i' j'.
Proof.
  intros Hrect Hi Hj Hp Hbody. pose proof Hrect as [Hh Hw].
  destruct (lookup_lt_is_Some_2 image i) as [row Hrow]; [lia|].
  pose proof (rectangular_row _ _ _ _ _ Hrect Hrow) as Hlen.
  assert (Hpj : row !! j = Some p).
  { unfold pixel_lookup in Hp. by rewrite Hrow in Hp. }
  unfold with_pixel, len.
  rewrite index_position_nat, Hrow by lia.
  rewrite (getitem_lookup _ _ _ Hpj), index_position_nat, Hbody by lia.
  eexists. split; [done|]. split.
  - apply rectangular_insert; [done|]. by rewrite length_insert.
  - intros i' j'. unfold pixel_lookup.
    destruct (decide (i' = i)) as [->|Hne].
    + rewrite list_lookup_insert_eq by lia. cbn.
      destruct (decide (j' = j)) as [->|Hnj].
      * rewrite list_lookup_insert_eq by lia.
        by rewrite decide_True.
      * rewrite list_lookup_insert_ne by done.
        rewrite decide_False by tauto. by rewrite Hrow.
    + rewrite list_lookup_insert_ne by done.
      by rewrite decide_False by tauto.
Qed.

(** The positions of a buffer are no farther from its centre than the
    corner [(0, 0)]. *)
Lemma centre_is_farthest_from_corner h w i j :
  0 <= i < h -> 0 <= j < w ->
  (i - h / 2) ^ 2 + (j - w / 2) ^ 2 <= (h / 2) ^ 2 + (w / 2) ^ 2.
Proof.
  intros Hi Hj. rewrite !Z.pow_2_r.
  assert (- (h / 2) <= i - h / 2 <= h / 2)
    by (Z.to_euclidean_division_equations; lia).
  assert (- (w / 2) <= j - w / 2 <= w / 2)
    by (Z.to_euclidean_division_equations; lia).
  nia.
Qed.

Lemma corner_distance_bounds h w :
  0 < h <= 2 ^ 26 -> 0 < w <= 2 ^ 26 -> 2 <= h \/ 2 <= w ->
  1 <= (h / 2) ^ 2 + (w / 2) ^ 2 < 2 ^ 53.
Proof.
  intros Hh Hw H2. rewrite !Z.pow_2_r.
  assert (0 <= h / 2 <= 2 ^ 25) by (Z.to_euclidean_division_equations; lia).
  assert (0 <= w / 2 <= 2 ^ 25) by (Z.to_euclidean_division_equations; lia).
  assert (1 <= h / 2 \/ 1 <= w / 2) by (Z.to_euclidean_division_equations; lia).
  change (2 ^ 53) with (8 * (2 ^ 25 * 2 ^ 25)). nia.
Qed.

Lemma valid_pixel_lookup image i j p :
  Forall (Forall valid_pixel) image -> pixel_lookup image i j = Some p ->
  valid_pixel p.
Proof.
  intros Hvalid Hp. unfold pixel_lookup in Hp.
  destruct (image !! i) as [row|] eqn:Hrow; [|done]. cbn in Hp.
  eapply Forall_lookup_1; [|exact Hp]. by eapply Forall_lookup_1.
Qed.

(** The two loops of [vignette], for factors [F i j] that are small floats
    of sign [+]: every position receives its pixel scaled by its factor. *)
Lemma vignette_loops (h w : nat) image cr cc H (F : nat -> nat -> float) :
  rectangular h w image -> Forall (Forall valid_pixel) image ->
  (forall i j, (i < h)%nat -> (j < w)%nat ->
     vignette_factor cr cc H (Z.of_nat i) (Z.of_nat j) = Ok (F i j)
     /\ mag_le 3 (F i j) /\ has_sign false (F i j)) ->
  exists image',
    for_each (range 0 (Z.of_nat h)) (fun r =>
      for_each (range 0 (Z.of_nat w)) (fun c =>
        let! factor := lift (vignette_factor cr cc H r c) in
        with_pixel r c (vignette_pixel factor))) image = (Ok tt, image')
    /\ rectangular h w image'
    /\ forall i j, (i < h)%nat -> (j < w)%nat ->
         exists p p', pixel_lookup image i j = Some p
           /\ darken (F i j) p = Ok p'
           /\ pixel_lookup image' i j = Some p'.
Proof.
  intros Hrect Hvalid HF.
  set (V := fun i j : nat =>
              p ← pixel_lookup image i j;
              match darken (F i j) p with
              | Ok p' => Some p'
              | Raise _ => None
              end).
  assert (HV : forall i j p p', pixel_lookup image i j = Some p ->
            darken (F i j) p = Ok p' -> V i j = Some p').
  { intros i j p p' Hp Hd. unfold V. rewrite Hp. cbn. by rewrite Hd. }
  set (I := fun (k : nat) (s : buffer) =>
              rectangular h w s
              /\ forall i j, pixel_lookup s i j
                   = if decide (i < k /\ j < w)%nat then V i j
                     else pixel_lookup image i j).
  destruct (for_each_total I (range 0 (Z.of_nat h))
              (fun r => for_each (range 0 (Z.of_nat w)) (fun c =>
                 let! factor := lift (vignette_factor cr cc H r c) in
                 with_pixel r c (vignette_pixel factor)))) with image
    as (s' & Hrun & Hs' & Hpix).
  - (* one row *)
    intros k x s Hx [Hs Hsp]. apply range_lookup_inv in Hx as [-> Hk].
    set (J := fun (l : nat) (s : buffer) =>
                rectangular h w s
                /\ forall i j, pixel_lookup s i j
                     = if decide ((i < k /\ j < w) \/ (i = k /\ j < l))%nat
                       then V i j else pixel_lookup image i j).
    destruct (for_each_total J (range 0 (Z.of_nat w))
                (fun c =>
                   let! factor := lift (vignette_factor cr cc H (Z.of_nat k) c) in
                   with_pixel (Z.of_nat k) c (vignette_pixel factor))) with s
      as (s1 & Hrow & Hs1 & Hp1).
    + (* one pixel *)
      intros l y s0 Hy [Hs0 Hp0]. apply range_lookup_inv in Hy as [-> Hl].
      destruct (HF k l Hk Hl) as (HFkl & Hmag & Hsign).
      destruct (rectangular_pixel h w image k l Hrect Hk Hl) as [p Hp].
      destruct (darken_nonneg (F k l) p (valid_pixel_lookup _ _ _ _ Hvalid Hp)
                  Hmag Hsign) as (p' & Hd & _).
      assert (Hp0' : pixel_lookup s0 k l = Some p).
      { rewrite Hp0, decide_False by lia. done. }
      unfold bind, lift. rewrite HFkl.
      destruct (with_pixel_spec h w s0 k l (vignette_pixel (F k l)) p p'
                  Hs0 Hk Hl Hp0' (vignette_pixel_darken _ _ _ Hd))
        as (s2 & -> & Hs2 & Hp2).
      exists s2. split; [done|]. split; [done|].
      intros i j. rewrite Hp2, Hp0.
      repeat case_decide; try done; try lia.
      destruct_and?; subst. by rewrite (HV _ _ _ _ Hp Hd).
    + split; [done|]. intros i j. rewrite Hsp.
      repeat case_decide; try done; lia.
    + exists s1. split; [done|]. split; [done|].
      intros i j. rewrite Hp1, range_length.
      repeat case_decide; try done; lia.
  - split; [done|]. intros i j. by rewrite decide_False by lia.
  - exists s'. rewrite range_length in Hpix.
    split; [done|]. split; [done|].
    intros i j Hi Hj.
    destruct (HF i j Hi Hj) as (HFij & Hmag & Hsign).
    destruct (rectangular_pixel h w image i j Hrect Hi Hj) as [p Hp].
    destruct (darken_nonneg (F i j) p (valid_pixel_lookup _ _ _ _ Hvalid Hp)
                Hmag Hsign) as (p' & Hd & _).
    exists p, p'. split; [done|]. split; [done|].
    rewrite Hpix, decide_True by lia. by apply (HV _ _ p).
Qed.

(** [vignette] on a buffer that is not a single pixel: the call returns,
    and every position receives its pixel scaled by the factor [F i j] of
    the position, a small float of sign [+]. *)
Lemma vignette_run (h w : nat) (image : buffer) :
  rectangular h w image -> Forall (Forall valid_pixel) image ->
  0 < Z.of_nat h <= 2 ^ 26 -> 0 < Z.of_nat w <= 2 ^ 26 ->
  (2 <= h \/ 2 <= w)%nat ->
  exists image' (F : nat -> nat -> float),
    vignette image = (Ok true, image')
    /\ rectangular h w image'
    /\ forall i j, (i < h)%nat -> (j < w)%nat ->
         factor_at (Z.of_nat h) (Z.of_nat w) (Z.of_nat i) (Z.of_nat j)
         = Ok (F i j)
         /\ mag_le 3 (F i j) /\ has_sign false (F i j)
         /\ exists p p', pixel_lookup image i j = Some p
              /\ darken (F i j) p = Ok p'
              /\ pixel_lookup image' i j = Some p'.
Proof.
  intros Hrect Hvalid Hh Hw H2.
  pose proof (corner_distance_bounds (Z.of_nat h) (Z.of_nat w) Hh Hw
                ltac:(lia)) as HA.
  set (cr := Z.of_nat h / 2) in *. set (cc := Z.of_nat w / 2) in *.
  set (A := cr ^ 2 + cc ^ 2) in *.
  assert (Hfar : forall i j, (i < h)%nat -> (j < w)%nat ->
            (Z.of_nat i - cr) ^ 2 + (Z.of_nat j - cc) ^ 2 <= A)
    by (intros i j Hi Hj; apply centre_is_farthest_from_corner; lia).
  destruct (vignette_factor_total cr cc 0 0 A HA) as (H & _ & EH & _).
  { apply (Hfar 0%nat 0%nat); lia. }
  set (F := fun i j : nat =>
              match vignette_factor cr cc H (Z.of_nat i) (Z.of_nat j) with
              | Ok f => f
              | Raise _ => S754_zero false
              end).
  assert (HF : forall i j, (i < h)%nat -> (j < w)%nat ->
            vignette_factor cr cc H (Z.of_nat i) (Z.of_nat j) = Ok (F i j)
            /\ mag_le 3 (F i j) /\ has_sign false (F i j)).
  { intros i j Hi Hj.
    destruct (vignette_factor_total cr cc (Z.of_nat i) (Z.of_nat j) A HA
                (Hfar i j Hi Hj)) as (H' & f & EH' & _ & Ef & Hm & Hs).
    rewrite EH in EH'. injection EH' as <-. unfold F. by rewrite Ef. }
  destruct (vignette_loops h w image cr cc H F Hrect Hvalid HF)
    as (image' & Hrun & Hrect' & Hpix).
  exists image', F. split; [|split; [done|]].
  - unfold vignette. unfold bind at 1.
    rewrite (dimensions_rectangular h w) by (done || lia).
    cbn beta iota. unfold bind at 1. unfold lift at 1.
    fold cr cc A. rewrite EH.
    unfold bind at 1. by rewrite Hrun.
  - intros i j Hi Hj. destruct (HF i j Hi Hj) as (Ef & Hm & Hs).
    split; [|by auto].
    unfold factor_at, corner_distance. fold cr cc A. by rewrite EH.
Qed.





(** A buffer of two rows and three columns: the centre is [(1, 1)], the
    factor is [0.0] at the four corners, [1.0] at the centre and
    [0.5000000000000001] at [(0, 1)]. *)
Example vignette_example :
  vignette [[mkRGB 200 100 50 255; mkRGB 10 20 30 255; mkRGB 255 255 255 7];
            [mkRGB 255 255 255 4; mkRGB 5 5 5 5; mkRGB 255 0 1 0]]
  = (Ok true,
     [[mkRGB 0 0 0 255; mkRGB 5 10 15 255; mkRGB 0 0 0 7];
      [mkRGB 128 128 128 4; mkRGB 5 5 5 5; mkRGB 128 0 1 0]]).
Proof. vm_compute. reflexivity. Qed.

Example vignette_factors :
  factor_at 2 3 0 0 = Ok (S754_zero false)
  /\ factor_at 2 3 1 1 = Ok one
  /\ factor_at 2 3 0 1 = Ok (S754_finite false 4503599627370497 (-53)).
Proof. by vm_compute. Qed.


(* ===================================================================== *)
(** * Binary64: the error of a rounded quotient                           *)
(* ===================================================================== *)

(** The location of a quotient with remainder [r] of a division by [n]. *)
Lemma new_location_spec n r :
  0 < n -> 0 <= r < n ->
  new_location n r = if r =? 0 then loc_Exact else loc_Inexact (2 * r ?= n).
Proof.
  intros Hn Hr. unfold new_location, new_location_even, new_location_odd.
  destruct (Z.even n) eqn:Heven; cbn beta;
    (destruct (Z.eqb_spec r 0) as [->|Hne]; [done|]); [done|]. f_equal.
  destruct (Z.compare_spec (2 * r + 1) n), (Z.compare_spec (2 * r) n);
    try done; try lia.
  subst n. by rewrite Z.even_mul in Heven.
Qed.

(** The last step of rounding, on a mantissa of 53 bits or on [2^53]. *)
Lemma round_finish sx m e :
  2 ^ 52 <= m <= 2 ^ 53 -> -1074 <= e <= 970 ->
  (let '(mrs, e') := shr_fexp prec emax m e loc_Exact in
   match shr_m mrs with
   | 0 => S754_zero sx
   | Zpos p => if e' <=? emax - prec then S754_finite sx p e'
               else S754_infinity sx
   | Zneg _ => S754_nan
   end) = canon sx m e.
Proof.
  intros Hm He. unfold canon.
  destruct (Z.eqb_spec m (2 ^ 53)) as [->|Hne].
  - unfold shr_fexp, fexp, emin, prec, emax.
    change (Zdigits2 (2 ^ 53)) with 54.
    replace (Z.max (54 + e - 53) (3 - 1024 - 53) - e) with 1 by lia.
    unfold shr.
    change (SpecFloat.iter_pos shr_1 1 (shr_record_of_loc (2 ^ 53) loc_Exact))
      with (Build_shr_record 4503599627370496 false false).
    cbn [shr_m]. change (1024 - 53) with 971.
    destruct (Z.leb_spec (e + 1) 971); [done|lia].
  - assert (Hd : Zdigits2 m = 53).
    { apply Z.le_antisymm; [apply Zdigits2_le; lia|apply Zdigits2_ge; lia]. }
    rewrite (shr_fexp_53 m e loc_Exact Hd) by lia.
    cbn [shr_record_of_loc shr_m].
    destruct m as [|p|p]; [lia| |lia].
    unfold prec, emax. change (1024 - 53) with 971.
    destruct (Z.leb_spec e 971); [done|lia].
Qed.

(** Rounding to nearest: the distance to the quotient is at most one half. *)
Lemma round_nearest_even_error n q r :
  0 < n -> 0 <= r < n ->
  Z.abs (2 * n * round_nearest_even q (new_location n r) - 2 * (n * q + r))
  <= n.
Proof.
  intros Hn Hr. rewrite new_location_spec by done.
  destruct (Z.eqb_spec r 0) as [->|Hne]; cbn [round_nearest_even]; [lia|].
  destruct (Z.compare_spec (2 * r) n); [destruct (Z.even q)| |]; lia.
Qed.

(** A quotient of 54 bits loses its last bit before it is rounded. *)
Lemma shr_fexp_54 q e l :
  2 ^ 53 <= q < 2 ^ 54 -> -1074 <= e ->
  shr_fexp prec emax q e l = (shr_1 (shr_record_of_loc q l), e + 1).
Proof.
  intros Hq He.
  assert (Hd : Zdigits2 q = 54).
  { apply Z.le_antisymm; [apply Zdigits2_le; lia|apply Zdigits2_ge; lia]. }
  unfold shr_fexp, fexp, emin, prec, emax. rewrite Hd.
  by replace (Z.max (54 + e - 53) (3 - 1024 - 53) - e) with 1 by lia.
Qed.

Lemma round_nearest_even_shifted n q r :
  0 < n -> 0 <= r < n -> 0 < q ->
  let mrs := shr_1 (shr_record_of_loc q (new_location n r)) in
  Z.abs (2 * n * (2 * round_nearest_even (shr_m mrs) (loc_of_shr_record mrs))
         - 2 * (n * q + r)) <= 2 * n.
Proof.
  intros Hn Hr Hq. rewrite new_location_spec by done.
  destruct q as [|p|p]; [lia| |lia].
  destruct (Z.eqb_spec r 0) as [->|Hne].
  - destruct p as [p|p|]; cbn; try lia; destruct p; lia.
  - destruct (Z.compare_spec (2 * r) n); destruct p as [p|p|]; cbn; lia.
Qed.

(** Rounding a quotient of 53 or 54 bits with its location: a float of a
    53-bit mantissa, at most half a unit of its last place away. *)
Lemma binary_round_aux_error sx q e' n r :
  0 < n -> 0 <= r < n -> 2 ^ 52 <= q < 2 ^ 54 -> -1074 <= e' <= 960 ->
  exists m e,
    binary_round_aux prec emax sx q e' (new_location n r) = S754_finite sx m e
    /\ e' <= e <= e' + 2
    /\ Z.abs (2 * n * (Zpos m * 2 ^ (e - e')) - 2 * (n * q + r))
       <= n * 2 ^ (e - e').
Proof.
  intros Hn Hr Hq He.
  destruct (Z_lt_le_dec q (2 ^ 53)) as [Hlt|Hge].
  - assert (Hd : Zdigits2 q = 53).
    { apply Z.le_antisymm; [apply Zdigits2_le; lia|apply Zdigits2_ge; lia]. }
    rewrite binary_round_aux_53 by (done || lia).
    pose proof (round_nearest_even_error n q r Hn Hr) as Herr.
    pose proof (round_nearest_even_bounds q (new_location n r)) as Hb.
    set (m2 := round_nearest_even q (new_location n r)) in *.
    destruct (canon_finite sx m2 e' ltac:(lia))
      as (m & e & -> & _ & [(_ & Hm & ->)|(Hm2 & Hm & ->)]).
    + exists m, e'. split; [done|]. split; [lia|].
      rewrite Z.sub_diag, Hm. change (2 ^ 0) with 1. lia.
    + exists m, (e' + 1). split; [done|]. split; [lia|].
      replace (e' + 1 - e') with 1 by lia. rewrite Hm. change (2 ^ 1) with 2.
      lia.
  - unfold binary_round_aux. rewrite shr_fexp_54 by (done || lia).
    pose proof (round_nearest_even_shifted n q r Hn Hr ltac:(lia)) as Herr.
    cbv zeta in Herr.
    set (mrs := shr_1 (shr_record_of_loc q (new_location n r))) in *.
    assert (Hm1 : shr_m mrs = q / 2).
    { unfold mrs. rewrite shr_1_m; rewrite shr_record_of_loc_m; [done|lia]. }
    assert (Hm1b : 2 ^ 52 <= shr_m mrs < 2 ^ 53)
      by (rewrite Hm1; Z.to_euclidean_division_equations; lia).
    pose proof (round_nearest_even_bounds (shr_m mrs) (loc_of_shr_record mrs))
      as Hb.
    set (m2 := round_nearest_even (shr_m mrs) (loc_of_shr_record mrs)) in *.
    rewrite (round_finish sx m2 (e' + 1)) by lia.
    destruct (canon_finite sx m2 (e' + 1) ltac:(lia))
      as (m & e & -> & _ & [(_ & Hm & ->)|(Hm2 & Hm & ->)]).
    + exists m, (e' + 1). split; [done|]. split; [lia|].
      replace (e' + 1 - e') with 1 by lia. rewrite Hm. change (2 ^ 1) with 2.
      lia.
    + exists m, (e' + 1 + 1). split; [done|]. split; [lia|].
      replace (e' + 1 + 1 - e') with 2 by lia. rewrite Hm.
      change (2 ^ 2) with 4. lia.
Qed.

(** The quotient of two positive integers of comparable sizes: a float of a
    53-bit mantissa, at most half a unit of its last place away from the
    exact quotient. *)
Lemma round_quotient_error t n :
  0 < t -> 0 < n -> -900 <= Zdigits2 t - Zdigits2 n <= 50 ->
  exists m e,
    round_quotient t n = S754_finite false m e
    /\ e <= Zdigits2 t - Zdigits2 n - 51 /\ e < 0
    /\ Z.abs (2 * n * Zpos m - 2 * t * 2 ^ (- e)) <= n.
Proof.
  intros Ht Hn Hd. unfold round_quotient.
  destruct t as [|t|t]; [lia| |lia].
  unfold SFdiv_core_binary.
  rewrite (Z.abs_eq (Zpos t)), (Z.abs_eq n) by lia.
  set (d1 := Zdigits2 (Zpos t)) in *. set (d2 := Zdigits2 n) in *.
  set (e' := Z.min (fexp prec emax (d1 + 0 - (d2 + 0))) (0 - 0)).
  assert (He' : e' = d1 - d2 - 53) by (unfold e', fexp, emin, prec, emax; lia).
  set (m' := match 0 - 0 - e' with
             | 0 => Zpos t
             | Zpos _ => Z.shiftl (Zpos t) (0 - 0 - e')
             | Zneg _ => 0
             end).
  assert (Hm' : m' = Zpos t * 2 ^ (- e')).
  { unfold m'. replace (0 - 0 - e') with (- e') by lia.
    destruct (- e') as [|p|p] eqn:Hs; [lia| |lia].
    by rewrite Z.shiftl_mul_pow2 by lia. }
  assert (Hq : Z.div_eucl m' n = (m' / n, m' mod n)).
  { unfold Z.div, Z.modulo. by destruct (Z.div_eucl m' n). }
  rewrite Hq.
  pose proof (Zdigits2_bounds (Zpos t) ltac:(lia)) as Ht2. fold d1 in Ht2.
  pose proof (Zdigits2_bounds n Hn) as Hn2. fold d2 in Hn2.
  assert (Hd1 : 0 < d1) by (unfold d1; cbn; lia).
  assert (Hd2 : 0 < d2) by (unfold d2; destruct n; cbn; lia).
  assert (HX : 0 < 2 ^ (- e')) by (apply Z.pow_pos_nonneg; lia).
  assert (Hlo : 2 ^ 52 * n <= m').
  { assert (E : 2 ^ (d1 - 1) * 2 ^ (- e') = 2 ^ 52 * 2 ^ d2)
      by (rewrite <- !Z.pow_add_r by lia; f_equal; lia).
    rewrite Hm'. nia. }
  assert (Hhi : m' < 2 ^ 54 * n).
  { assert (E : 2 ^ d1 * 2 ^ (- e') = 2 ^ 54 * 2 ^ (d2 - 1))
      by (rewrite <- !Z.pow_add_r by lia; f_equal; lia).
    rewrite Hm'. nia. }
  assert (Hqb : 2 ^ 52 <= m' / n < 2 ^ 54).
  { split; [apply Z.div_le_lower_bound; lia
           |apply Z.div_lt_upper_bound; lia]. }
  pose proof (Z.mod_pos_bound m' n Hn) as Hr.
  change (Zpos t <? 0) with false. replace (n <? 0) with false by lia.
  cbn [xorb].
  destruct (binary_round_aux_error false (m' / n) e' n
              (m' mod n) Hn Hr Hqb ltac:(lia)) as (m & e & -> & Hee & Herr).
  exists m, e. split; [done|]. split; [lia|]. split; [lia|].
  assert (Hdiv : n * (m' / n) + m' mod n = m')
    by (symmetry; apply Z.div_mod; lia).
  rewrite Hdiv, Hm' in Herr.
  replace (- e') with (- e + (e - e')) in Herr by lia.
  rewrite Z.pow_add_r in Herr by lia.
  assert (HP : 0 < 2 ^ (e - e')) by (apply Z.pow_pos_nonneg; lia).
  set (P := 2 ^ (e - e')) in *. set (D := 2 ^ (- e)) in *.
  replace (2 * n * (Zpos m * P) - 2 * (Zpos t * (D * P)))
    with ((2 * n * Zpos m - 2 * Zpos t * D) * P) in Herr by ring.
  rewrite Z.abs_mul, (Z.abs_eq P) in Herr by lia. nia.
Qed.

(** [round] of a float with a fraction part: at most one half away. *)
Lemma round_error m e v :
  e < 0 -> round (S754_finite false m e) = Ok v ->
  Z.abs (2 * v * 2 ^ (- e) - 2 * Zpos m) <= 2 ^ (- e).
Proof.
  intros He. destruct e as [|p|p]; [lia..|].
  change (- Z.neg p) with (Zpos p). cbn [round magnitude_parts]. cbv zeta.
  assert (Hd : 0 < 2 ^ Zpos p) by (apply Z.pow_pos_nonneg; lia).
  pose proof (Z.div_mod (Zpos m) (2 ^ Zpos p) ltac:(lia)) as Hdiv.
  pose proof (Z.mod_pos_bound (Zpos m) (2 ^ Zpos p) Hd) as Hr.
  set (d := 2 ^ Zpos p) in *. set (q := Zpos m / d) in *.
  set (r := Zpos m mod d) in *.
  intros [= <-].
  destruct (Z.compare_spec (2 * r) d); [destruct (Z.even q)| |]; nia.
Qed.

(** [round(total / n)] is an integer nearest to the exact quotient, for
    fewer than [2^43] summands of 0..255. *)
Lemma rounded_mean_nearest total n v :
  0 < n < 2 ^ 43 -> 0 <= total <= 255 * n ->
  rounded_mean total n = Ok v -> nearest_integer v total n.
Proof.
  intros Hn Ht. unfold rounded_mean, int_truediv, nearest_integer.
  destruct (Z.eqb_spec n 0); [lia|].
  destruct (Z.eq_dec total 0) as [->|Hne].
  - cbn. intros [= <-]. lia.
  - assert (Hd1 : 1 <= Zdigits2 total) by (apply Zdigits2_ge; lia).
    assert (Hd2 : Zdigits2 n <= 43) by (apply Zdigits2_le; lia).
    pose proof (Zdigits2_nonneg n).
    assert (Hd3 : Zdigits2 total <= 8 + Zdigits2 n).
    { etrans; [apply (Zdigits2_mono _ (255 * n)); lia|].
      etrans; [apply Zdigits2_mul; lia|]. simpl (Zdigits2 255). lia. }
    destruct (round_quotient_error total n) as (m & e & -> & He & He0 & Herr);
      [lia..|].
    cbn [is_inf rbind]. intros Hv.
    pose proof (round_error m e v He0 Hv) as Hr.
    assert (HD : 2 ^ 43 <= 2 ^ (- e)) by (apply Z.pow_le_mono_r; lia).
    set (D := 2 ^ (- e)) in *. set (k := 2 * n * v - 2 * total).
    assert (Hk : Z.abs k * D <= n * D + n).
    { rewrite <- (Z.abs_eq D) at 1 by lia. rewrite <- Z.abs_mul.
      replace (k * D)
        with (n * (2 * v * D - 2 * Zpos m) + (2 * n * Zpos m - 2 * total * D))
        by (unfold k; ring).
      etrans; [apply Z.abs_triangle|]. rewrite Z.abs_mul, (Z.abs_eq n) by lia.
      nia. }
    nia.
Qed.

Lemma window_count_le (h w : nat) radius r c :
  window_count (Z.of_nat h) (Z.of_nat w) radius r c <= Z.of_nat h * Z.of_nat w.
Proof.
  unfold window_count.
  etrans; [apply (Zsum_bounds _ (fun _ => Z.of_nat w) 1)|].
  - intros i _.
    pose proof (Zsum_bounds (fun j => if in_window radius r c i j then 1 else 0)
                  (fun _ => 1) 1 (range 0 (Z.of_nat w))) as Hin.
    rewrite Zsum_const in Hin. unfold len in Hin. rewrite range_length in Hin.
    assert (Hj : forall j, j ∈ range 0 (Z.of_nat w) ->
              0 <= (if in_window radius r c i j then 1 else 0) <= 1 * 1)
      by (intros j _; destruct (in_window radius r c i j); lia).
    specialize (Hin Hj). lia.
  - rewrite Zsum_const. unfold len. rewrite range_length. lia.
Qed.

(** The channels of a box average are nearest integers to the exact
    averages over the window. *)
Lemma box_average_nearest (h w : nat) image radius r c p :
  Forall (Forall valid_pixel) image ->
  0 <= radius -> 0 <= r < Z.of_nat h -> 0 <= c < Z.of_nat w ->
  Z.of_nat h * Z.of_nat w < 2 ^ 43 ->
  box_average (Z.of_nat h) (Z.of_nat w) image radius r c = Ok p ->
  let n := window_count (Z.of_nat h) (Z.of_nat w) radius r c in
  let total ch := window_sum ch (Z.of_nat h) (Z.of_nat w) image radius r c in
  nearest_integer (red p) (total red) n
  /\ nearest_integer (green p) (total green) n
  /\ nearest_integer (blue p) (total blue) n
  /\ nearest_integer (alpha p) (total alpha) n.
Proof.
  intros Hvalid Hrad Hr Hc Hsize Hbox n total.
  assert (Hn : 0 < n < 2 ^ 43).
  { pose proof (window_count_pos (Z.of_nat h) (Z.of_nat w) radius r c
                  Hrad Hr Hc).
    pose proof (window_count_le h w radius r c). unfold n. lia. }
  assert (Hsum : forall ch, (forall q, valid_pixel q -> 0 <= ch q <= 255) ->
            0 <= total ch <= 255 * n)
    by (intros ch Hch; by apply window_sum_bounds).
  unfold box_average in Hbox. fold n (total red) (total green) (total blue)
    (total alpha) in Hbox.
  destruct (rounded_mean (total red) n) as [vr|] eqn:Er; [|done].
  destruct (rounded_mean (total green) n) as [vg|] eqn:Eg; [|done].
  destruct (rounded_mean (total blue) n) as [vb|] eqn:Eb; [|done].
  destruct (rounded_mean (total alpha) n) as [va|] eqn:Ea; [|done].
  cbn [rbind] in Hbox. injection Hbox as <-. cbn [red green blue alpha].
  repeat split; eapply rounded_mean_nearest; try eassumption;
    apply Hsum; by intros q (? & ? & ? & ?).
Qed.

(* ===================================================================== *)
(** * blur: the box average                                               *)
(* ===================================================================== *)

(** C5. On a buffer of [h > 0] rows and [w > 0] columns whose channels are
    in 0..255, and for a radius [> 0], [blur] returns [True], keeps the
    shape, and leaves at every position [(i, j)] the box average there of
    the buffer it was given: for each of the four channels,
    [round(sum / count)] for the channel's sum over the pixels of the
    original buffer whose row and column are within [radius] of [(i, j)]
    and the number of those pixels.  For a buffer of fewer than [2^43]
    pixels each such value is an integer nearest to the exact average. *)
Theorem blur_box_average (h w : nat) (image : buffer) (radius : Z) :
  (0 < h)%nat -> (0 < w)%nat -> rectangular h w image ->
  Forall (Forall valid_pixel) image -> 0 < radius ->
  exists image',
    blur radius image = (Ok true, image')
    /\ rectangular h w image'
    /\ forall i j, (i < h)%nat -> (j < w)%nat ->
         exists p, pixel_lookup image' i j = Some p
           /\ box_average (Z.of_nat h) (Z.of_nat w) image radius
                (Z.of_nat i) (Z.of_nat j) = Ok p
           /\ (Z.of_nat h * Z.of_nat w < 2 ^ 43 ->
               let n := window_count (Z.of_nat h) (Z.of_nat w) radius
                          (Z.of_nat i) (Z.of_nat j) in
               let total ch := window_sum ch (Z.of_nat h) (Z.of_nat w) image
                                 radius (Z.of_nat i) (Z.of_nat j) in
               nearest_integer (red p) (total red) n
               /\ nearest_integer (green p) (total green) n
               /\ nearest_integer (blue p) (total blue) n
               /\ nearest_integer (alpha p) (total alpha) n).
Proof.
  intros Hh Hw Hrect Hvalid Hrad.
  destruct (blur_loops h w image radius Hrect Hvalid ltac:(lia))
    as (image' & Hrun & Hrect' & Hpix).
  exists image'. split; [|split; [done|]].
  - unfold blur. unfold bind at 1.
    rewrite (dimensions_rectangular h w) by done.
    cbn beta iota. unfold bind at 1, get. cbn beta iota. unfold bind at 1.
    cbn zeta in Hrun. by rewrite Hrun.
  - intros i j Hi Hj.
    destruct (box_average_total (Z.of_nat h) (Z.of_nat w) image radius
                (Z.of_nat i) (Z.of_nat j) Hvalid ltac:(lia)) as [p Hp];
      [lia..|].
    exists p. split; [|split; [done|]].
    + rewrite (Hpix i j Hi Hj). unfold box_pixel. by rewrite Hp.
    + intros Hsize.
      apply (box_average_nearest h w image radius (Z.of_nat i) (Z.of_nat j) p);
        (done || lia).
Qed.

Example blur_example :
  blur 1 [[mkRGB 0 0 0 255; mkRGB 10 20 30 255; mkRGB 90 90 90 255];
          [mkRGB 1 2 3 4; mkRGB 5 5 5 5; mkRGB 30 60 90 255]]
  = (Ok true,
     [[mkRGB 4 7 10 130; mkRGB 23 30 36 172; mkRGB 34 44 54 192];
      [mkRGB 4 7 10 130; mkRGB 23 30 36 172; mkRGB 34 44 54 192]]).
Proof. vm_compute. reflexivity. Qed.

Lemma blur_box_average_witness :
  let image := [[mkRGB 0 0 0 255; mkRGB 10 20 30 255];
                [mkRGB 1 2 3 4; mkRGB 5 5 5 5]] in
  exists image',
    blur 1 image = (Ok true, image')
    /\ rectangular 2 2 image'
    /\ forall i j, (i < 2)%nat -> (j < 2)%nat ->
         exists p, pixel_lookup image' i j = Some p
           /\ box_average 2 2 image 1 (Z.of_nat i) (Z.of_nat j) = Ok p
           /\ (2 * 2 < 2 ^ 43 ->
               let n := window_count 2 2 1 (Z.of_nat i) (Z.of_nat j) in
               let total ch := window_sum ch 2 2 image 1
                                 (Z.of_nat i) (Z.of_nat j) in
               nearest_integer (red p) (total red) n
               /\ nearest_integer (green p) (total green) n
               /\ nearest_integer (blue p) (total blue) n
               /\ nearest_integer (alpha p) (total alpha) n).
Proof.
  intros image.
  apply (blur_box_average 2 2 image 1);
    [lia | lia | split; [reflexivity | repeat constructor]
    | repeat constructor; cbn; lia | lia].
Defined.

(* ===================================================================== *)
(** * Further properties: dered, flip, transpose, rotate                  *)
(* ===================================================================== *)

Lemma dered_run (image : buffer) :
  dered image = (Ok true, map_pixels without_red image).
Proof.
  unfold dered, bind, for_pixels, map_pixels.
  rewrite (for_items_total (for_items (set_red 0)) (fmap without_red));
    [done|].
  apply Forall_forall. intros row _.
  apply for_items_total, Forall_forall. by intros p _.
Qed.

(** X1. [dered] returns [True] on every buffer, rectangular or not; it sets
    the red channel of every pixel to 0 and leaves green, blue and alpha as
    they were, so that a second application changes nothing. *)
Theorem dered_removes_red (image : buffer) :
  exists image',
    dered image = (Ok true, image')
    /\ image' = map_pixels without_red image
    /\ Forall (Forall (fun p => red p = 0)) image'
    /\ dered image' = (Ok true, image').
Proof.
  exists (map_pixels without_red image). split; [apply dered_run|].
  split; [done|]. split.
  - unfold map_pixels. apply Forall_fmap, Forall_true. intros row.
    apply Forall_fmap, Forall_true. by intros p.
  - rewrite dered_run. f_equal. unfold map_pixels.
    rewrite <- list_fmap_compose. apply list_fmap_ext. intros i row _. cbn.
    rewrite <- list_fmap_compose. by apply list_fmap_ext.
Qed.

Lemma pixel_lookup_row_reverse h w image i j :
  rectangular h w image -> (j < w)%nat ->
  pixel_lookup (reverse <$> image) i j = pixel_lookup image i (w - S j).
Proof.
  intros Hrect Hj. unfold pixel_lookup. rewrite list_lookup_fmap.
  destruct (image !! i) as [row|] eqn:Hrow; [|done]. cbn.
  pose proof (rectangular_row _ _ _ _ _ Hrect Hrow) as Hlen.
  rewrite reverse_lookup by lia. by rewrite Hlen.
Qed.

Lemma rectangular_row_reverse h w image :
  rectangular h w image -> rectangular h w (reverse <$> image).
Proof.
  intros [Hh Hw]. split; [by rewrite length_fmap|].
  apply Forall_fmap. eapply Forall_impl; [exact Hw|].
  intros row Hrow. cbn. by rewrite length_reverse.
Qed.

Lemma half_turn_lookup h w image i j :
  rectangular h w image -> (i < h)%nat -> (j < w)%nat ->
  pixel_lookup (half_turn image) i j = pixel_lookup image (h - S i) (w - S j).
Proof.
  intros Hrect Hi Hj. unfold half_turn.
  pose proof (rectangular_row_reverse _ _ _ Hrect) as [Hlen _].
  rewrite pixel_lookup_reverse by lia. rewrite Hlen.
  by apply (pixel_lookup_row_reverse h w).
Qed.

Lemma half_turn_rectangular h w image :
  rectangular h w image -> rectangular h w (half_turn image).
Proof.
  intros Hrect. by apply rectangular_reverse, rectangular_row_reverse.
Qed.

(** X2. On a buffer of [h] rows and [w] columns, [h, w > 0], [transpose]
    applied twice returns [True] both times and gives the original buffer
    back; in between the buffer has [w] rows and [h] columns. *)
Theorem transpose_involution (h w : nat) (image : buffer) :
  (0 < h)%nat -> (0 < w)%nat -> rectangular h w image ->
  exists t, transpose image = (Ok true, t) /\ rectangular w h t
            /\ transpose t = (Ok true, image).
Proof.
  intros Hh Hw Hrect.
  destruct (transpose_spec h w image Hh Hw Hrect) as (t & Ht & Hrt & Hpt).
  destruct (transpose_spec w h t Hw Hh Hrt) as (t2 & Ht2 & Hrt2 & Hpt2).
  exists t. split; [done|]. split; [done|]. rewrite Ht2. f_equal.
  apply (buffer_ext h w); [done..|]. intros i j Hi Hj.
  rewrite Hpt2 by done. by apply Hpt.
Qed.

Lemma transpose_involution_witness :
  let image := [[mkRGB 1 2 3 255; mkRGB 4 5 6 255; mkRGB 7 8 9 255];
                [mkRGB 10 11 12 255; mkRGB 13 14 15 255; mkRGB 16 17 18 255]] in
  exists t, transpose image = (Ok true, t) /\ rectangular 3 2 t
            /\ transpose t = (Ok true, image).
Proof.
  intros image.
  apply (transpose_involution 2 3 image);
    [lia | lia | split; [reflexivity | repeat constructor]].
Defined.

(** X3. On a buffer of [h] rows and [w] columns, [h, w > 0], a left
    rotation followed by a right rotation, and a right rotation followed
    by a left rotation, both give the original buffer back. *)
Theorem rotate_left_right_inverse (h w : nat) (image : buffer) :
  (0 < h)%nat -> (0 < w)%nat -> rectangular h w image ->
  (exists b, rotate false image = (Ok true, b)
             /\ rotate true b = (Ok true, image))
  /\ (exists b, rotate true image = (Ok true, b)
                /\ rotate false b = (Ok true, image)).
Proof.
  intros Hh Hw Hrect. split.
  - destruct (rotate_left_spec h w image Hh Hw Hrect) as (b & Hb & Hrb & Hpb).
    destruct (rotate_right_spec w h b Hw Hh Hrb) as (b2 & Hb2 & Hrb2 & Hpb2).
    exists b. split; [done|]. rewrite Hb2. f_equal.
    apply (buffer_ext h w); [done..|]. intros i j Hi Hj.
    rewrite Hpb2, Hpb by lia. f_equal. lia.
  - destruct (rotate_right_spec h w image Hh Hw Hrect) as (b & Hb & Hrb & Hpb).
    destruct (rotate_left_spec w h b Hw Hh Hrb) as (b2 & Hb2 & Hrb2 & Hpb2).
    exists b. split; [done|]. rewrite Hb2. f_equal.
    apply (buffer_ext h w); [done..|]. intros i j Hi Hj.
    rewrite Hpb2, Hpb by lia. f_equal. lia.
Qed.

Lemma rotate_left_right_inverse_witness :
  let image := [[mkRGB 1 2 3 255; mkRGB 4 5 6 255; mkRGB 7 8 9 255];
                [mkRGB 10 11 12 255; mkRGB 13 14 15 255; mkRGB 16 17 18 255]] in
  (exists b, rotate false image = (Ok true, b)
             /\ rotate true b = (Ok true, image))
  /\ (exists b, rotate true image = (Ok true, b)
                /\ rotate false b = (Ok true, image)).
Proof.
  intros image.
  apply (rotate_left_right_inverse 2 3 image);
    [lia | lia | split; [reflexivity | repeat constructor]].
Defined.

(** X4. On a buffer of [h] rows and [w] columns, [h, w > 0], two rotations
    in the same direction, left or right, turn the buffer by 180 degrees:
    the result is the buffer with its rows in reverse order and every row
    reversed, which is also what the vertical flip followed by the
    horizontal flip gives, and what the two flips give in the other
    order. *)
Theorem rotate_twice_half_turn (right : bool) (h w : nat) (image : buffer) :
  (0 < h)%nat -> (0 < w)%nat -> rectangular h w image ->
  (exists b, rotate right image = (Ok true, b)
             /\ rotate right b = (Ok true, half_turn image))
  /\ (exists a, flip true image = (Ok true, a)
                /\ flip false a = (Ok true, half_turn image))
  /\ (exists a, flip false image = (Ok true, a)
                /\ flip true a = (Ok true, half_turn image)).
Proof.
  intros Hh Hw Hrect. split; [|split].
  - destruct right.
    + destruct (rotate_right_spec h w image Hh Hw Hrect)
        as (b & Hb & Hrb & Hpb).
      destruct (rotate_right_spec w h b Hw Hh Hrb) as (b2 & Hb2 & Hrb2 & Hpb2).
      exists b. split; [done|]. rewrite Hb2. f_equal.
      apply (buffer_ext h w); [done|by apply half_turn_rectangular|].
      intros i j Hi Hj.
      rewrite Hpb2, Hpb, (half_turn_lookup h w) by (done || lia). done.
    + destruct (rotate_left_spec h w image Hh Hw Hrect)
        as (b & Hb & Hrb & Hpb).
      destruct (rotate_left_spec w h b Hw Hh Hrb) as (b2 & Hb2 & Hrb2 & Hpb2).
      exists b. split; [done|]. rewrite Hb2. f_equal.
      apply (buffer_ext h w); [done|by apply half_turn_rectangular|].
      intros i j Hi Hj.
      rewrite Hpb2, Hpb, (half_turn_lookup h w) by (done || lia). done.
  - exists (reverse image). rewrite flip_vertical, flip_horizontal.
    split; [done|]. unfold half_turn. by rewrite fmap_reverse.
  - exists (reverse <$> image). by rewrite flip_horizontal, flip_vertical.
Qed.

Lemma rotate_twice_half_turn_witness :
  let image := [[mkRGB 1 2 3 255; mkRGB 4 5 6 255; mkRGB 7 8 9 255];
                [mkRGB 10 11 12 255; mkRGB 13 14 15 255; mkRGB 16 17 18 255]] in
  exists b, rotate true image = (Ok true, b)
            /\ rotate true b
               = (Ok true,
                  [[mkRGB 16 17 18 255; mkRGB 13 14 15 255; mkRGB 10 11 12 255];
                   [mkRGB 7 8 9 255; mkRGB 4 5 6 255; mkRGB 1 2 3 255]]).
Proof.
  intros image.
  assert (Hrect : rectangular 2 3 image)
    by (split; [reflexivity | repeat constructor]).
  exact (proj1 (rotate_twice_half_turn true 2 3 image ltac:(lia) ltac:(lia)
                  Hrect)).
Defined.

Lemma getitem_nat {A} (l : list A) (i : nat) :
  getitem l (Z.of_nat i)
  = match l !! i with Some x => Ok x | None => Raise IndexError end.
Proof.
  destruct (l !! i) as [x|] eqn:Hi; [by apply getitem_lookup|].
  apply lookup_ge_None in Hi. unfold getitem, index_position, len.
  destruct (Z.ltb_spec (Z.of_nat i) 0); [lia|].
  destruct (Z.ltb_spec (Z.of_nat i) 0); [lia|].
  destruct (Z.leb_spec (Z.of_nat (length l)) (Z.of_nat i)); [done|lia].
Qed.

Lemma pixel_at_nat image (i j : nat) :
  pixel_at image (Z.of_nat i) (Z.of_nat j)
  = match pixel_lookup image i j with
    | Some p => Ok p
    | None => Raise IndexError
    end.
Proof.
  unfold pixel_at, pixel_lookup. rewrite getitem_nat.
  destruct (image !! i) as [row|]; [|done]. cbn. apply getitem_nat.
Qed.

(** A comprehension whose element function raises nothing but [e], and
    raises it somewhere, raises [e]. *)
Lemma comprehension_raises {A B} (f : A -> result B) l e :
  Forall (fun x => (exists y, f x = Ok y) \/ f x = Raise e) l ->
  Exists (fun x => f x = Raise e) l ->
  comprehension f l = Raise e.
Proof.
  induction 1 as [|x xs Hx Hxs IH]; intros HE; [by inversion HE|].
  cbn. destruct Hx as [[y Hy]|Hx]; [|by rewrite Hx].
  rewrite Hy. cbn. inversion HE as [? ? Hhd|? ? Htl]; subst; [congruence|].
  by rewrite (IH Htl).
Qed.

Lemma comprehension_total_or_raises {A B} (f : A -> result B) l e :
  Forall (fun x => (exists y, f x = Ok y) \/ f x = Raise e) l ->
  (exists ys, comprehension f l = Ok ys) \/ comprehension f l = Raise e.
Proof.
  induction 1 as [|x xs Hx Hxs IH]; [left; by eexists|].
  cbn. destruct Hx as [[y ->]| ->]; [|by right]. cbn.
  destruct IH as [[ys ->]| ->]; [left; by eexists|by right].
Qed.

(** The column [j] of a buffer whose rows all reach column [j]. *)
Lemma column_total (image : buffer) (j : nat) :
  Forall (fun row => (j < length row)%nat) image ->
  exists col,
    comprehension (fun r => pixel_at image r (Z.of_nat j)) (range 0 (len image))
    = Ok col
    /\ length col = length image
    /\ forall i, (i < length image)%nat -> col !! i = pixel_lookup image i j.
Proof.
  intros Hrows.
  assert (Hpix : forall i, (i < length image)%nat ->
            exists p, pixel_lookup image i j = Some p).
  { intros i Hi. destruct (lookup_lt_is_Some_2 image i Hi) as [row Hrow].
    pose proof (Forall_lookup_1 _ _ _ _ Hrows Hrow) as Hj. cbn in Hj.
    destruct (lookup_lt_is_Some_2 row j Hj) as [p Hp].
    exists p. unfold pixel_lookup. by rewrite Hrow. }
  destruct (comprehension_total (fun r => pixel_at image r (Z.of_nat j))
              (range 0 (len image))) as [col Hcol].
  { apply Forall_forall. intros x Hx. unfold len in Hx.
    apply range_elem in Hx as (i & -> & Hi).
    destruct (Hpix i Hi) as [p Hp]. exists p. by apply pixel_at_lookup. }
  exists col. split; [done|]. apply comprehension_inv in Hcol.
  unfold len in Hcol. split.
  - apply Forall2_length in Hcol. by rewrite range_length in Hcol.
  - intros i Hi.
    destruct (Forall2_lookup_l _ _ _ i _ Hcol (range_lookup _ i Hi))
      as (p & Hp & Hfp).
    destruct (Hpix i Hi) as [p' Hp'].
    rewrite (pixel_at_lookup _ _ _ _ Hp') in Hfp. congruence.
Qed.

(** The column [j] of a buffer with a row that does not reach it. *)
Lemma column_raises (image : buffer) (j : nat) :
  Exists (fun row => (length row <= j)%nat) image ->
  comprehension (fun r => pixel_at image r (Z.of_nat j)) (range 0 (len image))
  = Raise IndexError.
Proof.
  intros Hshort. apply comprehension_raises.
  - apply Forall_forall. intros x Hx. unfold len in Hx.
    apply range_elem in Hx as (i & -> & Hi). rewrite pixel_at_nat.
    destruct (pixel_lookup image i j); [left; by eexists|by right].
  - apply Exists_exists in Hshort as (row & Hin & Hlen).
    apply list_elem_of_lookup in Hin as [i Hi].
    apply Exists_exists. exists (Z.of_nat i). split.
    + apply list_elem_of_lookup. exists i. unfold len.
      apply range_lookup. by eapply lookup_lt_Some.
    + rewrite pixel_at_nat. unfold pixel_lookup. rewrite Hi. cbn.
      by rewrite (lookup_ge_None_2 row j Hlen).
Qed.

Lemma transpose_unfold (p0 : RGB) (first' : list RGB) (rest : buffer) :
  let image := (p0 :: first') :: rest in
  transpose image
  = match comprehension
            (fun c => comprehension (fun r => pixel_at image r c)
                                    (range 0 (len image)))
            (range 0 (len (p0 :: first'))) with
    | Ok t => (Ok true, t)
    | Raise e => (Raise e, image)
    end.
Proof. reflexivity. Qed.

(** X5. What [transpose] does to a buffer that is not a rectangle.  An
    empty buffer, or one whose first row is empty, is left as it is and
    [True] is returned.  Otherwise the width is the length of the first
    row: if every row is at least that long, [transpose] returns [True]
    and the result has one row per column of the first row, the pixels
    beyond that width being dropped; if some row is shorter, [transpose]
    raises [IndexError] and the buffer is left as it was. *)
Theorem transpose_ragged (image : buffer) :
  match image with
  | [] | [] :: _ => transpose image = (Ok true, image)
  | first :: rest =>
      (Forall (fun row => (length first <= length row)%nat) rest ->
       exists t,
         transpose image = (Ok true, t)
         /\ rectangular (length first) (length image) t
         /\ forall i j, (i < length first)%nat -> (j < length image)%nat ->
              pixel_lookup t i j = pixel_lookup image j i)
      /\ (Exists (fun row => (length row < length first)%nat) rest ->
          transpose image = (Raise IndexError, image))
  end.
Proof.
  destruct image as [|[|p0 first'] rest]; [done..|].
  set (first := p0 :: first'). set (image := first :: rest).
  pose proof (transpose_unfold p0 first' rest) as Hrun. cbv zeta in Hrun.
  fold first image in Hrun.
  set (column := fun c => comprehension (fun r => pixel_at image r c)
                                        (range 0 (len image))) in *.
  split.
  - intros Hwide.
    assert (Hall : forall j, (j < length first)%nat ->
              Forall (fun row => (j < length row)%nat) image).
    { intros j Hj. constructor; [done|].
      eapply Forall_impl; [exact Hwide|]. intros row Hrow. cbn in *. lia. }
    destruct (comprehension_total column (range 0 (len first))) as [t Ht].
    { apply Forall_forall. intros x Hx. unfold len in Hx.
      apply range_elem in Hx as (j & -> & Hj).
      destruct (column_total image j (Hall j Hj)) as (col & Hcol & _).
      by exists col. }
    rewrite Hrun, Ht. exists t. split; [done|].
    apply comprehension_inv in Ht. unfold len in Ht.
    assert (Hcolumn : forall j col, t !! j = Some col ->
              (j < length first)%nat
              /\ length col = length image
              /\ forall i, (i < length image)%nat ->
                   col !! i = pixel_lookup image i j).
    { intros j col Hj.
      destruct (Forall2_lookup_r _ _ _ _ _ Ht Hj) as (x & Hx & Hfx).
      unfold range in Hx. apply lookup_seqZ in Hx as [-> Hx].
      rewrite Z.add_0_l in Hfx. assert (Hjw : (j < length first)%nat) by lia.
      split; [done|].
      destruct (column_total image j (Hall j Hjw)) as (col' & Hcol' & Hlen & Hp).
      unfold column in Hfx. rewrite Hcol' in Hfx. by injection Hfx as <-. }
    assert (Hlen : length t = length first).
    { apply Forall2_length in Ht. by rewrite range_length in Ht. }
    split.
    + split; [done|]. apply Forall_lookup. intros j col Hj.
      by destruct (Hcolumn j col Hj) as (_ & ? & _).
    + intros j i Hj Hi. unfold pixel_lookup at 1.
      destruct (t !! j) as [col|] eqn:Hcj; cbn.
      * destruct (Hcolumn j col Hcj) as (_ & _ & Hp). by apply Hp.
      * apply lookup_ge_None in Hcj. lia.
  - intros Hshort. rewrite Hrun.
    assert (Hraise : comprehension column (range 0 (len first))
                     = Raise IndexError); [|by rewrite Hraise].
    apply comprehension_raises.
    + apply Forall_forall. intros x Hx. unfold len in Hx.
      apply range_elem in Hx as (j & -> & Hj). unfold column.
      apply comprehension_total_or_raises, Forall_forall.
      intros y Hy. unfold len in Hy. apply range_elem in Hy as (i & -> & Hi).
      rewrite pixel_at_nat.
      destruct (pixel_lookup image i j); [left; by eexists|by right].
    + apply Exists_exists in Hshort as (row & Hin & Hlen).
      apply Exists_exists. exists (Z.of_nat (length row)). split.
      * apply list_elem_of_lookup. exists (length row). unfold len.
        by apply range_lookup.
      * apply column_raises, Exists_cons_tl, Exists_exists.
        exists row. split; [done|lia].
Qed.

Lemma transpose_ragged_witness :
  transpose [[mkRGB 1 1 1 255; mkRGB 2 2 2 255]; [mkRGB 3 3 3 255]]
  = (Raise IndexError,
     [[mkRGB 1 1 1 255; mkRGB 2 2 2 255]; [mkRGB 3 3 3 255]]).
Proof.
  apply (proj2 (transpose_ragged
                  [[mkRGB 1 1 1 255; mkRGB 2 2 2 255]; [mkRGB 3 3 3 255]])).
  apply Exists_cons_hd. cbn. lia.
Defined.

(* ===================================================================== *)
(** * Further properties: the dispatcher                                  *)
(* ===================================================================== *)

Local Open Scope string_scope.

Lemma verify_rows_pixels w (image : buffer) :
  verify_rows (Z.of_nat w) (map (fun row => PList (map PRGB row)) image)
  = Ok (bool_decide (Forall (fun row => length row = w) image)).
Proof.
  induction image as [|row image IH]; cbn [map verify_rows].
  - by rewrite bool_decide_eq_true_2.
  - cbn [pylen rbind]. unfold len. rewrite length_map.
    assert (Hrgb : forallb is_rgb (map PRGB row) = true)
      by (clear; induction row; [done|by cbn]).
    rewrite Hrgb, IH.
    destruct (Z.eqb_spec (Z.of_nat (length row)) (Z.of_nat w)) as [E|E];
      cbn [negb].
    + f_equal. apply bool_decide_ext. rewrite Forall_cons.
      split; [intros H; split; [lia|done]|tauto].
    + f_equal. symmetry. apply bool_decide_eq_false_2.
      rewrite Forall_cons. intros [H _]. lia.
Qed.

(** [verify_image] on a list of lists of pixels: what it returns, by the
    shape of the buffer. *)
Lemma verify_image_cases (image : buffer) :
  (verify_image (as_object image) = Ok true
   /\ exists h w, (0 < h)%nat /\ (0 < w)%nat /\ rectangular h w image)
  \/ (verify_image (as_object image) = Ok false
      /\ ~ exists h w, (0 < h)%nat /\ (0 < w)%nat /\ rectangular h w image).
Proof.
  destruct image as [|first rest].
  { right. split; [done|].
    intros (h & w & Hh & _ & [Hlen _]). cbn in Hlen. lia. }
  assert (Hv : verify_image (as_object (first :: rest))
               = if decide (length first = 0%nat) then Ok false
                 else Ok (bool_decide (Forall (fun row => length row
                                                  = length first)
                                         (first :: rest)))).
  { unfold as_object, verify_image. cbn [map]. unfold len.
    rewrite length_map.
    destruct (Z.eqb_spec (Z.of_nat (length first)) 0) as [E|E];
      [by rewrite decide_True by lia|].
    rewrite decide_False by lia.
    apply (verify_rows_pixels (length first) (first :: rest)). }
  rewrite Hv. destruct (decide (length first = 0%nat)) as [E|E].
  { right. split; [done|].
    intros (h & w & _ & Hw & [_ Hrows]). apply Forall_cons in Hrows as [? _].
    lia. }
  destruct (decide (Forall (fun row => length row = length first)
                      (first :: rest))) as [Hall|Hnot].
  - left. rewrite bool_decide_eq_true_2 by done. split; [done|].
    exists (length (first :: rest)), (length first).
    split; [cbn; lia|]. split; [lia|]. by split.
  - right. rewrite bool_decide_eq_false_2 by done. split; [done|].
    intros (h & w & _ & _ & [_ Hrows]). apply Hnot.
    pose proof Hrows as Hr. apply Forall_cons in Hr as [<- _]. done.
Qed.

(** X6. On a list of lists of pixels [verify_image] never raises, and it
    returns [True] exactly when the buffer has at least one row, a first
    row with at least one pixel, and all rows of the first row's length. *)
Theorem verify_image_accepts_rectangles (image : buffer) :
  (exists b, verify_image (as_object image) = Ok b)
  /\ (verify_image (as_object image) = Ok true
      <-> exists h w, (0 < h)%nat /\ (0 < w)%nat /\ rectangular h w image).
Proof.
  destruct (verify_image_cases image) as [[Hv Hrect]|[Hv Hnot]]; rewrite Hv.
  - split; [by eexists|]. by split.
  - split; [by eexists|]. split; [done|]. intros Hrect. by destruct Hnot.
Qed.

(** The loop of [extract_options]: the tokens that are not options are
    kept in order, the option tokens are stored from left to right. *)
Lemma extract_loop_spec kept rest options :
  extract_loop kept rest options
  = ((kept ++ filter (fun item => negb (is_option item)) rest)%list,
     fold_left (fun d item => dict_set d (option_key item) (option_value item))
               (filter (fun item => is_option item) rest) options).
Proof.
  revert kept options. induction rest as [|item rest IH]; intros kept options.
  - cbn. by rewrite app_nil_r.
  - cbn [extract_loop]. rewrite !filter_cons.
    destruct (is_option item) eqn:E; cbn [negb].
    + rewrite decide_False by (intros []). rewrite decide_True by exact I.
      by rewrite IH.
    + rewrite decide_True by exact I. rewrite decide_False by (intros []).
      rewrite IH. by rewrite <- app_assoc.
Qed.

Lemma extract_options_spec argv :
  extract_options argv
  = (Ok (fold_left (fun d item => dict_set d (option_key item)
                                    (option_value item))
                   (filter (fun item => is_option item) (drop 1 argv)) []),
     positional argv).
Proof. unfold extract_options. by rewrite extract_loop_spec. Qed.



Lemma member_spec k l : member k l = true <-> k ∈ l.
Proof.
  unfold member. induction l as [|x l IH]; cbn.
  - split; [done|]. intros H. inversion H.
  - rewrite orb_true_iff, IH, elem_of_cons.
    by destruct (String.eqb_spec k x); split; intros [|]; auto.
Qed.








(** X9. A run saves a file only at the end of a complete, successful run:
    if the events of a run contain [SaveImage out], then the command was
    resolved to a function, the input was read, the call of the function
    returned [True], [verify_image] accepted the buffer the call left, and
    the events are exactly the read, the call and the save, in this
    order. *)
Theorem main_saves_only_after_success
    (module : list (string * attribute))
    (read_image : string -> option buffer)
    (call : function -> dict -> M buffer bool)
    (argv : list string) (out : string) :
  SaveImage out ∈ snd (main module read_image call argv) ->
  exists name f options input image image',
    lookup_command module name options = Ok (inl f)
    /\ read_image input = Some image
    /\ call f options image = (Ok true, image')
    /\ verify_image (as_object image') = Ok true
    /\ positional argv !! 3%nat = Some out
    /\ main module read_image call argv
       = (Ok tt, [ReadImage input; Call f options; SaveImage out]).
Proof.
  intros Hsave.
  destruct (decide (length (positional argv) = 3%nat
                    \/ length (positional argv) = 4%nat)) as [Hlen|Hlen].
  2: { exfalso. revert Hsave. unfold main, parse_args. unfold bind at 1.
       rewrite extract_options_spec. unfold bind at 1, get.
       destruct (Nat.eqb_spec (length (positional argv)) 3); [tauto|].
       destruct (Nat.eqb_spec (length (positional argv)) 4); [tauto|].
       cbn. intros Hsave. apply list_elem_of_singleton in Hsave.
       discriminate. }
  destruct (lookup_lt_is_Some_2 (positional argv) 1 ltac:(lia)) as [name Hname].
  destruct (lookup_lt_is_Some_2 (positional argv) 2 ltac:(lia)) as [input Hin].
  pose proof (extract_options_spec argv) as Hext.
  set (options := fold_left _ _ _) in Hext.
  pose proof (parse_args_lookup module argv options (positional argv) name
                Hext Hlen Hname) as Hparse.
  unfold main in *. rewrite Hparse in *. rewrite Hin in *.
  destruct (lookup_command module name options) as [[f|message]|e] eqn:Hlook;
    cbn [p_error p_command p_options p_input p_output] in *.
  - destruct (read_image input) as [image|] eqn:Hread.
    2: { apply list_elem_of_singleton in Hsave. discriminate. }
    destruct (call f options image) as [[process|e] image'] eqn:Hcall.
    2: { repeat (apply elem_of_cons in Hsave as [Hsave|Hsave];
                 [discriminate|]). inversion Hsave. }
    destruct (Nat.eqb_spec (length (positional argv)) 4) as [E4|E4].
    2: { repeat (apply elem_of_cons in Hsave as [Hsave|Hsave];
                 [discriminate|]). inversion Hsave. }
    destruct (positional argv !! 3%nat) as [output|] eqn:Hout.
    2: { repeat (apply elem_of_cons in Hsave as [Hsave|Hsave];
                 [discriminate|]). inversion Hsave. }
    destruct process.
    2: { repeat (apply elem_of_cons in Hsave as [Hsave|Hsave];
                 [discriminate|]). inversion Hsave. }
    destruct (verify_image (as_object image')) as [[]|e] eqn:Hver.
    + cbn [snd] in Hsave.
      repeat (apply elem_of_cons in Hsave as [Hsave|Hsave];
              [try discriminate|]); [|inversion Hsave].
      injection Hsave as ->.
      by exists name, f, options, input, image, image'.
    + repeat (apply elem_of_cons in Hsave as [Hsave|Hsave];
              [discriminate|]). inversion Hsave.
    + repeat (apply elem_of_cons in Hsave as [Hsave|Hsave];
              [discriminate|]). inversion Hsave.
  - apply list_elem_of_singleton in Hsave. discriminate.
  - inversion Hsave.
Qed.

Lemma main_saves_only_after_success_witness :
  main (plugins2 []) (fun _ => Some [[mkRGB 9 2 3 255]]) (fun _ _ => dered)
       ["pictool.py"; "dered"; "in.png"; "out.png"]
  = (Ok tt, [ReadImage "in.png"; Call fn_dered []; SaveImage "out.png"]).
Proof.
  destruct (main_saves_only_after_success (plugins2 [])
              (fun _ => Some [[mkRGB 9 2 3 255]]) (fun _ _ => dered)
              ["pictool.py"; "dered"; "in.png"; "out.png"] "out.png")
    as (name & f & options & input & image & image' & _);
    [vm_compute; do 2 right; left|reflexivity].
Defined.

Lemma rejected_keys_nil f options :
  rejected_keys f options = []
  <-> Forall (fun key => key ∈ parameters f) (keys options).
Proof.
  unfold rejected_keys, parameters. split.
  - intros Hnil. apply Forall_forall. intros key Hkey.
    destruct (member key (take (co_argcount f) (co_varnames f))) eqn:E;
      [by apply member_spec|].
    assert (Hin : key ∈ filter (fun key => negb (member key
                     (take (co_argcount f) (co_varnames f)))) (keys options)).
    { apply list_elem_of_filter. split; [|done]. by rewrite E. }
    rewrite Hnil in Hin. inversion Hin.
  - intros Hall. induction Hall as [|key l Hkey _ IH]; [done|].
    rewrite filter_cons. apply member_spec in Hkey. rewrite Hkey.
    cbn [negb]. by rewrite decide_False by (intros []).
Qed.

(** X10. In the module [plugins2], whatever names the interpreter adds to
    it, a command resolves to a function exactly when it is the name of one
    of the eleven functions the module defines and every option key is one
    of that function's parameters; every one of the eleven has exactly one
    parameter without a default value. *)
Theorem lookup_command_resolves (implicit : list string) (name : string)
    (options : dict) (f : function) :
  (lookup_command (plugins2 implicit) name options = Ok (inl f)
   <-> f ∈ plugins2_functions /\ fn_name f = name
       /\ Forall (fun key => key ∈ parameters f) (keys options))
  /\ Forall (fun g => length (parameters g)
                      = S (match fn_defaults g with
                           | None => 0%nat
                           | Some d => length d
                           end)) plugins2_functions.
Proof.
  split; [|by repeat constructor]. split.
  - intros Hlook.
    destruct (registry_exact _ _ _ _ Hlook) as [Hf Hname].
    split; [done|]. split; [done|]. apply rejected_keys_nil.
    unfold lookup_command in Hlook.
    destruct (getattr (plugins2 implicit) name) as [[g|]|] eqn:Hget;
      [|done..].
    destruct (negb _); [done|]. unfold rejected_keys.
    destruct (filter (fun key => negb (member key
                (take (co_argcount g) (co_varnames g)))) (keys options))
      eqn:Hfil; [|done].
    injection Hlook as <-. exact Hfil.
  - intros (Hf & Hname & Hkeys). apply rejected_keys_nil in Hkeys.
    assert (Hget : getattr (plugins2 implicit) name = Some (Function f)
                   /\ length (take (co_argcount f) (co_varnames f))
                      = S (match fn_defaults f with
                           | None => 0%nat
                           | Some d => length d
                           end)).
    { subst name. unfold plugins2_functions in Hf.
      repeat (apply elem_of_cons in Hf as [->|Hf]; [by split|]).
      inversion Hf. }
    destruct Hget as [Hget Hlen].
    rewrite (unrecognized_options_listed _ _ f _ Hget Hlen). by rewrite Hkeys.
Qed.

Local Close Scope string_scope.

(* ===================================================================== *)
(** * Further properties: brighten                                        *)
(* ===================================================================== *)

(** A loop whose body returns on every object relates the objects before
    and after as the body does. *)
Lemma for_items_Forall2 {S} (R : S -> S -> Prop) (body : M S unit) (l : list S) :
  Forall (fun x => exists y, body x = (Ok tt, y) /\ R x y) l ->
  exists l', for_items body l = (Ok tt, l') /\ Forall2 R l l'.
Proof.
  induction 1 as [|x xs (y & Hy & HR) _ (l' & Hl' & IH)]; cbn.
  - exists []. by split.
  - rewrite Hy, Hl'. exists (y :: l'). split; [done|by constructor].
Qed.

(** Rounding a float of sign [-] gives no positive integer. *)
Lemma round_nonpos x n : has_sign true x -> round x = Ok n -> n <= 0.
Proof.
  destruct x as [s|s| |s m e]; cbn [has_sign round]; try done.
  - intros _ [= <-]. lia.
  - intros ->. destruct (magnitude_parts m e) as [[q r] d] eqn:E.
    intros [= <-].
    assert (0 <= q).
    { unfold magnitude_parts in E. destruct e as [|p|p]; injection E as <- <- <-.
      - lia.
      - assert (0 < 2 ^ Zpos p) by (apply Z.pow_pos_nonneg; lia). nia.
      - apply Z.div_pos; [lia|]. apply Z.pow_pos_nonneg; lia. }
    destruct (2 * r ?= d); [destruct (Z.even q)| |]; lia.
Qed.

(** A channel of 0..255 scaled by a finite factor that is not huge. *)
Lemma scale_channel_sign old factor K s :
  0 <= old <= 255 -> mag_le K factor -> -1000 <= K <= 900 ->
  has_sign s factor ->
  exists v, scale_channel old factor = Ok v
            /\ (s = false -> 0 <= v) /\ (s = true -> v <= 0).
Proof.
  intros Hold Hmag HK Hsign. unfold scale_channel.
  destruct (float_of_int_bound old 8) as (x & -> & Hx & Hsx);
    [apply Zdigits2_le; lia|lia|].
  cbn [rbind]. replace (old <? 0) with false in Hsx by lia.
  pose proof (fmul_bound x factor 9 K Hx Hmag ltac:(lia)) as Hprod.
  pose proof (fmul_sign x factor false s (mag_le_finite _ _ Hx)
                (mag_le_finite _ _ Hmag) Hsx Hsign
                (mag_le_mono (9 + K + 1) 971 _ ltac:(lia) Hprod)) as Hs.
  cbn [xorb] in Hs.
  destruct (round_finite _ (mag_le_finite _ _ Hprod)) as [v Hv].
  exists v. split; [done|]. split; intros ->.
  - by eapply round_nonneg.
  - by eapply round_nonpos.
Qed.

Lemma brighten_pixel_brightened factor p p' :
  brightened factor p = Ok p' -> brighten_pixel factor p = (Ok tt, p').
Proof.
  unfold brightened, brighten_pixel, bind, get, lift.
  destruct (scale_channel (red p) factor) as [r|]; [|done].
  destruct (scale_channel (green p) factor) as [g|]; [|done].
  destruct (scale_channel (blue p) factor) as [b|]; [|done].
  cbn. by intros [= <-].
Qed.

(** X11. [brighten] with a finite factor below [2^900] in magnitude, on a
    buffer whose channels are in 0..255: the call returns [True], the shape
    of the buffer is kept, and every pixel has each colour channel replaced
    by [min(round(old * factor), 255)] and its alpha unchanged.  No channel
    exceeds 255 afterwards.  There is no lower limit: with a factor of sign
    [+] the channels stay in 0..255, with a factor of sign [-] none is
    positive. *)
Theorem brighten_caps_at_255 (factor : float) (K : Z) (s : bool)
    (image : buffer) :
  Forall (Forall valid_pixel) image ->
  mag_le K factor -> -1000 <= K <= 900 -> has_sign s factor ->
  exists image',
    brighten factor image = (Ok true, image')
    /\ Forall2 (Forall2 (fun p p' =>
         brightened factor p = Ok p'
         /\ alpha p' = alpha p /\ capped_pixel p'
         /\ (s = false -> valid_pixel p')
         /\ (s = true -> nonpos_pixel p'))) image image'.
Proof.
  intros Hvalid Hmag HK Hsign.
  destruct (for_items_Forall2
              (Forall2 (fun p p' =>
                 brightened factor p = Ok p'
                 /\ alpha p' = alpha p /\ capped_pixel p'
                 /\ (s = false -> valid_pixel p')
                 /\ (s = true -> nonpos_pixel p')))
              (for_items (brighten_pixel factor)) image) as (image' & Hrun & HR).
  { eapply Forall_impl; [exact Hvalid|]. intros row Hrow. cbn beta.
    apply for_items_Forall2.
    eapply Forall_impl; [exact Hrow|]. intros p (Hr & Hg & Hb & Ha). cbn beta.
    destruct (scale_channel_sign (red p) factor K s Hr Hmag HK Hsign)
      as (r & Er & Hr0 & Hr1).
    destruct (scale_channel_sign (green p) factor K s Hg Hmag HK Hsign)
      as (g & Eg & Hg0 & Hg1).
    destruct (scale_channel_sign (blue p) factor K s Hb Hmag HK Hsign)
      as (b & Eb & Hb0 & Hb1).
    assert (Hbr : brightened factor p
                  = Ok (mkRGB (Z.min r 255) (Z.min g 255) (Z.min b 255) (alpha p)))
      by (unfold brightened; by rewrite Er, Eg, Eb).
    eexists. split; [by apply brighten_pixel_brightened|].
    split; [done|]. split; [done|]. split; [unfold capped_pixel; cbn; lia|].
    split; intros ->.
    - specialize (Hr0 eq_refl). specialize (Hg0 eq_refl).
      specialize (Hb0 eq_refl). unfold valid_pixel. cbn. lia.
    - specialize (Hr1 eq_refl). specialize (Hg1 eq_refl).
      specialize (Hb1 eq_refl). unfold nonpos_pixel. cbn. lia. }
  exists image'. split; [|done].
  unfold brighten, bind, for_pixels. by rewrite Hrun.
Qed.

Lemma brighten_caps_at_255_witness :
  exists image',
    brighten (literal 125 100) [[mkRGB 100 250 0 7]] = (Ok true, image')
    /\ Forall2 (Forall2 (fun p p' =>
         brightened (literal 125 100) p = Ok p'
         /\ alpha p' = alpha p /\ capped_pixel p'
         /\ (false = false -> valid_pixel p')
         /\ (false = true -> nonpos_pixel p')))
         [[mkRGB 100 250 0 7]] image'.
Proof.
  apply (brighten_caps_at_255 (literal 125 100) 1 false [[mkRGB 100 250 0 7]]);
    [repeat constructor; cbn; lia | vm_compute; discriminate | lia
    | reflexivity].
Defined.

Example brighten_example :
  brighten (literal 125 100) [[mkRGB 100 250 0 7]]
  = (Ok true, [[mkRGB 125 255 0 7]])
  /\ brighten (SFopp (literal 125 100)) [[mkRGB 100 250 0 7]]
     = (Ok true, [[mkRGB (-125) (-312) 0 7]]).
Proof. by vm_compute. Qed.

(** A channel of 0..255 scaled by a factor that is not finite: [round]
    raises. *)
Lemma scale_channel_not_finite old factor :
  0 <= old <= 255 -> is_finite factor = false ->
  exists e, (e = ValueError \/ e = OverflowError)
            /\ scale_channel old factor = Raise e.
Proof.
  intros Hold Hfactor. unfold scale_channel.
  destruct (float_of_int_bound old 8) as (x & -> & Hx & _);
    [apply Zdigits2_le; lia|lia|].
  cbn [rbind].
  destruct x as [sx|sx| |sx mx ex]; try done;
    destruct factor as [sf|sf| |sf mf ef]; try done; cbn; eauto.
Qed.

Lemma for_pixels_raises_at_first (body : M RGB unit) (image : buffer)
    (E : exn -> Prop) :
  Forall (Forall (fun p => exists e, E e /\ body p = (Raise e, p))) image ->
  Exists (fun row => row <> []) image ->
  exists e, E e /\ for_pixels body image = (Raise e, image).
Proof.
  unfold for_pixels.
  induction 1 as [|row rest Hrow _ IH]; intros Hex; [by inversion Hex|].
  destruct row as [|p ps].
  - inversion Hex as [? ? Hne|? ? Htl]; subst; [done|].
    destruct (IH Htl) as (e & He & Hrun). exists e. split; [done|].
    cbn. by rewrite Hrun.
  - apply Forall_cons in Hrow as [(e & He & Hp) _].
    exists e. split; [done|]. cbn. by rewrite Hp.
Qed.

(** X12. [brighten] with a factor that is not finite ([nan], [inf],
    [-inf], which [--factor=nan] and the like give), on a buffer of
    channels in 0..255 that has at least one pixel: the call raises
    [ValueError] or [OverflowError] at the first pixel, and the buffer is
    left exactly as it was. *)
Theorem brighten_not_finite_raises (factor : float) (image : buffer) :
  Forall (Forall valid_pixel) image ->
  Exists (fun row => row <> []) image ->
  is_finite factor = false ->
  exists e, (e = ValueError \/ e = OverflowError)
            /\ brighten factor image = (Raise e, image).
Proof.
  intros Hvalid Hex Hfactor.
  destruct (for_pixels_raises_at_first (brighten_pixel factor) image
              (fun e => e = ValueError \/ e = OverflowError))
    as (e & He & Hrun); [|done|].
  - eapply Forall_impl; [exact Hvalid|]. intros row Hrow. cbn beta.
    eapply Forall_impl; [exact Hrow|]. intros p (Hr & _). cbn beta.
    destruct (scale_channel_not_finite (red p) factor Hr Hfactor)
      as (e & He & Hs).
    exists e. split; [done|].
    unfold brighten_pixel, bind, get, lift. by rewrite Hs.
  - exists e. split; [done|]. unfold brighten, bind. by rewrite Hrun.
Qed.

Lemma brighten_not_finite_raises_witness :
  exists e, (e = ValueError \/ e = OverflowError)
            /\ brighten S754_nan [[mkRGB 100 250 0 7]]
               = (Raise e, [[mkRGB 100 250 0 7]]).
Proof.
  apply (brighten_not_finite_raises S754_nan [[mkRGB 100 250 0 7]]);
    [repeat constructor; cbn; lia | by apply Exists_cons_hd | reflexivity].
Defined.

(* ===================================================================== *)
(** * Further properties: blur                                            *)
(* ===================================================================== *)

Lemma Zsum_scale {A} (k : Z) (f : A -> Z) l :
  Zsum (fun x => k * f x) l = k * Zsum f l.
Proof. induction l as [|x l IH]; cbn; [lia|]. rewrite IH. lia. Qed.

(** [round(k * n / n)] is [k]. *)
Lemma rounded_mean_exact k n :
  0 <= k <= 255 -> 0 < n < 2 ^ 43 -> rounded_mean (k * n) n = Ok k.
Proof.
  intros Hk Hn.
  destruct (rounded_mean_total (k * n) n ltac:(lia) ltac:(nia)) as [v Hv].
  pose proof (rounded_mean_nearest (k * n) n v Hn ltac:(nia) Hv) as Hnear.
  unfold nearest_integer in Hnear. rewrite Hv. f_equal.
  replace (2 * n * v - 2 * (k * n)) with (n * (2 * (v - k))) in Hnear by ring.
  rewrite Z.abs_mul, (Z.abs_eq n) in Hnear by lia. nia.
Qed.

(** The box average of a window that holds one colour is that colour. *)
Lemma box_average_uniform (h w : nat) image radius r c p :
  valid_pixel p -> 0 <= radius ->
  0 <= r < Z.of_nat h -> 0 <= c < Z.of_nat w ->
  window_count (Z.of_nat h) (Z.of_nat w) radius r c < 2 ^ 43 ->
  (forall i j, 0 <= i < Z.of_nat h -> 0 <= j < Z.of_nat w ->
     in_window radius r c i j = true -> pixel_or_black image i j = p) ->
  box_average (Z.of_nat h) (Z.of_nat w) image radius r c = Ok p.
Proof.
  intros (Hr & Hg & Hb & Ha) Hrad Hrr Hcc Hsize Hsame.
  pose proof (window_count_pos (Z.of_nat h) (Z.of_nat w) radius r c
                Hrad Hrr Hcc) as Hn.
  assert (Hsum : forall ch : RGB -> Z,
            window_sum ch (Z.of_nat h) (Z.of_nat w) image radius r c
            = ch p * window_count (Z.of_nat h) (Z.of_nat w) radius r c).
  { intros ch. unfold window_sum, window_count.
    rewrite <- Zsum_scale. apply Zsum_ext. intros i Hi.
    rewrite <- Zsum_scale. apply Zsum_ext. intros j Hj.
    apply range_elem_iff in Hi, Hj.
    destruct (in_window radius r c i j) eqn:Hin; [|lia].
    rewrite (Hsame i j) by (done || lia). lia. }
  unfold box_average. cbv zeta. rewrite !Hsum.
  rewrite !rounded_mean_exact by (done || lia). cbn [rbind].
  by destruct p.
Qed.

(** What [blur] computes, for a radius that is not negative. *)
Lemma blur_run (h w : nat) (image : buffer) (radius : Z) :
  (0 < h)%nat -> (0 < w)%nat -> rectangular h w image ->
  Forall (Forall valid_pixel) image -> 0 <= radius ->
  exists image',
    blur radius image = (Ok true, image')
    /\ rectangular h w image'
    /\ forall i j, (i < h)%nat -> (j < w)%nat ->
         pixel_lookup image' i j
         = Some (box_pixel (Z.of_nat h) (Z.of_nat w) image radius
                   (Z.of_nat i) (Z.of_nat j)).
Proof.
  intros Hh Hw Hrect Hvalid Hrad.
  destruct (blur_loops h w image radius Hrect Hvalid Hrad)
    as (image' & Hrun & Hrect' & Hpix).
  exists image'. split; [|by split].
  unfold blur. unfold bind at 1.
  rewrite (dimensions_rectangular h w) by done.
  cbn beta iota. unfold bind at 1, get. cbn beta iota. unfold bind at 1.
  cbn zeta in Hrun. by rewrite Hrun.
Qed.

Lemma pixel_or_black_lookup image (i j : nat) p :
  pixel_lookup image i j = Some p ->
  pixel_or_black image (Z.of_nat i) (Z.of_nat j) = p.
Proof. intros Hp. unfold pixel_or_black. by rewrite !Nat2Z.id, Hp. Qed.

(** The window of radius 0 holds one position. *)
Lemma window_zero (h w : nat) (i j : nat) :
  (i < h)%nat -> (j < w)%nat ->
  window_count (Z.of_nat h) (Z.of_nat w) 0 (Z.of_nat i) (Z.of_nat j) = 1.
Proof.
  intros Hi Hj. unfold window_count.
  rewrite <- (window_sum_ranges (fun _ _ => 1)) by lia.
  replace (Z.max 0 (Z.of_nat j - 0)) with (Z.of_nat j) by lia.
  replace (Z.min (Z.of_nat w - 1) (Z.of_nat j + 0) + 1)
    with (Z.of_nat j + 1) by lia.
  replace (Z.max 0 (Z.of_nat i - 0)) with (Z.of_nat i) by lia.
  replace (Z.min (Z.of_nat h - 1) (Z.of_nat i + 0) + 1)
    with (Z.of_nat i + 1) by lia.
  unfold range. replace (Z.of_nat i + 1 - Z.of_nat i) with 1 by lia.
  replace (Z.of_nat j + 1 - Z.of_nat j) with 1 by lia. reflexivity.
Qed.

(** X13. [blur] with radius 0 on a buffer of [h > 0] rows and [w > 0]
    columns whose channels are in 0..255 returns [True] and leaves the
    buffer unchanged: every window holds its centre only, and
    [round(v / 1)] is [v]. *)
Theorem blur_radius_zero (h w : nat) (image : buffer) :
  (0 < h)%nat -> (0 < w)%nat -> rectangular h w image ->
  Forall (Forall valid_pixel) image ->
  blur 0 image = (Ok true, image).
Proof.
  intros Hh Hw Hrect Hvalid.
  destruct (blur_run h w image 0 Hh Hw Hrect Hvalid ltac:(lia))
    as (image' & -> & Hrect' & Hpix).
  f_equal. apply (buffer_ext h w); [done..|]. intros i j Hi Hj.
  rewrite (Hpix i j Hi Hj).
  destruct (rectangular_pixel h w image i j Hrect Hi Hj) as [p Hp].
  rewrite Hp. f_equal. unfold box_pixel.
  rewrite (box_average_uniform h w image 0 (Z.of_nat i) (Z.of_nat j) p);
    [done|by eapply valid_pixel_lookup|lia..| |].
  - rewrite window_zero by done. lia.
  - intros i' j' Hi' Hj' Hin. unfold in_window in Hin.
    apply andb_true_iff in Hin as [H1 H2].
    apply Z.leb_le in H1, H2.
    replace i' with (Z.of_nat i) by lia. replace j' with (Z.of_nat j) by lia.
    by apply pixel_or_black_lookup.
Qed.

Lemma blur_radius_zero_witness :
  let image := [[mkRGB 0 0 0 255; mkRGB 10 20 30 255];
                [mkRGB 1 2 3 4; mkRGB 5 5 5 5]] in
  blur 0 image = (Ok true, image).
Proof.
  intros image.
  apply (blur_radius_zero 2 2 image);
    [lia | lia | split; [reflexivity | repeat constructor]
    | repeat constructor; cbn; lia].
Defined.

(** X14. [blur] leaves a buffer of one colour unchanged: on a buffer of
    [h > 0] rows and [w > 0] columns, fewer than [2^43] pixels in all, whose
    pixels are all the same pixel with channels in 0..255, [blur] with a
    radius that is not negative returns [True] and the buffer is the same
    afterwards. *)
Theorem blur_uniform_image (h w : nat) (image : buffer) (radius : Z)
    (p : RGB) :
  (0 < h)%nat -> (0 < w)%nat -> rectangular h w image ->
  Z.of_nat h * Z.of_nat w < 2 ^ 43 ->
  valid_pixel p -> Forall (Forall (fun q => q = p)) image -> 0 <= radius ->
  blur radius image = (Ok true, image).
Proof.
  intros Hh Hw Hrect Hsize Hp Hsame Hrad.
  assert (Hvalid : Forall (Forall valid_pixel) image).
  { eapply Forall_impl; [exact Hsame|]. intros row Hrow. cbn beta.
    eapply Forall_impl; [exact Hrow|]. by intros q ->. }
  assert (Hlook : forall i j, (i < h)%nat -> (j < w)%nat ->
            pixel_lookup image i j = Some p).
  { intros i j Hi Hj.
    destruct (rectangular_pixel h w image i j Hrect Hi Hj) as [q Hq].
    rewrite Hq. f_equal. unfold pixel_lookup in Hq.
    destruct (image !! i) as [row|] eqn:Hrow; [|done]. cbn in Hq.
    pose proof (Forall_lookup_1 _ _ _ _ Hsame Hrow) as Hr. cbn beta in Hr.
    exact (Forall_lookup_1 _ _ _ _ Hr Hq). }
  destruct (blur_run h w image radius Hh Hw Hrect Hvalid Hrad)
    as (image' & -> & Hrect' & Hpix).
  f_equal. apply (buffer_ext h w); [done..|]. intros i j Hi Hj.
  rewrite (Hpix i j Hi Hj), (Hlook i j Hi Hj). f_equal. unfold box_pixel.
  rewrite (box_average_uniform h w image radius (Z.of_nat i) (Z.of_nat j) p);
    [done|done|done|lia|lia| |].
  - pose proof (window_count_le h w radius (Z.of_nat i) (Z.of_nat j)). lia.
  - intros i' j' Hi' Hj' _.
    rewrite <- (Z2Nat.id i'), <- (Z2Nat.id j') by lia.
    apply pixel_or_black_lookup, Hlook; lia.
Qed.

Lemma blur_uniform_image_witness :
  let image := [[mkRGB 7 20 255 255; mkRGB 7 20 255 255; mkRGB 7 20 255 255];
                [mkRGB 7 20 255 255; mkRGB 7 20 255 255; mkRGB 7 20 255 255]] in
  blur 5 image = (Ok true, image).
Proof.
  intros image.
  apply (blur_uniform_image 2 3 image 5 (mkRGB 7 20 255 255));
    [lia | lia | split; [reflexivity | repeat constructor] | cbn; lia
    | unfold valid_pixel; cbn; lia | repeat constructor | lia].
Defined.

Lemma range_empty a b : b <= a -> range a b = [].
Proof.
  intros H. unfold range, seqZ. by replace (Z.to_nat (b - a)) with 0%nat by lia.
Qed.

Lemma range_cons a b : a < b -> range a b = a :: range (a + 1) b.
Proof.
  intros H. unfold range. rewrite seqZ_cons by lia. f_equal.
  f_equal; lia.
Qed.

(** A loop raises what its body raises on the first element. *)
Lemma for_each_raises_head {S B} (x : B) (xs : list B) (body : B -> M S unit)
    s e s' :
  body x s = (Raise e, s') -> for_each (x :: xs) body s = (Raise e, s').
Proof. intros H. cbn. unfold bind. by rewrite H. Qed.

(** X15. [blur] called with a negative int radius on a buffer of [h > 0]
    rows and [w > 0] columns: the window of the first pixel is empty, the
    count is 0, and the call raises [ZeroDivisionError] before it has
    written anything; the buffer is left as it was. *)
Theorem blur_negative_radius (h w : nat) (image : buffer) (radius : Z) :
  (0 < h)%nat -> (0 < w)%nat -> rectangular h w image -> radius < 0 ->
  blur radius image = (Raise ZeroDivisionError, image).
Proof.
  intros Hh Hw Hrect Hrad. unfold blur. unfold bind at 1.
  rewrite (dimensions_rectangular h w) by done.
  cbn beta iota. unfold bind at 1, get. cbn beta iota. unfold bind at 1.
  rewrite (range_cons 0 (Z.of_nat h)) by lia.
  erewrite for_each_raises_head; [done|].
  rewrite (range_cons 0 (Z.of_nat w)) by lia.
  apply for_each_raises_head. cbv zeta.
  rewrite (range_empty (Z.max 0 (0 - radius))) by lia.
  reflexivity.
Qed.

Lemma blur_negative_radius_witness :
  let image := [[mkRGB 0 0 0 255; mkRGB 10 20 30 255];
                [mkRGB 1 2 3 4; mkRGB 5 5 5 5]] in
  blur (-1) image = (Raise ZeroDivisionError, image).
Proof.
  intros image.
  apply (blur_negative_radius 2 2 image (-1));
    [lia | lia | split; [reflexivity | repeat constructor] | lia].
Defined.

(* ===================================================================== *)
(** * Further properties: pixellate                                       *)
(* ===================================================================== *)

(** X16. [pixellate] called with an int step that is not positive, on a
    buffer with at least one row: with step 0 the call raises [ValueError]
    (the step of [range] must not be zero), with a negative step the loops
    run over no block and the call returns [True]; in both cases the buffer
    is left as it was. *)
Theorem pixellate_step_not_positive (h w : nat) (image : buffer) (step : Z) :
  (0 < h)%nat -> rectangular h w image -> step <= 0 ->
  pixellate step image
  = (if step =? 0 then Raise ValueError else Ok true, image).
Proof.
  intros Hh Hrect Hstep. unfold pixellate. unfold bind at 1.
  rewrite (dimensions_rectangular h w) by done.
  cbn beta iota. unfold bind at 1, lift, range_step.
  destruct (Z.eqb_spec step 0) as [->|Hne]; [done|].
  destruct (Z.ltb_spec 0 step); [lia|].
  assert (Hq : (0 - Z.of_nat h - step - 1) / (- step) <= 0).
  { assert ((0 - Z.of_nat h - step - 1) / (- step) < 1); [|lia].
    apply Z.div_lt_upper_bound; lia. }
  unfold seqZ.
  replace (Z.to_nat ((0 - Z.of_nat h - step - 1) / - step)) with 0%nat by lia.
  reflexivity.
Qed.

Lemma pixellate_step_not_positive_witness :
  let image := [[mkRGB 0 0 0 255; mkRGB 10 20 30 255];
                [mkRGB 1 2 3 4; mkRGB 5 5 5 5]] in
  pixellate 0 image = (Raise ValueError, image)
  /\ pixellate (-2) image = (Ok true, image).
Proof.
  intros image.
  assert (Hrect : rectangular 2 2 image)
    by (split; [reflexivity | repeat constructor]).
  split.
  - apply (pixellate_step_not_positive 2 2 image 0); [lia | done | lia].
  - apply (pixellate_step_not_positive 2 2 image (-2)); [lia | done | lia].
Defined.

(* ===================================================================== *)
(** * Further properties: vignette                                        *)
(* ===================================================================== *)

(** [round(v * 1.0)] is [v] for every channel value of 0..255. *)
Lemma scale_channel_one v : 0 <= v <= 255 -> scale_channel v one = Ok v.
Proof.
  intros Hv.
  assert (Hall : forallb (fun v => match scale_channel v one with
                                   | Ok v' => v' =? v
                                   | Raise _ => false
                                   end) (seqZ 0 256) = true)
    by (vm_compute; reflexivity).
  rewrite forallb_Forall, Forall_forall in Hall.
  specialize (Hall v ltac:(apply elem_of_seqZ; lia)).
  destruct (scale_channel v one) as [v'|e]; [|done].
  f_equal. by apply Z.eqb_eq.
Qed.

(** [round(v * 0.0)] is 0 for every channel value of 0..255. *)
Lemma scale_channel_zero v :
  0 <= v <= 255 -> scale_channel v (S754_zero false) = Ok 0.
Proof.
  intros Hv. unfold scale_channel.
  destruct (float_of_int_bound v 8) as (x & -> & Hx & _);
    [apply Zdigits2_le; lia|lia|].
  cbn [rbind]. by destruct x.
Qed.

(** The factor is [1.0] at the centre and [0.0] at the corner [(0, 0)]. *)
Lemma factor_at_centre_and_corner h w :
  0 < h <= 2 ^ 26 -> 0 < w <= 2 ^ 26 -> 2 <= h \/ 2 <= w ->
  factor_at h w (h / 2) (w / 2) = Ok one
  /\ factor_at h w 0 0 = Ok (S754_zero false).
Proof.
  intros Hh Hw H2.
  pose proof (corner_distance_bounds h w Hh Hw H2) as HA.
  unfold factor_at, corner_distance.
  set (cr := h / 2) in *. set (cc := w / 2) in *.
  rewrite (math_sqrt_exact _ HA).
  destruct (canon_finite false _ (sqrt_exponent (cr ^ 2 + cc ^ 2))
              (sqrt_mantissa_bounds _ HA)) as (mH & eH & EH & _).
  rewrite EH. cbn [rbind]. unfold vignette_factor. split.
  - rewrite !Z.sub_diag. change (0 ^ 2 + 0 ^ 2) with 0.
    rewrite math_sqrt_zero. reflexivity.
  - replace ((0 - cr) ^ 2 + (0 - cc) ^ 2) with (cr ^ 2 + cc ^ 2) by ring.
    rewrite (math_sqrt_exact _ HA), EH. cbn [rbind].
    unfold float_truediv. cbn [is_zero]. rewrite fdiv_same. reflexivity.
Qed.

(** X17. On a buffer of channels in 0..255 that is not a single pixel (and
    has at most [2^26] rows and columns), [vignette] returns [True], leaves
    the pixel at the centre [(h / 2, w / 2)] exactly as it was, since the
    factor there is [1.0], and turns the pixel at the corner [(0, 0)] black
    with its alpha unchanged, since the factor there is [0.0]. *)
Theorem vignette_centre_and_corner (h w : nat) (image : buffer) :
  rectangular h w image -> Forall (Forall valid_pixel) image ->
  0 < Z.of_nat h <= 2 ^ 26 -> 0 < Z.of_nat w <= 2 ^ 26 ->
  (2 <= h \/ 2 <= w)%nat ->
  exists image',
    vignette image = (Ok true, image')
    /\ pixel_lookup image' (h / 2) (w / 2) = pixel_lookup image (h / 2) (w / 2)
    /\ exists p, pixel_lookup image 0 0 = Some p
                 /\ pixel_lookup image' 0 0 = Some (mkRGB 0 0 0 (alpha p)).
Proof.
  intros Hrect Hvalid Hh Hw H2.
  destruct (vignette_run h w image Hrect Hvalid Hh Hw H2)
    as (image' & F & Hrun & Hrect' & Hpix).
  destruct (factor_at_centre_and_corner (Z.of_nat h) (Z.of_nat w) Hh Hw
              ltac:(lia)) as [Hcentre Hcorner].
  exists image'. split; [done|]. split.
  - assert (Hi : (h / 2 < h)%nat) by (apply Nat.div_lt; lia).
    assert (Hj : (w / 2 < w)%nat) by (apply Nat.div_lt; lia).
    assert (Zi : Z.of_nat (h / 2) = Z.of_nat h / 2)
      by (by rewrite Nat2Z.inj_div).
    assert (Zj : Z.of_nat (w / 2) = Z.of_nat w / 2)
      by (by rewrite Nat2Z.inj_div).
    set (i := (h / 2)%nat) in *. set (j := (w / 2)%nat) in *.
    destruct (Hpix i j Hi Hj) as (HF & _ & _ & p & p' & Hp & Hd & Hp').
    rewrite Zi, Zj, Hcentre in HF. injection HF as HF. rewrite <- HF in Hd.
    rewrite Hp, Hp'. f_equal.
    destruct (valid_pixel_lookup _ _ _ _ Hvalid Hp) as (Hr & Hg & Hb & _).
    unfold darken in Hd.
    rewrite !scale_channel_one in Hd by done. cbn [rbind] in Hd.
    injection Hd as <-. by destruct p.
  - destruct (Hpix 0%nat 0%nat ltac:(lia) ltac:(lia))
      as (HF & _ & _ & p & p' & Hp & Hd & Hp').
    change (Z.of_nat 0) with 0 in HF. rewrite Hcorner in HF.
    injection HF as HF. rewrite <- HF in Hd.
    exists p. split; [done|]. rewrite Hp'. f_equal.
    destruct (valid_pixel_lookup _ _ _ _ Hvalid Hp) as (Hr & Hg & Hb & _).
    unfold darken in Hd.
    rewrite !scale_channel_zero in Hd by done. cbn [rbind] in Hd.
    by injection Hd as <-.
Qed.

Lemma vignette_centre_and_corner_witness :
  let image := [[mkRGB 200 100 50 255; mkRGB 10 20 30 255; mkRGB 255 255 255 7];
                [mkRGB 255 255 255 4; mkRGB 5 5 5 5; mkRGB 255 0 1 0]] in
  exists image',
    vignette image = (Ok true, image')
    /\ pixel_lookup image' 1 1 = Some (mkRGB 5 5 5 5)
    /\ exists p, pixel_lookup image 0 0 = Some p
                 /\ pixel_lookup image' 0 0 = Some (mkRGB 0 0 0 (alpha p)).
Proof.
  intros image.
  apply (vignette_centre_and_corner 2 3 image);
    [split; [reflexivity | repeat constructor]
    | repeat constructor; cbn; lia | cbn; lia | cbn; lia | lia].
Defined.

(* ===================================================================== *)
(** * Further properties: scramble                                        *)
(* ===================================================================== *)

(** A property of every pixel, by positions. *)
Lemma Forall_pixels (P : RGB -> Prop) (image : buffer) :
  Forall (Forall P) image
  <-> forall i j q, pixel_lookup image i j = Some q -> P q.
Proof.
  unfold pixel_lookup. split.
  - intros Hall i j q Hq.
    destruct (image !! i) as [row|] eqn:Hrow; [|done]. cbn in Hq.
    eapply Forall_lookup_1; [|exact Hq]. by eapply Forall_lookup_1.
  - intros Hpos. apply Forall_lookup_2. intros i row Hrow.
    apply Forall_lookup_2. intros j q Hq. apply (Hpos i j).
    by rewrite Hrow.
Qed.

Section RandomProperties.

Variable G : Type.
Variable draw : G -> N * G.

(** [random.randint(a, b)] with [a <= b] returns a value of [a..b]. *)
Lemma randint_in_range a b g :
  a <= b -> exists v g', randint G draw a b g = (Ok v, g') /\ a <= v <= b.
Proof.
  intros Hab. unfold randint. destruct (Z.ltb_spec b a); [lia|].
  destruct (draw g) as [n g']. eexists _, _. split; [done|].
  pose proof (Z.mod_pos_bound (Z.of_N n) (b - a + 1) ltac:(lia)). lia.
Qed.

(** One round of the loop of [scramble]: a pixel of a position in range is
    replaced by a pixel of channels in 0..255 with the same alpha. *)
Lemma scramble_round (h w : nat) (image : buffer) (g : G) :
  (0 < h)%nat -> (0 < w)%nat -> rectangular h w image ->
  Forall (Forall valid_pixel) image ->
  exists image' g',
    (let! r := on_random G (randint G draw 0 (Z.of_nat h - 1)) in
     let! c := on_random G (randint G draw 0 (Z.of_nat w - 1)) in
     let! image := on_image G get in
     let! pixel := lift (pixel_at image r c) in
     let! new_red := on_random G (randint G draw 0 255) in
     let! new_green := on_random G (randint G draw 0 255) in
     let! new_blue := on_random G (randint G draw 0 255) in
     on_image G (set_pixel r c (mkRGB new_red new_green new_blue (alpha pixel))))
      (image, g) = (Ok tt, (image', g'))
    /\ rectangular h w image'
    /\ Forall (Forall valid_pixel) image'
    /\ (forall i j, alpha <$> pixel_lookup image' i j
                    = alpha <$> pixel_lookup image i j)
    /\ exists r c : nat,
         forall i j, (i, j) <> (r, c) ->
                     pixel_lookup image' i j = pixel_lookup image i j.
Proof.
  intros Hh Hw Hrect Hvalid.
  destruct (randint_in_range 0 (Z.of_nat h - 1) g ltac:(lia))
    as (r & g1 & Er & Hr).
  destruct (randint_in_range 0 (Z.of_nat w - 1) g1 ltac:(lia))
    as (c & g2 & Ec & Hc).
  destruct (randint_in_range 0 255 g2 ltac:(lia)) as (nr & g3 & Enr & Hnr).
  destruct (randint_in_range 0 255 g3 ltac:(lia)) as (ng & g4 & Eng & Hng).
  destruct (randint_in_range 0 255 g4 ltac:(lia)) as (nb & g5 & Enb & Hnb).
  destruct (rectangular_pixel h w image (Z.to_nat r) (Z.to_nat c) Hrect
              ltac:(lia) ltac:(lia)) as [p Hp].
  pose proof (pixel_at_lookup _ _ _ _ Hp) as Hat.
  rewrite !Z2Nat.id in Hat by lia.
  destruct (set_pixel_spec h w image (Z.to_nat r) (Z.to_nat c)
              (mkRGB nr ng nb (alpha p)) Hrect ltac:(lia) ltac:(lia))
    as (image' & Hset & Hrect' & Hpix).
  rewrite !Z2Nat.id in Hset by lia.
  exists image', g5. split; [|split; [done|split; [|split]]].
  - unfold bind, on_random, on_image, get, lift. cbn [fst snd].
    rewrite Er. cbn [fst snd]. rewrite Ec. cbn [fst snd]. rewrite Hat.
    rewrite Enr. cbn [fst snd]. rewrite Eng. cbn [fst snd]. rewrite Enb.
    cbn [fst snd]. by rewrite Hset.
  - apply Forall_pixels. intros i j q. rewrite Hpix. case_decide.
    + intros [= <-]. apply (proj1 (Forall_pixels _ _) Hvalid) in Hp.
      destruct Hp as (_ & _ & _ & Ha). unfold valid_pixel. cbn. lia.
    + by apply Forall_pixels.
  - intros i j. rewrite Hpix. case_decide; [|done].
    destruct_and?; subst. by rewrite Hp.
  - exists (Z.to_nat r), (Z.to_nat c). intros i j Hne. rewrite Hpix.
    case_decide; [|done]. destruct_and?; by subst.
Qed.

(** X18. [scramble] on a buffer of [h > 0] rows and [w > 0] columns whose
    channels are in 0..255, for every random generator and every amount:
    the call returns [True], the shape is kept, every channel is still in
    0..255, and the alpha of every position is what it was.  One position
    is drawn per round, so all positions but at most [amount] hold the
    pixel they held; with an amount that is not positive nothing is drawn
    and nothing changes. *)
Theorem scramble_keeps_alpha (g : G) (h w : nat) (image : buffer)
    (amount : Z) :
  (0 < h)%nat -> (0 < w)%nat -> rectangular h w image ->
  Forall (Forall valid_pixel) image ->
  exists image' g',
    scramble G draw amount (image, g) = (Ok true, (image', g'))
    /\ rectangular h w image'
    /\ Forall (Forall valid_pixel) image'
    /\ (forall i j, alpha <$> pixel_lookup image' i j
                    = alpha <$> pixel_lookup image i j)
    /\ (exists drawn : list (nat * nat),
          length drawn = Z.to_nat amount
          /\ forall i j, (i, j) ∉ drawn ->
               pixel_lookup image' i j = pixel_lookup image i j)
    /\ (amount <= 0 -> image' = image /\ g' = g).
Proof.
  intros Hh Hw Hrect Hvalid.
  set (I := fun (k : nat) (s : buffer * G) =>
              rectangular h w (fst s)
              /\ Forall (Forall valid_pixel) (fst s)
              /\ (forall i j, alpha <$> pixel_lookup (fst s) i j
                              = alpha <$> pixel_lookup image i j)
              /\ (exists drawn : list (nat * nat),
                    length drawn = k
                    /\ forall i j, (i, j) ∉ drawn ->
                         pixel_lookup (fst s) i j = pixel_lookup image i j)
              /\ (amount <= 0 -> s = (image, g))).
  destruct (for_each_total I (range 0 amount)
              (fun _ : Z =>
                 let! r := on_random G (randint G draw 0 (Z.of_nat h - 1)) in
                 let! c := on_random G (randint G draw 0 (Z.of_nat w - 1)) in
                 let! image := on_image G get in
                 let! pixel := lift (pixel_at image r c) in
                 let! new_red := on_random G (randint G draw 0 255) in
                 let! new_green := on_random G (randint G draw 0 255) in
                 let! new_blue := on_random G (randint G draw 0 255) in
                 on_image G (set_pixel r c
                               (mkRGB new_red new_green new_blue (alpha pixel))))
              ) with (image, g)
    as ([image' g'] & Hrun & Hr' & Hv' & Ha' & Hd' & He').
  - intros k x [img g0] Hx (Hr0 & Hv0 & Ha0 & (drawn & Hlen & Hd0) & _).
    cbn [fst] in *.
    destruct (scramble_round h w img g0 Hh Hw Hr0 Hv0)
      as (img' & g1 & Hstep & Hr1 & Hv1 & Ha1 & r & c & Hd1).
    exists (img', g1). split; [exact Hstep|]. cbn [fst].
    split; [done|]. split; [done|]. split; [|split].
    + intros i j. by rewrite Ha1.
    + exists ((r, c) :: drawn). split; [cbn; by rewrite Hlen|].
      intros i j Hnot. apply not_elem_of_cons in Hnot as [Hne Hnot].
      by rewrite Hd1, Hd0.
    + intros Hneg. apply lookup_lt_Some in Hx. unfold range in Hx.
      rewrite length_seqZ in Hx. lia.
  - unfold I. cbn [fst]. split; [done|]. split; [done|]. split; [done|].
    split; [|done]. by exists [].
  - cbn [fst] in *. exists image', g'.
    split; [|split; [done|split; [done|split; [done|split]]]].
    + unfold scramble. unfold bind at 1. unfold on_image at 1. cbn [fst snd].
      rewrite (dimensions_rectangular h w) by done.
      cbn beta iota. unfold bind at 1. by rewrite Hrun.
    + destruct Hd' as (drawn & Hlen & Hd'). exists drawn.
      split; [|done]. rewrite Hlen. unfold range. rewrite length_seqZ. lia.
    + intros Hneg. specialize (He' Hneg). by injection He' as -> ->.
Qed.

End RandomProperties.


Lemma scramble_keeps_alpha_witness :
  let image := [[mkRGB 0 0 0 255; mkRGB 10 20 30 17];
                [mkRGB 1 2 3 4; mkRGB 5 5 5 5]] in
  exists image' g',
    scramble N (fun g => (g, (g * 7 + 3)%N)) 3 (image, 5%N)
    = (Ok true, (image', g'))
    /\ rectangular 2 2 image'
    /\ Forall (Forall valid_pixel) image'
    /\ (forall i j, alpha <$> pixel_lookup image' i j
                    = alpha <$> pixel_lookup image i j)
    /\ (exists drawn : list (nat * nat),
          length drawn = Z.to_nat 3
          /\ forall i j, (i, j) ∉ drawn ->
               pixel_lookup image' i j = pixel_lookup image i j)
    /\ (3 <= 0 -> image' = image /\ g' = 5%N).
Proof.
  intros image.
  apply (scramble_keeps_alpha N (fun g => (g, (g * 7 + 3)%N)) 5%N 2 2 image 3);
    [lia | lia | split; [reflexivity | repeat constructor]
    | repeat constructor; cbn; lia].
Defined.

(* ===================================================================== *)
(** * Further properties: read_image and save_image                       *)
(* ===================================================================== *)

Lemma rgba_rgb_of_tuple t : rgba (rgb_of_tuple t) = t.
Proof. by destruct t as [[[r g] b] a]. Qed.

(** The inner loop of [read_image] takes one tuple per column. *)
Lemma read_row_spec r width block cols s :
  (length cols <= length (source s))%nat ->
  exists text,
    read_row r width block cols s
    = (Some (rgb_of_tuple <$> take (length cols) (source s)),
       mkReader (drop (length cols) (source s)) text).
Proof.
  revert s. induction cols as [|c cols IH]; intros s Hlen; cbn.
  - exists (printed s). rewrite drop_0. by destruct s.
  - destruct (source s) as [|tups rest] eqn:Hs; [cbn in Hlen; lia|].
    cbn in Hlen.
    set (s' := mkReader rest _).
    destruct (IH s' ltac:(cbn; lia)) as [text ->]. cbn. by exists text.
Qed.

Lemma read_row_short r width block cols s :
  (length (source s) < length cols)%nat ->
  fst (read_row r width block cols s) = None.
Proof.
  revert s. induction cols as [|c cols IH]; intros s Hlen; cbn in *; [lia|].
  destruct (source s) as [|tups rest] eqn:Hs; [done|]. cbn in Hlen.
  set (s' := mkReader rest _).
  specialize (IH s' ltac:(cbn; lia)).
  by destruct (read_row r width block cols s') as [[row|] s''].
Qed.

(** The outer loop builds [h] rows of [w] pixels from the first [h * w]
    tuples; read row by row they are those tuples. *)
Lemma read_rows_spec (w : nat) block rows s :
  (length rows * w <= length (source s))%nat ->
  exists buffer text,
    read_rows (Z.of_nat w) block rows s
    = (Some buffer, mkReader (drop (length rows * w) (source s)) text)
    /\ rectangular (length rows) w buffer
    /\ pixel_data buffer = take (length rows * w) (source s).
Proof.
  revert s. induction rows as [|r rows IH]; intros s Hlen; cbn [read_rows].
  - exists [], (printed s). cbn. rewrite drop_0. split; [by destruct s|].
    by split.
  - cbn [length] in *.
    destruct (read_row_spec r (Z.of_nat w) block (range 0 (Z.of_nat w)) s)
      as [text Hrow]; [rewrite range_length; lia|].
    rewrite range_length in Hrow. rewrite Hrow.
    set (s' := mkReader (drop w (source s)) text).
    destruct (IH s') as (buffer & text' & Hrows & [Hh Hw] & Hflat).
    { cbn. rewrite length_drop. lia. }
    rewrite Hrows. subst s'. cbn [source] in *.
    exists ((rgb_of_tuple <$> take w (source s)) :: buffer), text'.
    split; [|split].
    + do 2 f_equal. rewrite drop_drop. f_equal; lia.
    + split; [cbn; by rewrite Hh|]. constructor; [|done].
      rewrite length_fmap, length_take. lia.
    + unfold pixel_data in *. cbn [fmap list_fmap concat].
      rewrite Hflat. rewrite <- list_fmap_compose.
      rewrite (list_fmap_ext (rgba ∘ rgb_of_tuple) id (take w (source s)))
        by (intros; cbn; apply rgba_rgb_of_tuple).
      rewrite list_fmap_id. by rewrite take_take_drop.
Qed.

(** The loops of [save_image] append the pixels of the buffer row by row. *)
Lemma save_loops_spec (h w : nat) buffer block s :
  rectangular h w buffer ->
  exists s',
    save_loops buffer (Z.of_nat h) (Z.of_nat w) block s = (Ok tt, s')
    /\ output s' = output s ++ pixel_data buffer.
Proof.
  intros Hrect. pose proof Hrect as [Hh Hw].
  set (I := fun (k : nat) (t : writer) =>
              output t = output s ++ pixel_data (take k buffer)).
  destruct (for_each_total I (range 0 (Z.of_nat h))
              (fun r => for_each (range 0 (Z.of_nat w)) (fun c =>
                 let! pixel := lift (pixel_at buffer r c) in
                 fun s => (Ok tt,
                           mkWriter (output s ++ [rgba pixel])
                             (if (r * Z.of_nat w + c) mod block =? 0
                              then shown s ++ ["."%string] else shown s)))))
    with s as (s' & Hrun & Hs').
  - intros k x t Hx Ht. apply range_lookup_inv in Hx as [-> Hk].
    destruct (lookup_lt_is_Some_2 buffer k ltac:(lia)) as [row Hrow].
    pose proof (rectangular_row _ _ _ _ _ Hrect Hrow) as Hlen.
    set (J := fun (l : nat) (u : writer) =>
                output u = output t ++ (rgba <$> take l row)).
    destruct (for_each_total J (range 0 (Z.of_nat w))
                (fun c =>
                   let! pixel := lift (pixel_at buffer (Z.of_nat k) c) in
                   fun s => (Ok tt,
                             mkWriter (output s ++ [rgba pixel])
                               (if (Z.of_nat k * Z.of_nat w + c) mod block =? 0
                                then shown s ++ ["."%string] else shown s))))
      with t as (t' & Hrow' & Ht').
    + intros l y u Hy Hu. apply range_lookup_inv in Hy as [-> Hl].
      destruct (lookup_lt_is_Some_2 row l ltac:(lia)) as [p Hp].
      assert (Hat : pixel_at buffer (Z.of_nat k) (Z.of_nat l) = Ok p).
      { apply pixel_at_lookup. unfold pixel_lookup. by rewrite Hrow. }
      unfold bind, lift. rewrite Hat. eexists. split; [done|].
      unfold J in *. cbn [output]. rewrite Hu.
      rewrite (take_S_r _ _ _ Hp), fmap_app, app_assoc. done.
    + unfold J. cbn. by rewrite app_nil_r.
    + exists t'. split; [done|]. unfold I, J, pixel_data in *.
      rewrite range_length in Ht'. rewrite Ht', Ht.
      rewrite (take_S_r _ _ _ Hrow), fmap_app, concat_app. cbn.
      rewrite app_nil_r, <- app_assoc. do 3 f_equal.
      rewrite take_ge by lia. done.
  - unfold I. cbn. by rewrite app_nil_r.
  - exists s'. split; [done|]. unfold I in Hs'.
    rewrite range_length in Hs'. rewrite Hs'. by rewrite take_ge by lia.
Qed.

(** X19. Reading and saving are inverse to each other on the pixel data.
    When PIL opens the file as an image of [w > 0] by [h > 0] pixels with
    [h * w] tuples of data, [read_image] returns a buffer of [h] rows and
    [w] columns whose pixels, read row by row, are those tuples; and
    [save_image] of that buffer passes the assertion and hands to PIL an
    image of the same size with the same data. *)
Theorem read_save_round_trip (open_image : string -> option picture)
    (file out_file : string) (image : picture) (h w : nat) :
  open_image file = Some image ->
  pic_width image = Z.of_nat w -> pic_height image = Z.of_nat h ->
  (0 < h)%nat -> (0 < w)%nat -> length (pic_data image) = (h * w)%nat ->
  exists buffer text,
    read_image open_image file = (Some buffer, text)
    /\ rectangular h w buffer
    /\ pixel_data buffer = pic_data image
    /\ exists text', save_image buffer out_file = (Ok (Some image), text').
Proof.
  intros Hopen Ewidth Eheight Hh Hw Hlen.
  destruct image as [width height data]. cbn in *. subst width height.
  unfold read_image. rewrite Hopen. cbn [pic_width pic_height pic_data].
  set (s := mkReader data _).
  destruct (read_rows_spec w (Z.max (Z.of_nat w * Z.of_nat h / PROGRESS) 1)
              (range 0 (Z.of_nat h)) s) as (buffer & text & -> & Hrect & Hflat).
  { rewrite range_length. cbn. lia. }
  rewrite range_length in Hrect, Hflat. subst s. cbn [source] in Hflat.
  rewrite take_ge in Hflat by lia.
  exists buffer. eexists. split; [done|]. split; [done|]. split; [done|].
  unfold save_image.
  destruct (rectangular_verified h w buffer Hh Hw Hrect) as [_ ->].
  rewrite (dimensions_rectangular h w) by done.
  destruct (save_loops_spec h w buffer
              (Z.max (Z.of_nat w * Z.of_nat h / PROGRESS) 1)
              (mkWriter [] ["Saving " ++ repr out_file]%string) Hrect)
    as (s' & -> & Hout).
  cbn [output] in Hout. cbn [app] in Hout. rewrite Hout, Hflat.
  by eexists.
Qed.

Lemma read_save_round_trip_witness :
  let image := mkPicture 2 1 [(1, 2, 3, 255); (4, 5, 6, 7)] in
  exists buffer text,
    read_image (fun _ => Some image) "in.png" = (Some buffer, text)
    /\ rectangular 1 2 buffer
    /\ pixel_data buffer = pic_data image
    /\ exists text', save_image buffer "out.png" = (Ok (Some image), text').
Proof.
  intros image.
  apply (read_save_round_trip (fun _ => Some image) "in.png" "out.png"
           image 1 2); (reflexivity || lia).
Defined.

Example read_image_example :
  read_image (fun _ => Some (mkPicture 2 1 [(1, 2, 3, 255); (4, 5, 6, 7)]))
             "in.png"
  = (Some [[mkRGB 1 2 3 255; mkRGB 4 5 6 7]],
     ["Loading 'in.png'"; "."; "."; "done"])%string
  /\ read_image (fun _ => Some (mkPicture 2 1 [(1, 2, 3, 255)])) "in.png"
     = (None, ["Loading 'in.png'"; "."; "Could not load the file 'in.png'"])%string.
Proof. by vm_compute. Qed.

Lemma rgb_of_tuple_rgba p : rgb_of_tuple (rgba p) = p.
Proof. by destruct p. Qed.

(** The pixels read row by row determine a buffer of a given shape. *)
Lemma pixel_data_inj (h w : nat) (b1 b2 : buffer) :
  rectangular h w b1 -> rectangular h w b2 ->
  pixel_data b1 = pixel_data b2 -> b1 = b2.
Proof.
  revert h b2. induction b1 as [|row1 b1 IH]; intros h b2 [Hh1 Hw1] [Hh2 Hw2].
  - destruct b2; [done|]. cbn in *. lia.
  - destruct b2 as [|row2 b2]; [cbn in *; lia|].
    apply Forall_cons in Hw1 as [Hr1 Hw1], Hw2 as [Hr2 Hw2].
    unfold pixel_data. cbn [fmap list_fmap concat]. intros Heq.
    apply app_inj_1 in Heq as [Hrow Hrest];
      [|rewrite !length_fmap; lia].
    f_equal.
    + apply (f_equal (fmap (M := list) rgb_of_tuple)) in Hrow.
      rewrite <- !list_fmap_compose in Hrow.
      rewrite !(list_fmap_ext (rgb_of_tuple ∘ rgba) id) in Hrow
        by (intros; cbn; apply rgb_of_tuple_rgba).
      by rewrite !list_fmap_id in Hrow.
    + apply (IH (length b1) b2); [done| |done].
      split; [cbn in *; lia|done].
Qed.

Lemma pixel_data_length (h w : nat) (image : buffer) :
  rectangular h w image -> length (pixel_data image) = (h * w)%nat.
Proof.
  revert h. induction image as [|row image IH]; intros h [Hh Hw].
  - cbn in *. lia.
  - apply Forall_cons in Hw as [Hr Hw]. unfold pixel_data in *.
    cbn [fmap list_fmap concat]. rewrite length_app, length_fmap.
    rewrite (IH (length image)) by done. cbn in Hh. nia.
Qed.

(** X22. Saving and reading back gives the same buffer.  [save_image] of
    a buffer of [h > 0] rows of [w > 0] pixels passes the assertion and
    hands to PIL an image of width [w] and height [h] whose data are the
    pixels read row by row; and [read_image] of a file that PIL opens as
    that image returns the buffer again. *)
Theorem save_read_round_trip (buffer : buffer) (h w : nat)
    (out_file : string) :
  (0 < h)%nat -> (0 < w)%nat -> rectangular h w buffer ->
  let image := mkPicture (Z.of_nat w) (Z.of_nat h) (pixel_data buffer) in
  (exists text, save_image buffer out_file = (Ok (Some image), text))
  /\ forall open_image file,
       open_image file = Some image ->
       exists text, read_image open_image file = (Some buffer, text).
Proof.
  intros Hh Hw Hrect image. split.
  - unfold save_image.
    destruct (rectangular_verified h w buffer Hh Hw Hrect) as [_ ->].
    rewrite (dimensions_rectangular h w) by done.
    destruct (save_loops_spec h w buffer
                (Z.max (Z.of_nat w * Z.of_nat h / PROGRESS) 1)
                (mkWriter [] ["Saving " ++ repr out_file]%string) Hrect)
      as (s' & -> & Hout).
    cbn [output] in Hout. cbn [app] in Hout. rewrite Hout. by eexists.
  - intros open_image file Hopen. unfold read_image. rewrite Hopen.
    cbn [pic_width pic_height pic_data image].
    set (s := mkReader _ _).
    pose proof (pixel_data_length h w buffer Hrect) as Hlen.
    destruct (read_rows_spec w (Z.max (Z.of_nat w * Z.of_nat h / PROGRESS) 1)
                (range 0 (Z.of_nat h)) s)
      as (buffer' & text & -> & Hrect' & Hflat).
    { rewrite range_length. subst s. cbn [source]. lia. }
    rewrite range_length in Hrect', Hflat. subst s. cbn [source] in Hflat.
    rewrite take_ge in Hflat by lia.
    rewrite (pixel_data_inj h w buffer' buffer Hrect' Hrect Hflat).
    by eexists.
Qed.

Lemma save_read_round_trip_witness :
  let buffer := [[mkRGB 1 2 3 255; mkRGB 4 5 6 7];
                 [mkRGB 0 0 0 0; mkRGB 255 255 255 255]] in
  let image := mkPicture 2 2 (pixel_data buffer) in
  (exists text, save_image buffer "out.png" = (Ok (Some image), text))
  /\ forall open_image file,
       open_image file = Some image ->
       exists text, read_image open_image file = (Some buffer, text).
Proof.
  intros buffer.
  apply (save_read_round_trip buffer 2 2 "out.png");
    [lia | lia | split; [reflexivity | repeat constructor]].
Defined.

Example save_image_example :
  save_image [[mkRGB 1 2 3 255; mkRGB 4 5 6 7]] "out.png"
  = (Ok (Some (mkPicture 2 1 [(1, 2, 3, 255); (4, 5, 6, 7)])),
     ["Saving 'out.png'"; "."; "."; "done"])%string
  /\ save_image [[mkRGB 1 2 3 255; mkRGB 4 5 6 7]; [mkRGB 0 0 0 0]] "out.png"
     = (Raise AssertionError, []).
Proof. by vm_compute. Qed.


Lemma read_rows_short (w : nat) block rows s :
  (length (source s) < length rows * w)%nat ->
  fst (read_rows (Z.of_nat w) block rows s) = None.
Proof.
  revert s. induction rows as [|r rows IH]; intros s Hlen; cbn [read_rows].
  - cbn in Hlen. lia.
  - cbn [length] in Hlen.
    destruct (decide (length (source s) < w)%nat) as [Hshort|Hlong].
    + pose proof (read_row_short r (Z.of_nat w) block
                    (range 0 (Z.of_nat w)) s) as Hrow.
      rewrite range_length in Hrow. specialize (Hrow Hshort).
      by destruct (read_row r (Z.of_nat w) block (range 0 (Z.of_nat w)) s)
        as [[row|] s'].
    + destruct (read_row_spec r (Z.of_nat w) block (range 0 (Z.of_nat w)) s)
        as [text Hrow]; [rewrite range_length; lia|].
      rewrite range_length in Hrow. rewrite Hrow.
      set (s' := mkReader (drop w (source s)) text).
      specialize (IH s'). subst s'. cbn [source] in IH.
      rewrite length_drop in IH. specialize (IH ltac:(lia)).
      by destruct (read_rows (Z.of_nat w) block rows _) as [[b|] s''].
Qed.

(** X24. When the image that PIL opened holds fewer tuples than
    [width * height], the iterator is exhausted inside the loops; the
    [except] clause catches the [StopIteration], and [read_image] returns
    [None] after printing that the file could not be loaded. *)
Theorem read_image_short_data (open_image : string -> option picture)
    (file : string) (image : picture) (h w : nat) :
  open_image file = Some image ->
  pic_width image = Z.of_nat w -> pic_height image = Z.of_nat h ->
  (length (pic_data image) < h * w)%nat ->
  exists text,
    read_image open_image file
    = (None, text ++ ["Could not load the file " ++ repr file]%string).
Proof.
  intros Hopen Ewidth Eheight Hlen.
  destruct image as [width height data]. cbn in *. subst width height.
  unfold read_image. rewrite Hopen. cbn [pic_width pic_height pic_data].
  set (s := mkReader data _).
  pose proof (read_rows_short w (Z.max (Z.of_nat w * Z.of_nat h / PROGRESS) 1)
                (range 0 (Z.of_nat h)) s) as Hshort.
  rewrite range_length in Hshort. specialize (Hshort Hlen).
  destruct (read_rows _ _ _ s) as [[b|] s']; [done|]. by eexists.
Qed.

Lemma read_image_short_data_witness :
  exists text,
    read_image (fun _ => Some (mkPicture 2 2 [(1, 2, 3, 255); (4, 5, 6, 7)]))
               "in.png"
    = (None, text ++ ["Could not load the file " ++ repr "in.png"]%string).
Proof.
  apply (read_image_short_data _ "in.png"
           (mkPicture 2 2 [(1, 2, 3, 255); (4, 5, 6, 7)]) 2 2);
    [reflexivity | reflexivity | reflexivity | cbn; lia].
Defined.

(* ===================================================================== *)
(** * Further properties: the blocks of pixellate                         *)
(* ===================================================================== *)

(** A position that holds a pixel is inside the buffer. *)
Lemma pixel_lookup_in_range h w image i j q :
  rectangular h w image -> pixel_lookup image i j = Some q ->
  (i < h)%nat /\ (j < w)%nat.
Proof.
  intros [Hlen Hrows] Hq. unfold pixel_lookup in Hq.
  destruct (image !! i) as [row|] eqn:Hrow; [|done]. cbn in Hq.
  split.
  - apply lookup_lt_Some in Hrow. lia.
  - rewrite <- (Forall_lookup_1 _ _ _ _ Hrows Hrow).
    by apply lookup_lt_Some in Hq.
Qed.

Lemma range_lookup_iff a b (k : nat) x :
  range a b !! k = Some x <-> x = a + Z.of_nat k /\ Z.of_nat k < b - a.
Proof. unfold range. apply lookup_seqZ. Qed.

Lemma range_len a b : a <= b -> len (range a b) = b - a.
Proof. intros H. unfold len, range. rewrite length_seqZ. lia. Qed.

(** The average the code computes over a region inside the buffer. *)
Lemma block_average_region (h w : nat) image r0 r1 c0 c1 :
  rectangular h w image ->
  0 <= r0 <= r1 -> r1 <= Z.of_nat h -> 0 <= c0 <= c1 -> c1 <= Z.of_nat w ->
  block_average image (range r0 r1) (range c0 c1)
  = region_average image r0 r1 c0 c1.
Proof.
  intros Hrect Hr0 Hr1 Hc0 Hc1. unfold block_average.
  rewrite (accumulate_spec h w) by (done || apply range_Forall; lia).
  cbn [total_red total_green total_blue total_alpha count].
  rewrite !Z.add_0_l, !Zsum_const, !range_len by lia.
  unfold average, region_average, rounded_mean, region_sum.
  cbn [total_red total_green total_blue total_alpha count].
  by replace ((r1 - r0) * ((c1 - c0) * 1)) with ((r1 - r0) * (c1 - c0)) by lia.
Qed.

Lemma region_sum_ext (ch : RGB -> Z) image image' r0 r1 c0 c1 :
  (forall i j, r0 <= i < r1 -> c0 <= j < c1 ->
     pixel_or_black image i j = pixel_or_black image' i j) ->
  region_sum ch image r0 r1 c0 c1 = region_sum ch image' r0 r1 c0 c1.
Proof.
  intros Hsame. unfold region_sum.
  apply Zsum_ext. intros i Hi. apply Zsum_ext. intros j Hj.
  apply range_elem_iff in Hi, Hj. by rewrite Hsame.
Qed.

Lemma region_average_ext image image' r0 r1 c0 c1 :
  (forall i j, r0 <= i < r1 -> c0 <= j < c1 ->
     pixel_or_black image i j = pixel_or_black image' i j) ->
  region_average image r0 r1 c0 c1 = region_average image' r0 r1 c0 c1.
Proof.
  intros Hsame. unfold region_average.
  by rewrite !(region_sum_ext _ image image' r0 r1 c0 c1 Hsame).
Qed.

Lemma region_sum_bounds (ch : RGB -> Z) image r0 r1 c0 c1 :
  (forall p, valid_pixel p -> 0 <= ch p <= 255) ->
  Forall (Forall valid_pixel) image -> r0 <= r1 -> c0 <= c1 ->
  0 <= region_sum ch image r0 r1 c0 c1 <= 255 * ((r1 - r0) * (c1 - c0)).
Proof.
  intros Hch Hvalid Hr Hc. unfold region_sum.
  pose proof (Zsum_bounds
                (fun i => Zsum (fun j => ch (pixel_or_black image i j))
                               (range c0 c1))
                (fun _ => c1 - c0) 255 (range r0 r1)) as Hb.
  rewrite Zsum_const, range_len in Hb by done. apply Hb. intros i _.
  pose proof (Zsum_bounds (fun j => ch (pixel_or_black image i j))
                (fun _ => 1) 255 (range c0 c1)) as Hb'.
  rewrite Zsum_const, range_len in Hb' by done.
  replace (255 * (c1 - c0)) with (255 * ((c1 - c0) * 1)) by lia.
  apply Hb'. intros j _.
  pose proof (Hch _ (pixel_or_black_valid image i j Hvalid)). lia.
Qed.

Lemma region_average_total image r0 r1 c0 c1 :
  Forall (Forall valid_pixel) image -> r0 < r1 -> c0 < c1 ->
  exists p, region_average image r0 r1 c0 c1 = Ok p.
Proof.
  intros Hvalid Hr Hc. unfold region_average. cbv zeta.
  assert (Hn : 0 < (r1 - r0) * (c1 - c0)) by nia.
  destruct (rounded_mean_total _ _ Hn
              (region_sum_bounds red image r0 r1 c0 c1
                 ltac:(by intros p (? & ? & ? & ?)) Hvalid ltac:(lia)
                 ltac:(lia))) as [vr ->].
  destruct (rounded_mean_total _ _ Hn
              (region_sum_bounds green image r0 r1 c0 c1
                 ltac:(by intros p (? & ? & ? & ?)) Hvalid ltac:(lia)
                 ltac:(lia))) as [vg ->].
  destruct (rounded_mean_total _ _ Hn
              (region_sum_bounds blue image r0 r1 c0 c1
                 ltac:(by intros p (? & ? & ? & ?)) Hvalid ltac:(lia)
                 ltac:(lia))) as [vb ->].
  destruct (rounded_mean_total _ _ Hn
              (region_sum_bounds alpha image r0 r1 c0 c1
                 ltac:(by intros p (? & ? & ? & ?)) Hvalid ltac:(lia)
                 ltac:(lia))) as [va ->].
  cbn [rbind]. by eexists.
Qed.

(** The two loops that store one pixel in every position of a region. *)
Lemma fill_region (h w : nat) s r0 r1 c0 c1 p :
  rectangular h w s ->
  0 <= r0 <= r1 -> r1 <= Z.of_nat h -> 0 <= c0 <= c1 -> c1 <= Z.of_nat w ->
  exists s',
    for_each (range r0 r1) (fun r =>
      for_each (range c0 c1) (fun c => set_pixel r c p)) s = (Ok tt, s')
    /\ rectangular h w s'
    /\ forall i j : nat, pixel_lookup s' i j
         = if decide (r0 <= Z.of_nat i < r1 /\ c0 <= Z.of_nat j < c1)
           then Some p else pixel_lookup s i j.
Proof.
  intros Hrect Hr0 Hr1 Hc0 Hc1.
  set (I := fun (k : nat) (t : buffer) =>
              rectangular h w t
              /\ forall i j : nat, pixel_lookup t i j
                   = if decide (r0 <= Z.of_nat i < r0 + Z.of_nat k
                                /\ c0 <= Z.of_nat j < c1)
                     then Some p else pixel_lookup s i j).
  destruct (for_each_total I (range r0 r1)
              (fun r => for_each (range c0 c1) (fun c => set_pixel r c p)))
    with s as (s' & Hrun & Hs' & Hpix).
  - intros k x t Hx [Ht Htp]. apply range_lookup_iff in Hx as [-> Hk].
    set (J := fun (l : nat) (u : buffer) =>
                rectangular h w u
                /\ forall i j : nat, pixel_lookup u i j
                     = if decide ((r0 <= Z.of_nat i < r0 + Z.of_nat k
                                   /\ c0 <= Z.of_nat j < c1)
                                  \/ (Z.of_nat i = r0 + Z.of_nat k
                                      /\ c0 <= Z.of_nat j < c0 + Z.of_nat l))
                       then Some p else pixel_lookup s i j).
    destruct (for_each_total J (range c0 c1)
                (fun c => set_pixel (r0 + Z.of_nat k) c p))
      with t as (t' & Hrow & Ht' & Htp').
    + intros l y u Hy [Hu Hup]. apply range_lookup_iff in Hy as [-> Hl].
      destruct (set_pixel_spec h w u (Z.to_nat (r0 + Z.of_nat k))
                  (Z.to_nat (c0 + Z.of_nat l)) p Hu ltac:(lia) ltac:(lia))
        as (u' & Hset & Hu' & Hup').
      rewrite !Z2Nat.id in Hset by lia.
      exists u'. split; [done|]. split; [done|].
      intros i j. rewrite Hup', Hup.
      repeat case_decide; try done; lia.
    + split; [done|]. intros i j. rewrite Htp.
      repeat case_decide; try done; lia.
    + exists t'. split; [done|]. split; [done|].
      intros i j. rewrite Htp'. unfold range. rewrite length_seqZ.
      repeat case_decide; try done; lia.
  - split; [done|]. intros i j. by rewrite decide_False by lia.
  - exists s'. split; [done|]. split; [done|].
    intros i j. rewrite Hpix. unfold range. rewrite length_seqZ.
    repeat case_decide; try done; lia.
Qed.

Lemma block_index step a i :
  0 < step -> (a * step <= i < a * step + step <-> i / step = a).
Proof.
  intros Hs. split.
  - intros H. symmetry. apply (Z.div_unique i step a (i - a * step)); lia.
  - intros <-. pose proof (Z.mul_div_le i step Hs).
    pose proof (Z.mul_succ_div_gt i step Hs). lia.
Qed.

Lemma range_step_lookup (limit step : Z) (a : nat) x l :
  0 < step -> range_step 0 limit step = Ok l ->
  l !! a = Some x -> x = Z.of_nat a * step /\ Z.of_nat a * step < limit.
Proof.
  intros Hs Hl Ha. unfold range_step in Hl.
  destruct (Z.eqb_spec step 0); [lia|].
  destruct (Z.ltb_spec 0 step); [|lia].
  injection Hl as <-. rewrite list_lookup_fmap in Ha.
  destruct (seqZ 0 _ !! a) as [k|] eqn:Hk; [|done].
  apply lookup_seqZ in Hk as [-> Hk]. injection Ha as <-.
  split; [lia|].
  assert (Z.of_nat a + 1 <= (limit - 0 + step - 1) / step) by lia.
  pose proof (Z.mul_div_le (limit - 0 + step - 1) step Hs). nia.
Qed.

Lemma range_step_length (limit step : Z) l i :
  0 < step -> range_step 0 limit step = Ok l -> 0 <= i < limit ->
  i / step < Z.of_nat (length l).
Proof.
  intros Hs Hl Hi. unfold range_step in Hl.
  destruct (Z.eqb_spec step 0); [lia|].
  destruct (Z.ltb_spec 0 step); [|lia].
  injection Hl as <-. rewrite length_fmap, length_seqZ.
  assert (i / step <= (limit - 0 + step - 1) / step - 1); [|lia].
  assert (i / step < (limit - 0 + step - 1) / step); [|lia].
  apply Z.div_lt_upper_bound; [lia|].
  pose proof (Z.mul_succ_div_gt (limit - 0 + step - 1) step Hs). lia.
Qed.

Lemma pixellated_in_block (step : Z) (h w : nat) image (a b : nat) (i j : nat) :
  0 < step -> Z.of_nat i < Z.of_nat h -> Z.of_nat j < Z.of_nat w ->
  Z.of_nat i / step = Z.of_nat a -> Z.of_nat j / step = Z.of_nat b ->
  pixellated step (Z.of_nat h) (Z.of_nat w) image (Z.of_nat i) (Z.of_nat j)
  = region_average image
      (Z.of_nat a * step) (Z.min (Z.of_nat a * step + step) (Z.of_nat h))
      (Z.of_nat b * step) (Z.min (Z.of_nat b * step + step) (Z.of_nat w)).
Proof.
  intros Hs Hi Hj Ha Hb.
  unfold pixellated, block_end, block_start. by rewrite Ha, Hb.
Qed.

Lemma pixellate_loops (h w : nat) (image : buffer) (step : Z) :
  (0 < h)%nat ->
  rectangular h w image -> Forall (Forall valid_pixel) image -> 0 < step ->
  exists image',
    pixellate step image = (Ok true, image')
    /\ rectangular h w image'
    /\ forall i j, (i < h)%nat -> (j < w)%nat ->
         pixel_lookup image' i j
         = Some (pixellated_pixel step (Z.of_nat h) (Z.of_nat w) image
                   (Z.of_nat i) (Z.of_nat j)).
Proof.
  intros Hh Hrect Hvalid Hs.
  destruct (range_step 0 (Z.of_nat h) step) as [block_rows|] eqn:Hrows.
  2: { unfold range_step in Hrows. destruct (Z.eqb_spec step 0); [lia|].
       by destruct (Z.ltb_spec 0 step). }
  destruct (range_step 0 (Z.of_nat w) step) as [block_cols|] eqn:Hcols.
  2: { unfold range_step in Hcols. destruct (Z.eqb_spec step 0); [lia|].
       by destruct (Z.ltb_spec 0 step). }
  set (P := fun i j => pixellated_pixel step (Z.of_nat h) (Z.of_nat w) image
                         (Z.of_nat i) (Z.of_nat j)).
  set (I := fun (a : nat) (t : buffer) =>
              rectangular h w t
              /\ forall i j : nat, (i < h)%nat -> (j < w)%nat ->
                   pixel_lookup t i j
                   = if decide (Z.of_nat i / step < Z.of_nat a)
                     then Some (P i j) else pixel_lookup image i j).
  destruct (for_each_total I block_rows
              (fun row =>
                 let! block_cols := lift (range_step 0 (Z.of_nat w) step) in
                 for_each block_cols (fun col =>
                   let row_max := Z.min (row + step) (Z.of_nat h) in
                   let col_max := Z.min (col + step) (Z.of_nat w) in
                   let! image := get in
                   let! avg_pixel :=
                     lift (block_average image (range row row_max)
                                               (range col col_max)) in
                   for_each (range row row_max) (fun r =>
                     for_each (range col col_max) (fun c =>
                       set_pixel r c avg_pixel)))))
    with image as (image' & Hrun & Hrect' & Hpix).
  - intros a row t Ha [Ht Htp].
    apply (range_step_lookup _ _ _ _ _ Hs Hrows) in Ha as [-> Ha].
    unfold bind at 1, lift. rewrite Hcols. cbn beta iota.
    set (J := fun (b : nat) (u : buffer) =>
                rectangular h w u
                /\ forall i j : nat, (i < h)%nat -> (j < w)%nat ->
                     pixel_lookup u i j
                     = if decide (Z.of_nat i / step < Z.of_nat a
                                  \/ (Z.of_nat i / step = Z.of_nat a
                                      /\ Z.of_nat j / step < Z.of_nat b))
                       then Some (P i j) else pixel_lookup image i j).
    match goal with
    | |- exists s', for_each block_cols ?body t = _ /\ _ =>
        destruct (for_each_total J block_cols body) with t
          as (t' & Hrow & Ht' & Htp')
    end.
    + intros b col u Hb [Hu Hup].
      apply (range_step_lookup _ _ _ _ _ Hs Hcols) in Hb as [-> Hb].
      cbv zeta. unfold bind at 1, get. cbn beta iota.
      set (r0 := Z.of_nat a * step). set (c0 := Z.of_nat b * step).
      set (r1 := Z.min (r0 + step) (Z.of_nat h)).
      set (c1 := Z.min (c0 + step) (Z.of_nat w)).
      assert (Hsame : forall i j, r0 <= i < r1 -> c0 <= j < c1 ->
                pixel_or_black u i j = pixel_or_black image i j).
      { intros i j Hi Hj. unfold pixel_or_black.
        rewrite Hup by lia. rewrite !Z2Nat.id by lia.
        rewrite decide_False; [done|].
        assert (i / step = Z.of_nat a) by (apply block_index; lia).
        assert (j / step = Z.of_nat b) by (apply block_index; lia). lia. }
      destruct (region_average_total image r0 r1 c0 c1 Hvalid
                  ltac:(lia) ltac:(lia)) as [p Hp].
      unfold bind at 1, lift.
      rewrite (block_average_region h w) by (done || lia).
      rewrite (region_average_ext u image) by done. rewrite Hp.
      cbn beta iota.
      destruct (fill_region h w u r0 r1 c0 c1 p Hu ltac:(lia) ltac:(lia)
                  ltac:(lia) ltac:(lia)) as (u' & Hfill & Hu' & Hup').
      exists u'. split; [done|]. split; [done|].
      intros i j Hi Hj. rewrite Hup', Hup by done.
      assert (Hbi := block_index step (Z.of_nat a) (Z.of_nat i) Hs).
      assert (Hbj := block_index step (Z.of_nat b) (Z.of_nat j) Hs).
      destruct (decide (r0 <= Z.of_nat i < r1 /\ c0 <= Z.of_nat j < c1))
        as [[Hin1 Hin2]|Hout].
      * assert (Z.of_nat i / step = Z.of_nat a) by (apply Hbi; lia).
        assert (Z.of_nat j / step = Z.of_nat b) by (apply Hbj; lia).
        rewrite decide_True by lia. f_equal. unfold P, pixellated_pixel.
        rewrite (pixellated_in_block step h w image a b) by (done || lia).
        fold r0 c0 r1 c1. by rewrite Hp.
      * assert (~ (Z.of_nat i / step = Z.of_nat a
                   /\ Z.of_nat j / step = Z.of_nat b)).
        { intros [Ei Ej]. apply Hout. apply Hbi in Ei. apply Hbj in Ej.
          lia. }
        clear Hbi Hbj Hup Hup' Hsame.
        repeat case_decide; try done; lia.
    + split; [done|]. intros i j Hi Hj. rewrite Htp by done.
      assert (0 <= Z.of_nat j / step) by (apply Z.div_pos; lia).
      repeat case_decide; try done; lia.
    + exists t'. split; [done|]. split; [done|].
      intros i j Hi Hj. rewrite Htp' by done.
      pose proof (range_step_length _ _ _ (Z.of_nat j) Hs Hcols
                    ltac:(lia)).
      assert (0 <= Z.of_nat j / step) by (apply Z.div_pos; lia).
      repeat case_decide; try done; lia.
  - split; [done|]. intros i j Hi Hj.
    assert (0 <= Z.of_nat i / step) by (apply Z.div_pos; lia).
    by rewrite decide_False by lia.
  - exists image'. split; [|split; [done|]].
    + unfold pixellate. unfold bind at 1.
      rewrite (dimensions_rectangular h w) by done.
      cbn beta iota. unfold bind at 1. unfold lift at 1. rewrite Hrows.
      cbn beta iota.
      unfold bind at 1. cbv zeta in Hrun. by rewrite Hrun.
    + intros i j Hi Hj. rewrite Hpix by done.
      pose proof (range_step_length _ _ _ (Z.of_nat i) Hs Hrows
                    ltac:(lia)).
      by rewrite decide_True by lia.
Qed.

Lemma block_bounds step limit i :
  0 < step -> 0 <= i < limit ->
  0 <= block_start step i <= i
  /\ i < block_end step limit i <= limit
  /\ forall i', block_start step i <= i' < block_end step limit i ->
       i' / step = i / step.
Proof.
  intros Hs Hi. unfold block_end, block_start.
  pose proof (Z.mul_div_le i step Hs).
  pose proof (Z.mul_succ_div_gt i step Hs).
  assert (0 <= i / step) by (apply Z.div_pos; lia).
  split; [nia|]. split; [lia|].
  intros i' Hi'. apply block_index; lia.
Qed.

Lemma region_average_nearest image r0 r1 c0 c1 p :
  Forall (Forall valid_pixel) image -> r0 < r1 -> c0 < c1 ->
  (r1 - r0) * (c1 - c0) < 2 ^ 43 ->
  region_average image r0 r1 c0 c1 = Ok p ->
  let n := (r1 - r0) * (c1 - c0) in
  nearest_integer (red p) (region_sum red image r0 r1 c0 c1) n
  /\ nearest_integer (green p) (region_sum green image r0 r1 c0 c1) n
  /\ nearest_integer (blue p) (region_sum blue image r0 r1 c0 c1) n
  /\ nearest_integer (alpha p) (region_sum alpha image r0 r1 c0 c1) n.
Proof.
  intros Hvalid Hr Hc Hsize Hp n.
  assert (Hn : 0 < n < 2 ^ 43) by (unfold n; nia).
  unfold region_average in Hp. cbv zeta in Hp. fold n in Hp.
  destruct (rounded_mean (region_sum red _ _ _ _ _) n) as [vr|] eqn:Er;
    [|done].
  destruct (rounded_mean (region_sum green _ _ _ _ _) n) as [vg|] eqn:Eg;
    [|done].
  destruct (rounded_mean (region_sum blue _ _ _ _ _) n) as [vb|] eqn:Eb;
    [|done].
  destruct (rounded_mean (region_sum alpha _ _ _ _ _) n) as [va|] eqn:Ea;
    [|done].
  cbn [rbind] in Hp. injection Hp as <-. cbn [red green blue alpha].
  repeat split; eapply rounded_mean_nearest; try eassumption;
    apply region_sum_bounds; try done; try lia; by intros q (? & ? & ? & ?).
Qed.

Lemma nearest_integer_range v total n :
  0 < n -> 0 <= total <= 255 * n -> nearest_integer v total n ->
  0 <= v <= 255.
Proof. unfold nearest_integer. intros Hn Ht Hv. nia. Qed.

Lemma region_average_valid image r0 r1 c0 c1 p :
  Forall (Forall valid_pixel) image -> r0 < r1 -> c0 < c1 ->
  (r1 - r0) * (c1 - c0) < 2 ^ 43 ->
  region_average image r0 r1 c0 c1 = Ok p -> valid_pixel p.
Proof.
  intros Hvalid Hr Hc Hsize Hp.
  destruct (region_average_nearest image r0 r1 c0 c1 p Hvalid Hr Hc Hsize Hp)
    as (H1 & H2 & H3 & H4).
  assert (Hn : 0 < (r1 - r0) * (c1 - c0)) by nia.
  repeat split;
    (eapply (nearest_integer_range _ _ _ Hn); [|eassumption]);
    apply region_sum_bounds; try done; try lia; by intros q (? & ? & ? & ?).
Qed.

Lemma region_average_uniform image r0 r1 c0 c1 p :
  valid_pixel p -> r0 < r1 -> c0 < c1 -> (r1 - r0) * (c1 - c0) < 2 ^ 43 ->
  (forall i j, r0 <= i < r1 -> c0 <= j < c1 -> pixel_or_black image i j = p) ->
  region_average image r0 r1 c0 c1 = Ok p.
Proof.
  intros (Hr & Hg & Hb & Ha) Hrr Hcc Hsize Hsame.
  assert (Hsum : forall ch : RGB -> Z,
            region_sum ch image r0 r1 c0 c1
            = ch p * ((r1 - r0) * (c1 - c0))).
  { intros ch. unfold region_sum.
    transitivity (Zsum (fun _ : Z => ch p * (c1 - c0)) (range r0 r1)).
    - apply Zsum_ext. intros i Hi.
      transitivity (Zsum (fun _ : Z => ch p) (range c0 c1)).
      + apply Zsum_ext. intros j Hj. apply range_elem_iff in Hi, Hj.
        by rewrite Hsame.
      + rewrite Zsum_const, range_len by lia. lia.
    - rewrite Zsum_const, range_len by lia. lia. }
  unfold region_average. cbv zeta. rewrite !Hsum.
  rewrite !rounded_mean_exact by (done || nia). cbn [rbind].
  by destruct p.
Qed.

(** X20. [pixellate] with a positive step, on a buffer of [h > 0] rows of
    [w] pixels with channels in 0..255, returns [True] and stores at every
    position the average of the block that holds it.  The blocks are the
    [step] by [step] squares that start at the multiples of [step], cut
    at the last row and the last column; each channel is the quotient of
    the block's sum by its number of pixels, rounded as Python's [round]
    rounds a float.  For a buffer of fewer than [2^43] pixels that value
    is an integer nearest to the exact mean, and it is in 0..255. *)
Theorem pixellate_block_average (h w : nat) (image : buffer) (step : Z) :
  (0 < h)%nat -> rectangular h w image ->
  Forall (Forall valid_pixel) image -> 0 < step ->
  exists image',
    pixellate step image = (Ok true, image')
    /\ rectangular h w image'
    /\ forall i j, (i < h)%nat -> (j < w)%nat ->
         exists p,
           pixel_lookup image' i j = Some p
           /\ pixellated step (Z.of_nat h) (Z.of_nat w) image
                (Z.of_nat i) (Z.of_nat j) = Ok p
           /\ (Z.of_nat h * Z.of_nat w < 2 ^ 43 ->
               let r0 := block_start step (Z.of_nat i) in
               let r1 := block_end step (Z.of_nat h) (Z.of_nat i) in
               let c0 := block_start step (Z.of_nat j) in
               let c1 := block_end step (Z.of_nat w) (Z.of_nat j) in
               let n := (r1 - r0) * (c1 - c0) in
               nearest_integer (red p) (region_sum red image r0 r1 c0 c1) n
               /\ nearest_integer (green p)
                    (region_sum green image r0 r1 c0 c1) n
               /\ nearest_integer (blue p)
                    (region_sum blue image r0 r1 c0 c1) n
               /\ nearest_integer (alpha p)
                    (region_sum alpha image r0 r1 c0 c1) n
               /\ valid_pixel p).
Proof.
  intros Hh Hrect Hvalid Hs.
  destruct (pixellate_loops h w image step Hh Hrect Hvalid Hs)
    as (image' & Hrun & Hrect' & Hpix).
  exists image'. split; [done|]. split; [done|]. intros i j Hi Hj.
  destruct (block_bounds step (Z.of_nat h) (Z.of_nat i) Hs ltac:(lia))
    as (Hr0 & Hr1 & _).
  destruct (block_bounds step (Z.of_nat w) (Z.of_nat j) Hs ltac:(lia))
    as (Hc0 & Hc1 & _).
  destruct (region_average_total image
              (block_start step (Z.of_nat i))
              (block_end step (Z.of_nat h) (Z.of_nat i))
              (block_start step (Z.of_nat j))
              (block_end step (Z.of_nat w) (Z.of_nat j))
              Hvalid ltac:(lia) ltac:(lia)) as [p Hp].
  exists p. rewrite (Hpix i j Hi Hj). unfold pixellated_pixel, pixellated.
  rewrite Hp. split; [done|]. split; [done|]. intros Hsize.
  assert (Hr : block_start step (Z.of_nat i)
               < block_end step (Z.of_nat h) (Z.of_nat i)) by lia.
  assert (Hc : block_start step (Z.of_nat j)
               < block_end step (Z.of_nat w) (Z.of_nat j)) by lia.
  assert (Harea : (block_end step (Z.of_nat h) (Z.of_nat i)
                   - block_start step (Z.of_nat i))
                  * (block_end step (Z.of_nat w) (Z.of_nat j)
                     - block_start step (Z.of_nat j)) < 2 ^ 43) by nia.
  cbv zeta.
  pose proof (region_average_nearest image _ _ _ _ p Hvalid Hr Hc Harea Hp)
    as (H1 & H2 & H3 & H4).
  repeat (split; [done|]).
  exact (region_average_valid image _ _ _ _ p Hvalid Hr Hc Harea Hp).
Qed.

Lemma pixellate_block_average_witness :
  let image := [[mkRGB 0 0 0 255; mkRGB 10 20 30 255; mkRGB 9 9 9 9];
                [mkRGB 1 2 3 4; mkRGB 5 5 5 5; mkRGB 200 100 0 255];
                [mkRGB 7 7 7 7; mkRGB 255 255 255 255; mkRGB 3 2 1 0]] in
  exists image',
    pixellate 2 image = (Ok true, image')
    /\ rectangular 3 3 image'
    /\ forall i j, (i < 3)%nat -> (j < 3)%nat ->
         exists p,
           pixel_lookup image' i j = Some p
           /\ pixellated 2 3 3 image (Z.of_nat i) (Z.of_nat j) = Ok p
           /\ (3 * 3 < 2 ^ 43 ->
               let r0 := block_start 2 (Z.of_nat i) in
               let r1 := block_end 2 3 (Z.of_nat i) in
               let c0 := block_start 2 (Z.of_nat j) in
               let c1 := block_end 2 3 (Z.of_nat j) in
               let n := (r1 - r0) * (c1 - c0) in
               nearest_integer (red p) (region_sum red image r0 r1 c0 c1) n
               /\ nearest_integer (green p)
                    (region_sum green image r0 r1 c0 c1) n
               /\ nearest_integer (blue p)
                    (region_sum blue image r0 r1 c0 c1) n
               /\ nearest_integer (alpha p)
                    (region_sum alpha image r0 r1 c0 c1) n
               /\ valid_pixel p).
Proof.
  intros image.
  apply (pixellate_block_average 3 3 image 2);
    [lia | split; [reflexivity | repeat constructor]
    | repeat constructor; cbn; lia | lia].
Defined.

(** The 3 by 3 buffer above, in blocks of 2: the blocks are 2 by 2, 2 by 1,
    1 by 2 and 1 by 1. *)
Example pixellate_example :
  pixellate 2 [[mkRGB 0 0 0 255; mkRGB 10 20 30 255; mkRGB 9 9 9 9];
               [mkRGB 1 2 3 4; mkRGB 5 5 5 5; mkRGB 200 100 0 255];
               [mkRGB 7 7 7 7; mkRGB 255 255 255 255; mkRGB 3 2 1 0]]
  = (Ok true,
     [[mkRGB 4 7 10 130; mkRGB 4 7 10 130; mkRGB 104 54 4 132];
      [mkRGB 4 7 10 130; mkRGB 4 7 10 130; mkRGB 104 54 4 132];
      [mkRGB 131 131 131 131; mkRGB 131 131 131 131; mkRGB 3 2 1 0]]).
Proof. vm_compute. reflexivity. Qed.

(** X21. Applying [pixellate] a second time with the same positive step
    changes nothing: every block already holds one colour, and its
    average is that colour.  (The buffer has fewer than [2^43] pixels, so
    that the float quotient of a sum by the number of pixels is exact
    enough.) *)
Theorem pixellate_idempotent (h w : nat) (image : buffer) (step : Z) :
  (0 < h)%nat -> rectangular h w image ->
  Forall (Forall valid_pixel) image -> 0 < step ->
  Z.of_nat h * Z.of_nat w < 2 ^ 43 ->
  exists image',
    pixellate step image = (Ok true, image')
    /\ pixellate step image' = (Ok true, image').
Proof.
  intros Hh Hrect Hvalid Hs Hsize.
  destruct (pixellate_loops h w image step Hh Hrect Hvalid Hs)
    as (image' & Hrun & Hrect' & Hpix).
  exists image'. split; [done|].
  assert (Hblock : forall i j, 0 <= i < Z.of_nat h -> 0 <= j < Z.of_nat w ->
            exists p,
              pixellated step (Z.of_nat h) (Z.of_nat w) image i j = Ok p
              /\ valid_pixel p).
  { intros i j Hi Hj.
    destruct (block_bounds step (Z.of_nat h) i Hs Hi) as (Hr0 & Hr1 & _).
    destruct (block_bounds step (Z.of_nat w) j Hs Hj) as (Hc0 & Hc1 & _).
    destruct (region_average_total image
                (block_start step i) (block_end step (Z.of_nat h) i)
                (block_start step j) (block_end step (Z.of_nat w) j)
                Hvalid ltac:(lia) ltac:(lia)) as [p Hp].
    exists p. split; [done|].
    eapply region_average_valid; [exact Hvalid| | | |exact Hp]; try lia.
    nia. }
  assert (Hvalid' : Forall (Forall valid_pixel) image').
  { apply Forall_pixels. intros i j q Hq.
    destruct (pixel_lookup_in_range h w image' i j q Hrect' Hq) as [Hi Hj].
    rewrite (Hpix i j Hi Hj) in Hq. injection Hq as <-.
    destruct (Hblock (Z.of_nat i) (Z.of_nat j) ltac:(lia) ltac:(lia))
      as (p & Hp & Hv).
    unfold pixellated_pixel. by rewrite Hp. }
  destruct (pixellate_loops h w image' step Hh Hrect' Hvalid' Hs)
    as (image'' & Hrun' & Hrect'' & Hpix').
  rewrite Hrun'. f_equal. apply (buffer_ext h w); [done..|].
  intros i j Hi Hj. rewrite (Hpix' i j Hi Hj), (Hpix i j Hi Hj). f_equal.
  destruct (block_bounds step (Z.of_nat h) (Z.of_nat i) Hs ltac:(lia))
    as (Hr0 & Hr1 & Hrq).
  destruct (block_bounds step (Z.of_nat w) (Z.of_nat j) Hs ltac:(lia))
    as (Hc0 & Hc1 & Hcq).
  destruct (Hblock (Z.of_nat i) (Z.of_nat j) ltac:(lia) ltac:(lia))
    as (p & Hp & Hv).
  unfold pixellated_pixel at 2. rewrite Hp.
  unfold pixellated_pixel, pixellated.
  rewrite (region_average_uniform image' _ _ _ _ p); [done|done|lia|lia|nia|].
  intros i' j' Hi' Hj'.
  rewrite <- (Z2Nat.id i'), <- (Z2Nat.id j') by lia.
  apply pixel_or_black_lookup. rewrite Hpix by lia. f_equal.
  rewrite !Z2Nat.id by lia. unfold pixellated_pixel, pixellated.
  unfold block_end, block_start. rewrite (Hrq i' Hi'), (Hcq j' Hj').
  unfold pixellated, block_end, block_start in Hp. by rewrite Hp.
Qed.

Lemma pixellate_idempotent_witness :
  let image := [[mkRGB 0 0 0 255; mkRGB 10 20 30 255; mkRGB 9 9 9 9];
                [mkRGB 1 2 3 4; mkRGB 5 5 5 5; mkRGB 200 100 0 255];
                [mkRGB 7 7 7 7; mkRGB 255 255 255 255; mkRGB 3 2 1 0]] in
  exists image',
    pixellate 2 image = (Ok true, image')
    /\ pixellate 2 image' = (Ok true, image').
Proof.
  intros image.
  apply (pixellate_idempotent 3 3 image 2);
    [lia | split; [reflexivity | repeat constructor]
    | repeat constructor; cbn; lia | lia | cbn; lia].
Defined.

(* ===================================================================== *)
(** * Further properties: the channels of mono                            *)
(* ===================================================================== *)

(** What rounding adds at most: the rounded mantissa, at the exponent
    of the result, is at most the exact one plus one unit of the
    exponent [e1] that the first shift reaches. *)
Lemma binary_round_aux_upper mx ex lx :
  0 < mx -> Zdigits2 mx + ex <= 971 ->
  let e1 := Z.max ex (Z.max (Zdigits2 mx + ex - 53) (-1074)) in
  match binary_round_aux prec emax false mx ex lx with
  | S754_zero _ => True
  | S754_finite s m e =>
      s = false /\ e1 <= e
      /\ Zpos m * 2 ^ (e - ex) <= mx + 2 ^ (e1 - ex)
      /\ (e = e1 \/ 2 ^ 52 <= Zpos m)
  | _ => False
  end.
Proof.
  intros Hm HD e1. unfold binary_round_aux.
  destruct (shr_fexp prec emax mx ex lx) as [mrs1 e1'] eqn:E1.
  apply shr_fexp_spec in E1 as [Hm1 He1]; [|lia].
  set (n1 := Z.max 0 (Z.max (Zdigits2 mx + ex - 53) (-1074) - ex)) in *.
  assert (Ee1 : e1' = e1) by (unfold e1; lia).
  set (m2 := round_nearest_even (shr_m mrs1) (loc_of_shr_record mrs1)).
  assert (Hp1 : 0 < 2 ^ n1) by (apply Z.pow_pos_nonneg; lia).
  assert (Hm1' : 0 <= shr_m mrs1) by (rewrite Hm1; apply Z.div_pos; lia).
  pose proof (round_nearest_even_bounds (shr_m mrs1) (loc_of_shr_record mrs1))
    as Hrne. fold m2 in Hrne.
  assert (Hd1 : Zdigits2 (shr_m mrs1) <= Z.max 0 (Zdigits2 mx - n1))
    by (rewrite Hm1; apply Zdigits2_div_pow2; lia).
  assert (Hd2 : Zdigits2 m2 <= Zdigits2 (shr_m mrs1) + 1).
  { etrans; [apply (Zdigits2_mono m2 (shr_m mrs1 + 1)); lia|].
    by apply Zdigits2_succ. }
  destruct (shr_fexp prec emax m2 e1' loc_Exact) as [mrs2 e2] eqn:E2.
  apply shr_fexp_spec in E2 as [Hm3 He2]; [|lia].
  set (n2 := Z.max 0 (Z.max (Zdigits2 m2 + e1' - 53) (-1074) - e1')) in *.
  assert (Hp2 : 0 < 2 ^ n2) by (apply Z.pow_pos_nonneg; lia).
  assert (Hm3' : 0 <= shr_m mrs2) by (rewrite Hm3; apply Z.div_pos; lia).
  pose proof (Zdigits2_nonneg mx).
  destruct (shr_m mrs2) as [|m3|m3] eqn:Hm3''; [exact I| |lia].
  unfold prec, emax. change (1024 - 53) with 971.
  assert (He2' : e2 <= 971) by lia.
  destruct (Z.leb_spec e2 971) as [_|]; [|lia].
  split; [done|]. split; [lia|].
  assert (Hn1 : e1 - ex = n1) by (unfold e1, n1; lia).
  assert (Hn2 : e2 - ex = n1 + n2) by lia.
  split.
  - rewrite Hn1, Hn2, Z.pow_add_r by lia.
    pose proof (Z.mul_div_le m2 (2 ^ n2) Hp2) as H3. rewrite <- Hm3 in H3.
    pose proof (Z.mul_div_le mx (2 ^ n1) Hp1) as H1. rewrite <- Hm1 in H1.
    nia.
  - destruct (decide (n2 = 0)) as [E|E]; [left; lia|right].
    assert (Hdig : Zdigits2 m2 = 53 + n2) by (unfold n2, e1 in *; lia).
    assert (2 ^ (53 + n2 - 1) <= m2).
    { assert (m2 <> 0) by (intros E0; rewrite E0 in Hdig; cbn in Hdig; lia).
      rewrite <- Hdig. pose proof (Zdigits2_bounds m2). lia. }
    rewrite Hm3. apply Z.div_le_lower_bound; [lia|].
    replace (53 + n2 - 1) with (n2 + 52) in * by lia.
    rewrite Z.pow_add_r in * by lia. lia.
Qed.

Lemma below_mono K B B' x : B <= B' -> below K B x -> below K B' x.
Proof.
  destruct x; cbn [below]; try done. intros ? (? & ? & ?).
  repeat split; (done || lia).
Qed.

(** A mantissa below a power of two has at most that many digits. *)
Lemma pow2_lt_inv a b : 2 ^ a < 2 ^ b -> 0 <= a -> a < b.
Proof.
  intros Hlt Ha. destruct (Z.le_gt_cases 0 b) as [Hb|Hb].
  - by apply (Z.pow_lt_mono_r_iff 2 a b).
  - rewrite (Z.pow_neg_r 2 b) in Hlt by lia.
    assert (0 < 2 ^ a) by (apply Z.pow_pos_nonneg; lia). lia.
Qed.

Lemma Zdigits2_scaled m e s K :
  0 < m -> 0 <= e + s -> m * 2 ^ (e + s) < 2 ^ (K + s) -> Zdigits2 m + e <= K.
Proof.
  intros Hm He Hlt. pose proof (Zdigits2_bounds m Hm) as [Hlo Hhi].
  pose proof (Zdigits2_nonneg m).
  assert (Zdigits2 m <> 0) by (intros E; rewrite E in Hhi; lia).
  assert (Hpow : 2 ^ (Zdigits2 m - 1 + (e + s)) < 2 ^ (K + s)).
  { rewrite Z.pow_add_r by lia.
    assert (0 < 2 ^ (e + s)) by (apply Z.pow_pos_nonneg; lia). nia. }
  apply pow2_lt_inv in Hpow; lia.
Qed.

(** Rounding a positive [mx * 2^ex], seen at the scale [2^-s]. *)
Lemma binary_round_aux_scaled s K B mx ex lx :
  0 < mx -> 1074 <= s -> - s <= ex <= K - 53 -> -1021 <= K <= 971 ->
  mx * 2 ^ (ex + s) <= B -> B + 2 ^ (K - 53 + s) < 2 ^ (K + s) ->
  match binary_round_aux prec emax false mx ex lx with
  | S754_zero _ => True
  | S754_finite sg m e =>
      sg = false /\ -1074 <= e <= K - 53
      /\ Zpos m * 2 ^ (e + s) <= B + 2 ^ (K - 53 + s)
  | _ => False
  end.
Proof.
  intros Hm Hs Hex HK HB Hlt.
  assert (Hpos : 0 < 2 ^ (K - 53 + s)) by (apply Z.pow_pos_nonneg; lia).
  assert (Hd : Zdigits2 mx + ex <= K) by (apply (Zdigits2_scaled _ _ s); lia).
  pose proof (binary_round_aux_upper mx ex lx Hm ltac:(lia)) as Hup.
  cbv zeta in Hup.
  set (e1 := Z.max ex (Z.max (Zdigits2 mx + ex - 53) (-1074))) in *.
  assert (He1 : e1 <= K - 53) by (unfold e1; lia).
  assert (He1' : ex <= e1 /\ -1074 <= e1) by (unfold e1; lia).
  destruct (binary_round_aux prec emax false mx ex lx) as [sg|sg| |sg m e];
    try done.
  destruct Hup as (-> & Hle & Hval & Hcanon).
  assert (Hscaled : Zpos m * 2 ^ (e + s) <= B + 2 ^ (K - 53 + s)).
  { replace (e + s) with ((e - ex) + (ex + s)) by lia.
    rewrite Z.pow_add_r by lia.
    assert (0 < 2 ^ (ex + s)) by (apply Z.pow_pos_nonneg; lia).
    assert (2 ^ (e1 - ex) * 2 ^ (ex + s) <= 2 ^ (K - 53 + s)).
    { rewrite <- Z.pow_add_r by lia. apply Z.pow_le_mono_r; lia. }
    nia. }
  split; [done|]. split; [|done]. split; [lia|].
  destruct Hcanon as [->|Hbig]; [done|].
  assert (Hpow : 2 ^ (52 + (e + s)) < 2 ^ (K + s)).
  { rewrite Z.pow_add_r by lia.
    assert (0 < 2 ^ (e + s)) by (apply Z.pow_pos_nonneg; lia). nia. }
  apply pow2_lt_inv in Hpow; lia.
Qed.

Lemma iter_xO_value m d : Zpos (Pos.iter xO m d) = Zpos m * 2 ^ Zpos d.
Proof.
  induction d as [|d IH] using Pos.peano_ind.
  - simpl. lia.
  - rewrite Pos.iter_succ, Pos2Z.inj_succ, Z.pow_succ_r by lia.
    rewrite Pos2Z.inj_xO, IH. lia.
Qed.

Lemma shl_align_value mx ex ex' :
  snd (shl_align mx ex ex') = Z.min ex ex'
  /\ Zpos (fst (shl_align mx ex ex'))
     = Zpos mx * 2 ^ (ex - Z.min ex ex').
Proof.
  unfold shl_align. destruct (ex' - ex) as [|d|d] eqn:Hd; cbn [fst snd].
  - rewrite Z.min_l by lia. rewrite Z.sub_diag. lia.
  - rewrite Z.min_l by lia. rewrite Z.sub_diag. lia.
  - rewrite Z.min_r by lia. split; [done|].
    rewrite iter_xO_value. do 2 f_equal. lia.
Qed.

Lemma binary_round_below K B mx ex :
  -1074 <= ex -> -1021 <= K <= 971 ->
  Zpos mx * 2 ^ (ex + 1074) <= B -> B + 2 ^ (K + 1021) < 2 ^ (K + 1074) ->
  below K (B + 2 ^ (K + 1021)) (binary_round prec emax false mx ex).
Proof.
  intros Hex HK HB Hlt. unfold binary_round.
  assert (Hpos : 0 < 2 ^ (K + 1021)) by (apply Z.pow_pos_nonneg; lia).
  assert (Hd : Zdigits2 (Zpos mx) + ex <= K)
    by (apply (Zdigits2_scaled _ _ 1074); lia).
  cbn [Zdigits2] in Hd.
  pose proof (shl_align_value mx ex
                (fexp prec emax (Zpos (digits2_pos mx) + ex))) as [He Hm].
  destruct (shl_align mx ex _) as [mz ez]. cbn [fst snd] in *.
  unfold fexp, emin, prec, emax in He, Hm.
  change (3 - 1024 - 53) with (-1074) in *.
  pose proof (binary_round_aux_scaled 1074 K B (Zpos mz) ez loc_Exact
                ltac:(lia) ltac:(lia) ltac:(lia) HK) as Hr.
  replace (K - 53 + 1074) with (K + 1021) in Hr by lia.
  assert (Hsame : Zpos mz * 2 ^ (ez + 1074) = Zpos mx * 2 ^ (ex + 1074)).
  { rewrite Hm, He, <- Z.mul_assoc, <- Z.pow_add_r by lia.
    do 2 f_equal. lia. }
  specialize (Hr ltac:(lia) Hlt).
  destruct (binary_round_aux prec emax false (Zpos mz) ez loc_Exact);
    try done.
Qed.

Lemma fadd_below K x y Bx By :
  below K Bx x -> below K By y -> 0 <= Bx -> 0 <= By ->
  -1021 <= K <= 971 -> Bx + By + 2 ^ (K + 1021) < 2 ^ (K + 1074) ->
  below K (Bx + By + 2 ^ (K + 1021)) (fadd x y).
Proof.
  intros Hx Hy HBx HBy HK Hlt.
  assert (Hpos : 0 < 2 ^ (K + 1021)) by (apply Z.pow_pos_nonneg; lia).
  destruct x as [sx|sx| |sx mx ex], y as [sy|sy| |sy my ey]; try done.
  - by destruct sx, sy.
  - eapply below_mono; [|exact Hy]. lia.
  - eapply below_mono; [|exact Hx]. lia.
  - destruct Hx as (-> & Hex & Hvx), Hy as (-> & Hey & Hvy).
    unfold fadd. cbn [SFadd cond_Zopp].
    pose proof (shl_align_value mx ex (Z.min ex ey)) as [_ Hmx].
    pose proof (shl_align_value my ey (Z.min ex ey)) as [_ Hmy].
    rewrite (Z.min_r ex (Z.min ex ey)) in Hmx by lia.
    rewrite (Z.min_r ey (Z.min ex ey)) in Hmy by lia.
    set (ez := Z.min ex ey) in *.
    set (ax := fst (shl_align mx ex ez)) in *.
    set (ay := fst (shl_align my ey ez)) in *.
    change (Z.pos ax + Z.pos ay) with (Z.pos (ax + ay)).
    cbn [binary_normalize].
    apply binary_round_below; [lia|done| |done].
    rewrite Pos2Z.inj_add, Hmx, Hmy, Z.mul_add_distr_r.
    rewrite <- !Z.mul_assoc, <- !Z.pow_add_r by lia.
    replace (ex - ez + (ez + 1074)) with (ex + 1074) by lia.
    replace (ey - ez + (ez + 1074)) with (ey + 1074) by lia. lia.
Qed.

Lemma fmul_below Kx Ky K x y Bx By :
  below Kx Bx x -> below Ky By y -> Kx + Ky - 53 <= K -> -1021 <= K <= 971 ->
  Bx * By + 2 ^ (K + 2095) < 2 ^ (K + 2148) ->
  below K ((Bx * By + 2 ^ (K + 2095)) / 2 ^ 1074) (fmul x y).
Proof.
  intros Hx Hy HKK HK Hlt.
  destruct x as [sx|sx| |sx mx ex], y as [sy|sy| |sy my ey]; try done.
  destruct Hx as (-> & Hex & Hvx), Hy as (-> & Hey & Hvy).
  unfold fmul. cbn [SFmul xorb].
  assert (Hpx : 0 < 2 ^ (ex + 1074)) by (apply Z.pow_pos_nonneg; lia).
  assert (Hpy : 0 < 2 ^ (ey + 1074)) by (apply Z.pow_pos_nonneg; lia).
  pose proof (binary_round_aux_scaled 2148 K (Bx * By) (Zpos (mx * my))
                (ex + ey) loc_Exact ltac:(lia) ltac:(lia) ltac:(lia) HK)
    as Hr.
  replace (K - 53 + 2148) with (K + 2095) in Hr by lia.
  assert (Hprod : Zpos (mx * my) * 2 ^ (ex + ey + 2148) <= Bx * By).
  { replace (ex + ey + 2148) with ((ex + 1074) + (ey + 1074)) by lia.
    rewrite Z.pow_add_r, Pos2Z.inj_mul by lia.
    replace (Zpos mx * Zpos my * (2 ^ (ex + 1074) * 2 ^ (ey + 1074)))
      with ((Zpos mx * 2 ^ (ex + 1074)) * (Zpos my * 2 ^ (ey + 1074)))
      by ring.
    apply Z.mul_le_mono_nonneg; lia. }
  specialize (Hr Hprod Hlt).
  destruct (binary_round_aux prec emax false (Zpos (mx * my)) (ex + ey)
              loc_Exact) as [sg|sg| |sg m e]; try done.
  destruct Hr as (-> & He & Hv). split; [done|]. split; [done|].
  apply Z.div_le_lower_bound; [by apply Z.pow_pos_nonneg|].
  replace (e + 2148) with (1074 + (e + 1074)) in Hv by lia.
  rewrite Z.pow_add_r in Hv by lia. lia.
Qed.

Lemma float_of_int_below K n :
  0 <= n -> -1021 <= K <= 971 ->
  n * 2 ^ 1074 + 2 ^ (K + 1021) < 2 ^ (K + 1074) ->
  exists x, float_of_int n = Ok x
            /\ below K (n * 2 ^ 1074 + 2 ^ (K + 1021)) x.
Proof.
  intros Hn HK Hlt. unfold float_of_int.
  destruct n as [|p|p]; [by eexists| |lia]. cbn [binary_normalize].
  pose proof (binary_round_below K (Zpos p * 2 ^ 1074) p 0 ltac:(lia) HK
                ltac:(done) Hlt) as Hb.
  destruct (binary_round prec emax false p 0) as [s|s| |s m e]; try done;
    by eexists.
Qed.

(** [int(x)] of a float below [2^K]. *)
Lemma below_int K B x :
  below K B x -> B < 2 ^ (K + 1074) -> 0 <= K ->
  exists n, int_of_float x = Ok n /\ 0 <= n < 2 ^ K.
Proof.
  intros Hx HB HK.
  assert (0 < 2 ^ K) by (apply Z.pow_pos_nonneg; lia).
  destruct x as [s|s| |s m e]; try done; cbn [int_of_float].
  { exists 0. split; [done|lia]. }
  destruct Hx as (-> & He & Hv). unfold magnitude_parts.
  assert (Hlt : Zpos m * 2 ^ (e + 1074) < 2 ^ K * 2 ^ 1074)
    by (rewrite <- Z.pow_add_r by lia; lia).
  assert (H1074 : 0 < 2 ^ 1074) by (by apply Z.pow_pos_nonneg).
  destruct e as [|e|e].
  - eexists. split; [done|]. rewrite Z.add_0_l in Hlt. nia.
  - eexists. split; [done|]. rewrite Z.pow_add_r in Hlt by lia.
    assert (0 < 2 ^ Zpos e) by (by apply Z.pow_pos_nonneg). nia.
  - eexists. split; [done|].
    assert (Hp : 0 < 2 ^ Zpos e) by (by apply Z.pow_pos_nonneg).
    split; [apply Z.div_pos; lia|].
    apply Z.div_lt_upper_bound; [done|].
    assert (Hsplit : 2 ^ 1074 = 2 ^ (Zneg e + 1074) * 2 ^ Zpos e).
    { rewrite <- Z.pow_add_r by lia. f_equal. lia. }
    assert (0 < 2 ^ (Zneg e + 1074)) by (apply Z.pow_pos_nonneg; lia).
    rewrite Hsplit in Hlt. nia.
Qed.

(** The three literals of [mono], with the fourth of its sepia. *)
Lemma literal_values :
  below 0 (3 * 2 ^ 1074 / 10 + 2 ^ 1021) (literal 3 10)
  /\ below 0 (6 * 2 ^ 1074 / 10 + 2 ^ 1021) (literal 6 10)
  /\ below 0 (1 * 2 ^ 1074 / 10 + 2 ^ 1021) (literal 1 10)
  /\ below 0 (4 * 2 ^ 1074 / 10 + 2 ^ 1021) (literal 4 10).
Proof. vm_compute. repeat split; discriminate. Qed.

Lemma mul_int_below L BL r c :
  below 0 BL L -> 0 <= r <= 255 ->
  BL * (255 * 2 ^ 1074 + 2 ^ 1029) + 2 ^ 2103 < 2 ^ 2156 ->
  (BL * (255 * 2 ^ 1074 + 2 ^ 1029) + 2 ^ 2103) / 2 ^ 1074 <= c ->
  exists a, mul_int L r = Ok a /\ below 8 c a.
Proof.
  intros HL Hr Hlt Hc. unfold mul_int.
  assert (E1 : 2 ^ 1082 = 256 * 2 ^ 1074) by (by vm_compute).
  assert (E2 : 2 ^ 1074 = 2 ^ 45 * 2 ^ 1029) by (by vm_compute).
  assert (H1029 : 0 < 2 ^ 1029) by (by apply Z.pow_pos_nonneg).
  destruct (float_of_int_below 8 r ltac:(lia) ltac:(lia)) as (y & -> & Hy).
  { change (8 + 1021) with 1029. change (8 + 1074) with 1082. lia. }
  cbn [rbind]. eexists. split; [done|].
  change (8 + 1021) with 1029 in Hy.
  eapply below_mono; [exact Hc|].
  apply (fmul_below 0 8 8); [done| |lia|lia|done].
  eapply below_mono; [|exact Hy]. lia.
Qed.

(** The brightness of a pixel of channels in 0..255 is below 256. *)
Lemma brightness_below p :
  valid_pixel p ->
  exists b, brightness p = Ok b /\ below 8 (255 * 2 ^ 1074 + 2 ^ 1042) b.
Proof.
  intros (Hr & Hg & Hb & _). unfold brightness.
  destruct literal_values as (H3 & H6 & H1 & _).
  destruct (mul_int_below _ _ (red p) (153 * 2 ^ 1073 + 2 ^ 1040) H3 Hr)
    as (a & -> & Ha); [by vm_compute|by vm_compute|].
  destruct (mul_int_below _ _ (green p) (153 * 2 ^ 1074 + 2 ^ 1040) H6 Hg)
    as (b & -> & Hb'); [by vm_compute|by vm_compute|].
  destruct (mul_int_below _ _ (blue p) (51 * 2 ^ 1073 + 2 ^ 1040) H1 Hb)
    as (c & -> & Hc); [by vm_compute|by vm_compute|].
  cbn [rbind]. eexists. split; [done|].
  pose proof (fadd_below 8 a b _ _ Ha Hb' ltac:(by vm_compute)
                ltac:(by vm_compute) ltac:(lia) ltac:(by vm_compute)) as Hab.
  pose proof (fadd_below 8 _ c _ _ Hab Hc ltac:(by vm_compute)
                ltac:(by vm_compute) ltac:(lia) ltac:(by vm_compute)) as Hs.
  eapply below_mono; [|exact Hs]. by vm_compute.
Qed.

Lemma gray_range p : valid_pixel p -> 0 <= gray p <= 255.
Proof.
  intros Hp. unfold gray.
  destruct (brightness_below p Hp) as (b & -> & Hb). cbn [rbind].
  destruct (below_int 8 _ b Hb ltac:(by vm_compute) ltac:(lia))
    as (n & -> & Hn).
  change (2 ^ 8) with 256 in Hn. lia.
Qed.

Lemma sepia_channel_range n d p BL :
  below 0 BL (literal n d) -> BL <= 2 ^ 1074 - 2 ^ 1060 -> 0 <= BL ->
  valid_pixel p ->
  exists b v,
    brightness p = Ok b
    /\ int_of_float (fmul (literal n d) b) = Ok v
    /\ sepia_channel n d p = v /\ 0 <= v <= 255.
Proof.
  intros HL HBL HBL0 Hp. unfold sepia_channel.
  destruct (brightness_below p Hp) as (b & -> & Hb). cbn [rbind].
  assert (ES : 2 ^ 2156 = 2 ^ 1082 * 2 ^ 1074) by (by vm_compute).
  assert (EP : 2 ^ 2103 = 2 ^ 1029 * 2 ^ 1074) by (by vm_compute).
  assert (E1 : 2 ^ 1082 = 256 * 2 ^ 1074) by (by vm_compute).
  assert (E2 : 2 ^ 1074 = 2 ^ 14 * 2 ^ 1060) by (by vm_compute).
  assert (E3 : 2 ^ 1060 = 2 ^ 18 * 2 ^ 1042) by (by vm_compute).
  assert (E4 : 2 ^ 1042 = 2 ^ 13 * 2 ^ 1029) by (by vm_compute).
  assert (H1029 : 0 < 2 ^ 1029) by (by apply Z.pow_pos_nonneg).
  assert (Hlt : BL * (255 * 2 ^ 1074 + 2 ^ 1042) + 2 ^ (8 + 2095)
                < 2 ^ (8 + 2148)).
  { change (8 + 2095) with 2103. change (8 + 2148) with 2156.
    rewrite ES, EP.
    assert (BL * (255 * 2 ^ 1074 + 2 ^ 1042)
            <= (2 ^ 1074 - 2 ^ 1060) * (255 * 2 ^ 1074 + 2 ^ 1042))
      by (apply Z.mul_le_mono_nonneg_r; lia).
    nia. }
  pose proof (fmul_below 0 8 8 _ b _ _ HL Hb ltac:(lia) ltac:(lia) Hlt)
    as Hprod.
  destruct (below_int 8 _ _ Hprod) as (v & Hv & Hrange); [|lia|].
  { apply Z.div_lt_upper_bound; [by apply Z.pow_pos_nonneg|].
    change (8 + 2148) with 2156 in Hlt. change (8 + 1074) with 1082.
    rewrite ES in Hlt. lia. }
  exists b, v. split; [done|]. split; [done|]. rewrite Hv.
  change (2 ^ 8) with 256 in Hrange. split; [done|lia].
Qed.

Lemma literal_small_values :
  6 * 2 ^ 1074 / 10 + 2 ^ 1021 <= 2 ^ 1074 - 2 ^ 1060
  /\ 4 * 2 ^ 1074 / 10 + 2 ^ 1021 <= 2 ^ 1074 - 2 ^ 1060.
Proof. by vm_compute. Qed.

Lemma mono_pixel_valid (sepia : bool) p :
  valid_pixel p ->
  mono_pixel sepia p
  = (Ok tt, if sepia then sepia_pixel p else gray_pixel p)
  /\ valid_pixel (if sepia then sepia_pixel p else gray_pixel p).
Proof.
  intros Hp. pose proof (gray_range p Hp) as Hgray.
  pose proof Hp as (_ & _ & _ & Ha).
  destruct sepia.
  - destruct literal_values as (_ & H6 & _ & H4).
    destruct literal_small_values as [S6 S4].
    destruct (sepia_channel_range 6 10 p _ H6 S6 ltac:(by vm_compute) Hp)
      as (b & vg & Hb & Hvg & Eg & Hg).
    destruct (sepia_channel_range 4 10 p _ H4 S4 ltac:(by vm_compute) Hp)
      as (b' & vb & Hb' & Hvb & Eb & Hbl).
    rewrite Hb in Hb'. injection Hb' as <-.
    assert (Hint : int_of_float b = Ok (gray p)).
    { unfold gray. rewrite Hb. cbn [rbind].
      destruct (brightness_below p Hp) as (b0 & Hb0 & Hbelow).
      rewrite Hb in Hb0. injection Hb0 as <-.
      by destruct (below_int 8 _ b Hbelow ltac:(by vm_compute) ltac:(lia))
        as (n & -> & _). }
    split.
    + unfold mono_pixel, bind, get, lift. rewrite Hb, Hint, Hvg, Hvb.
      unfold set_red, set_green, set_blue, sepia_pixel. cbn.
      by rewrite Eg, Eb.
    + unfold sepia_pixel, valid_pixel. cbn [red green blue alpha].
      rewrite Eg, Eb. lia.
  - split; [|unfold gray_pixel, valid_pixel; cbn [red green blue alpha]; lia].
    by apply (mono_pixel_total 8); [lia|apply valid_pixel_small].
Qed.

(** X25. [mono], in both modes, on a buffer whose channels are in
    0..255: the call returns [True], every pixel is replaced by its gray
    pixel, or by its sepia pixel [(int(b), int(0.6 * b), int(0.4 * b))]
    with [b] the brightness, the alpha is kept, and every channel of the
    result is in 0..255 again: the brightness, computed in binary64,
    stays below 256. *)
Theorem mono_channels_in_range (sepia : bool) (image : buffer) :
  Forall (Forall valid_pixel) image ->
  exists image',
    mono sepia image = (Ok true, image')
    /\ image' = map_pixels (if sepia then sepia_pixel else gray_pixel) image
    /\ Forall (Forall valid_pixel) image'.
Proof.
  intros Hvalid. eexists. split; [|split; [reflexivity|]].
  - unfold mono, for_pixels, bind, ret, map_pixels.
    rewrite (for_items_total _
               (fmap (M := list)
                  (fun p => if sepia then sepia_pixel p else gray_pixel p)));
      [by destruct sepia|].
    eapply Forall_impl; [exact Hvalid|]. intros row Hrow. cbn beta.
    apply for_items_total. eapply Forall_impl; [exact Hrow|].
    intros p Hp. by apply mono_pixel_valid.
  - unfold map_pixels. apply Forall_fmap.
    eapply Forall_impl; [exact Hvalid|]. intros row Hrow. cbn.
    apply Forall_fmap. eapply Forall_impl; [exact Hrow|].
    intros p Hp. pose proof (proj2 (mono_pixel_valid sepia p Hp)) as Hv.
    unfold compose. by destruct sepia.
Qed.

Lemma mono_channels_in_range_witness :
  let image := [[mkRGB 255 255 255 255; mkRGB 100 200 50 17];
                [mkRGB 0 0 0 0; mkRGB 0 2 0 255]] in
  exists image',
    mono true image = (Ok true, image')
    /\ image' = map_pixels sepia_pixel image
    /\ Forall (Forall valid_pixel) image'.
Proof.
  intros image.
  apply (mono_channels_in_range true image).
  repeat constructor; cbn; lia.
Defined.

(** White stays white in grayscale; its sepia is (255, 153, 102). *)
Example mono_white :
  mono false [[mkRGB 255 255 255 255]] = (Ok true, [[mkRGB 255 255 255 255]])
  /\ mono true [[mkRGB 255 255 255 255]]
     = (Ok true, [[mkRGB 255 153 102 255]]).
Proof. by vm_compute. Qed.

(* ===================================================================== *)
(** * Further properties: where the pixels go, and the range of blur      *)
(* ===================================================================== *)

(** X26. The five geometric transforms only move pixels.  On a buffer
    of [h > 0] rows and [w > 0] columns each returns [True]; the
    horizontal flip puts at [(i, j)] the pixel of [(i, w-1-j)], the
    vertical flip that of [(h-1-i, j)]; the transpose, of [w] rows and [h]
    columns, that of [(j, i)]; the rotation to the left, of [w] rows and
    [h] columns, that of [(j, w-1-i)] (the last column becomes the first
    row: a quarter turn against the clock), and the rotation to the right
    that of [(h-1-j, i)] (the first column, read upwards, becomes the
    first row). *)
Theorem transforms_move_pixels (h w : nat) (image : buffer) :
  (0 < h)%nat -> (0 < w)%nat -> rectangular h w image ->
  (exists image', flip false image = (Ok true, image')
     /\ rectangular h w image'
     /\ forall i j, (i < h)%nat -> (j < w)%nat ->
          pixel_lookup image' i j = pixel_lookup image i (w - S j))
  /\ (exists image', flip true image = (Ok true, image')
        /\ rectangular h w image'
        /\ forall i j, (i < h)%nat -> (j < w)%nat ->
             pixel_lookup image' i j = pixel_lookup image (h - S i) j)
  /\ (exists image', transpose image = (Ok true, image')
        /\ rectangular w h image'
        /\ forall i j, (i < w)%nat -> (j < h)%nat ->
             pixel_lookup image' i j = pixel_lookup image j i)
  /\ (exists image', rotate false image = (Ok true, image')
        /\ rectangular w h image'
        /\ forall i j, (i < w)%nat -> (j < h)%nat ->
             pixel_lookup image' i j = pixel_lookup image j (w - S i))
  /\ (exists image', rotate true image = (Ok true, image')
        /\ rectangular w h image'
        /\ forall i j, (i < w)%nat -> (j < h)%nat ->
             pixel_lookup image' i j = pixel_lookup image (h - S j) i).
Proof.
  intros Hh Hw Hrect. pose proof Hrect as [Hlen _].
  split; [|split; [|split; [|split]]].
  - exists (reverse <$> image). split; [apply flip_horizontal|].
    split; [by apply rectangular_row_reverse|].
    intros i j _ Hj. by apply (pixel_lookup_row_reverse h w).
  - exists (reverse image). split; [apply flip_vertical|].
    split; [by apply rectangular_reverse|].
    intros i j Hi _. rewrite pixel_lookup_reverse by lia. by rewrite Hlen.
  - by apply transpose_spec.
  - by apply rotate_left_spec.
  - by apply rotate_right_spec.
Qed.

Lemma transforms_move_pixels_witness :
  let image := [[mkRGB 1 1 1 1; mkRGB 2 2 2 2; mkRGB 3 3 3 3];
                [mkRGB 4 4 4 4; mkRGB 5 5 5 5; mkRGB 6 6 6 6]] in
  (exists image', rotate false image = (Ok true, image')
     /\ rectangular 3 2 image'
     /\ forall i j, (i < 3)%nat -> (j < 2)%nat ->
          pixel_lookup image' i j = pixel_lookup image j (3 - S i))
  /\ (exists image', rotate true image = (Ok true, image')
        /\ rectangular 3 2 image'
        /\ forall i j, (i < 3)%nat -> (j < 2)%nat ->
             pixel_lookup image' i j = pixel_lookup image (2 - S j) i).
Proof.
  intros image.
  assert (Hrect : rectangular 2 3 image)
    by (split; [reflexivity | repeat constructor]).
  destruct (transforms_move_pixels 2 3 image ltac:(lia) ltac:(lia) Hrect)
    as (_ & _ & _ & Hleft & Hright).
  by split.
Defined.

Example rotate_example :
  let image := [[mkRGB 1 1 1 1; mkRGB 2 2 2 2; mkRGB 3 3 3 3];
                [mkRGB 4 4 4 4; mkRGB 5 5 5 5; mkRGB 6 6 6 6]] in
  rotate false image
  = (Ok true, [[mkRGB 3 3 3 3; mkRGB 6 6 6 6];
               [mkRGB 2 2 2 2; mkRGB 5 5 5 5];
               [mkRGB 1 1 1 1; mkRGB 4 4 4 4]])
  /\ rotate true image
     = (Ok true, [[mkRGB 4 4 4 4; mkRGB 1 1 1 1];
                  [mkRGB 5 5 5 5; mkRGB 2 2 2 2];
                  [mkRGB 6 6 6 6; mkRGB 3 3 3 3]]).
Proof. by vm_compute. Qed.

Lemma box_average_valid (h w : nat) image radius r c p :
  Forall (Forall valid_pixel) image ->
  0 <= radius -> 0 <= r < Z.of_nat h -> 0 <= c < Z.of_nat w ->
  Z.of_nat h * Z.of_nat w < 2 ^ 43 ->
  box_average (Z.of_nat h) (Z.of_nat w) image radius r c = Ok p ->
  valid_pixel p.
Proof.
  intros Hvalid Hrad Hr Hc Hsize Hbox.
  destruct (box_average_nearest h w image radius r c p Hvalid Hrad Hr Hc
              Hsize Hbox) as (H1 & H2 & H3 & H4).
  pose proof (window_count_pos (Z.of_nat h) (Z.of_nat w) radius r c
                Hrad Hr Hc) as Hn.
  repeat split;
    (eapply (nearest_integer_range _ _ _ Hn); [|eassumption]);
    apply window_sum_bounds; try done; by intros q (? & ? & ? & ?).
Qed.

(** X27. [blur] with a radius that is not negative, on a buffer of fewer
    than [2^43] pixels with channels in 0..255: the call returns [True],
    the shape is kept and every channel of the result, the alpha
    included, is in 0..255 again. *)
Theorem blur_channels_in_range (h w : nat) (image : buffer) (radius : Z) :
  (0 < h)%nat -> (0 < w)%nat -> rectangular h w image ->
  Forall (Forall valid_pixel) image -> 0 <= radius ->
  Z.of_nat h * Z.of_nat w < 2 ^ 43 ->
  exists image',
    blur radius image = (Ok true, image')
    /\ rectangular h w image'
    /\ Forall (Forall valid_pixel) image'.
Proof.
  intros Hh Hw Hrect Hvalid Hrad Hsize.
  destruct (blur_run h w image radius Hh Hw Hrect Hvalid Hrad)
    as (image' & Hrun & Hrect' & Hpix).
  exists image'. split; [done|]. split; [done|].
  apply Forall_pixels. intros i j q Hq.
  destruct (pixel_lookup_in_range h w image' i j q Hrect' Hq) as [Hi Hj].
  rewrite (Hpix i j Hi Hj) in Hq. injection Hq as <-.
  destruct (box_average_total (Z.of_nat h) (Z.of_nat w) image radius
              (Z.of_nat i) (Z.of_nat j) Hvalid Hrad ltac:(lia) ltac:(lia))
    as [p Hp].
  unfold box_pixel. rewrite Hp.
  eapply (box_average_valid h w); [exact Hvalid|exact Hrad| | |exact Hsize|exact Hp]; lia.
Qed.

Lemma blur_channels_in_range_witness :
  let image := [[mkRGB 0 0 0 255; mkRGB 10 20 30 255];
                [mkRGB 1 2 3 4; mkRGB 255 255 255 5]] in
  exists image',
    blur 1 image = (Ok true, image')
    /\ rectangular 2 2 image'
    /\ Forall (Forall valid_pixel) image'.
Proof.
  intros image.
  apply (blur_channels_in_range 2 2 image 1);
    [lia | lia | split; [reflexivity | repeat constructor]
    | repeat constructor; cbn; lia | lia | cbn; lia].
Defined.
